(** * SimCIS: pseudo-label generation, matching adapter, loss dispatch and
    replay cache

    A shallow embedding of the continual-segmentation core of SimCIS:
    - [MaskFormer.generate_psd_targets] and the pseudo-label branch of
      [MaskFormer.forward]            (mask2former/maskformer_model.py),
    - [SetCriterion.forward], [_remove_fake_query] and
      [_modify_indices_targets_for_fake_query]
                                      (mask2former/modeling/criterion.py),
    - the replay-cache writer of [MaskFormer.forward] and the merge of
      [Trainer.after_train]           (continual/trainer.py),
    - the class targets of [SetCriterion.loss_labels], [dice_loss], the
      task arithmetic of [MaskFormer.from_config], the previous-task
      directories, [MaskFormer.prepare_targets] and
      [MaskFormer.panoptic_inference].

    Conventions.  Integer tensors are lists of [Z]; probabilities and scores
    are rationals ([Q]): comparisons and [clamp] are exact on floats.  The
    area gate of the generator multiplies and compares in single precision,
    as the tensors do, with the IEEE 754 operations of [SpecFloat].  A raster (an [H x W] slice of
    a mask tensor) is a list of rows.  A prediction tensor of shape
    [B x Q x ...] is kept as the list of its [Q] slices along dimension 1,
    the only dimension the matching adapter looks at.  Python dictionaries
    with class-label keys are [gmap]s. *)

From Stdlib Require Import QArith Lqa.
From Stdlib Require SpecFloat.
From stdpp Require Import gmap list sorting strings pretty.

Open Scope Z_scope.

(** ** Floating-point numbers *)

Module Float32.

Abbreviation float := SpecFloat.spec_float.

(** An integer as a double, and the double nearest to the fraction [a / b]:
    what Python reads from a decimal literal such as [0.8]. *)
Definition f64_of_Z (z : Z) : float :=
  SpecFloat.binary_normalize 53 1024 z 0 false.
Definition f64_ratio (a b : Z) : float :=
  SpecFloat.SFdiv 53 1024 (f64_of_Z a) (f64_of_Z b).

(** [t.to(torch.float32)] for an integer tensor entry: round to nearest,
    ties to even. *)
Definition f32_of_Z (z : Z) : float :=
  SpecFloat.binary_normalize 24 128 z 0 false.

(** A Python scalar in an operation with a [float32] tensor is rounded to
    single precision first. *)
Definition to_f32 (x : float) : float :=
  match x with
  | SpecFloat.S754_finite s m e =>
      SpecFloat.binary_normalize 24 128 (if s then Z.neg m else Z.pos m) e s
  | _ => x
  end.

Definition f32_mul : float → float → float := SpecFloat.SFmul 24 128.
Definition f32_lt : float → float → bool := SpecFloat.SFltb.

End Float32.

Import Float32.

(** ** Rasters and element-wise tensor operations *)

Module Raster.

Abbreviation raster A := (list (list A)).

Definition rmap {A B} (f : A → B) (r : raster A) : raster B :=
  fmap (M:=list) (fmap (M:=list) f) r.

(** Element-wise binary operation on two rasters of the same shape. *)
Definition rzip {A B C} (f : A → B → C) (a : raster A) (b : raster B)
  : raster C :=
  zip_with (zip_with f) a b.

Definition pix {A} (r : raster A) (i j : nat) : option A :=
  r !! i ≫= λ row, row !! j.

Definition zeros (h w : nat) : raster Z := replicate h (replicate w 0).

(** [t.sum(0)] for a tensor [t] of shape [N x h x w]. *)
Definition sum0 (h w : nat) (t : list (raster Z)) : raster Z :=
  foldl (rzip Z.add) (zeros h w) t.

(** [torch.clamp(x, min=lo, max=hi)] on integers. *)
Definition clamp (lo hi x : Z) : Z := Z.min (Z.max x lo) hi.

Definition bool_to_Z (b : bool) : Z := if b then 1 else 0.
Definition Z_to_bool (z : Z) : bool := negb (z =? 0).

(** [m.sum(dim=(1, 2))] for one boolean mask. *)
Definition area (m : raster bool) : Z :=
  foldr (λ row acc, foldr (λ b n, bool_to_Z b + n) 0 row + acc) 0 m.

Definition logical_and : raster bool → raster bool → raster bool :=
  rzip andb.
Definition logical_not (r : raster Z) : raster bool := rmap (λ z, z =? 0) r.

(** [x[keep]]: boolean-mask indexing along the first dimension. *)
Fixpoint select {A} (keep : list bool) (xs : list A) : list A :=
  match keep, xs with
  | k :: keep', x :: xs' =>
      if k then x :: select keep' xs' else select keep' xs'
  | _, _ => []
  end.

Definition Qlt_bool (a b : Q) : bool := negb (Qle_bool b a).

(** [m >= 0.5] *)
Definition binarize (m : raster Q) : raster bool :=
  rmap (λ p, Qle_bool (1 # 2) p) m.

(** [t.argmax(0)]: per pixel, the first index with the maximal value. *)
Fixpoint argmax_from (k : nat) (best : raster (Q * nat))
    (t : list (raster Q)) : raster (Q * nat) :=
  match t with
  | [] => best
  | m :: t' =>
      argmax_from (S k)
        (rzip (λ b v, if Qlt_bool (fst b) v then (v, k) else b) best m) t'
  end.

Definition argmax0 (t : list (raster Q)) : raster nat :=
  match t with
  | [] => []
  | m :: t' => rmap snd (argmax_from 1 (rmap (λ v, (v, 0%nat)) m) t')
  end.

(** A raster of [h] rows and [w] columns. *)
Definition has_shape {A} (h w : nat) (r : raster A) : Prop :=
  length r = h ∧ Forall (λ row, length row = w) r.

(** No entry of an integer raster is negative. *)
Definition nonneg (r : raster Z) : Prop :=
  ∀ i j a, pix r i j = Some a → 0 ≤ a.

End Raster.

Import Raster.

(** ** Data model *)

(** A box is a quadruple (cx, cy, w, h), normalised by the image size. *)
Definition box : Type := Q * Q * Q * Q.

(** A target dictionary: the three tensors under the keys ['labels'],
    ['masks'] and ['boxes'].  They are separate lists, as in the source:
    the matching adapter extends ['labels'] alone. *)
Record target := Target {
  labels : list Z;
  masks : list (raster bool);
  boxes : list box
}.

(** An old-model prediction dictionary (keys ['labels'], ['masks'],
    ['scores'], ['boxes']); masks are probability rasters. *)
Record prediction := Prediction {
  p_labels : list Z;
  p_masks : list (raster Q);
  p_scores : list Q;
  p_boxes : list box
}.

(** [torch.cat([p[key], t[key]])] for each of the three keys. *)
Definition cat_targets (p t : target) : target :=
  {| labels := labels p ++ labels t;
     masks := masks p ++ masks t;
     boxes := boxes p ++ boxes t |}.

(** [np.logical_not(np.isin(tgt['labels'], current_catagory_ids)).sum() != 0] *)
Definition is_memory_image (current_catagory_ids : list Z) (tgt : target)
  : bool :=
  negb (length (filter (λ l, l ∉ current_catagory_ids) (labels tgt)) =? 0)%nat.

Definition memory_part (current_catagory_ids : list Z)
    (targets : list target) : list bool :=
  fmap (is_memory_image current_catagory_ids) targets.

(** ** The pseudo-label generator: [MaskFormer.generate_psd_targets] *)

Module PsdGenerator.

(** The score gate at the head of the loop body. *)
Definition score_keep (strict_mode : bool) (old_pred : prediction)
  : list bool :=
  if strict_mode
  then fmap (λ s, Qle_bool (2 # 5) s) (p_scores old_pred)
  else fmap (λ s, Qle_bool 0 s) (p_scores old_pred).

(** [old_masks], [old_labels], [old_scores], [old_boxes]: the predictions
    that go on to the area/overlap filter. *)
Definition candidates (strict_mode : bool) (old_pred : prediction)
  : prediction :=
  let keep := score_keep strict_mode old_pred in
  {| p_labels := select keep (p_labels old_pred);
     p_masks := select keep (p_masks old_pred);
     p_scores := select keep (p_scores old_pred);
     p_boxes := select keep (p_boxes old_pred) |}.

Definition old_area (old_masks : list (raster Q)) : list Z :=
  fmap (λ m, area (binarize m)) old_masks.

(** [old_scores.view(-1, 1, 1) * old_masks] *)
Definition prob_masks (old_scores : list Q) (old_masks : list (raster Q))
  : list (raster Q) :=
  zip_with (λ s m, rmap (Qmult s) m) old_scores old_masks.

Definition mask_ids (old_scores : list Q) (old_masks : list (raster Q))
  : raster nat :=
  argmax0 (prob_masks old_scores old_masks).

(** The loop over [k] filling [non_ol_masks] and [selected_masks]. *)
Definition owned_masks (ids : raster nat) (old_masks : list (raster Q))
  : list (raster bool) :=
  imap (λ k m, logical_and (rmap (λ id, id =? k)%nat ids) (binarize m))
       old_masks.

Definition selected_masks (ids : raster nat) (old_masks : list (raster Q))
  : list (raster bool) :=
  imap (λ k _, rmap (λ id, id =? k)%nat ids) old_masks.

Section Generator.
(** Canvas size of the padded batch: every mask tensor is [N x H x W]. *)
Variables H W : nat.
(** [self.psd_overlap_threshold], a Python float. *)
Variable psd_overlap_threshold : float.
Variable combine_psdlabel : bool.
(** detectron2's [BitMasks.get_bounding_boxes], followed by
    [box_xyxy_to_cxcywh] and the division by [image_size_xyxy]; the
    second argument is the image size (h, w). *)
Variable mask_boxes : list (raster bool) → nat * nat → list box.

(** [torch.clamp(gt_target["masks"].sum(0).int(), min=0, max=1)] *)
Definition gt_region (gt_masks : list (raster bool)) : raster Z :=
  rmap (clamp 0 1) (sum0 H W (fmap (rmap bool_to_Z) gt_masks)).

Definition non_ol_masks (gt_masks : list (raster bool))
    (old_scores : list Q) (old_masks : list (raster Q))
  : list (raster bool) :=
  fmap (λ m, logical_and m (logical_not (gt_region gt_masks)))
      (owned_masks (mask_ids old_scores old_masks) old_masks).

Definition new_area (gt_masks : list (raster bool))
    (old_scores : list Q) (old_masks : list (raster Q)) : list Z :=
  fmap area (non_ol_masks gt_masks old_scores old_masks).

Definition argmax_area (old_scores : list Q) (old_masks : list (raster Q))
  : list Z :=
  fmap area (selected_masks (mask_ids old_scores old_masks) old_masks).

(** [x > y * self.psd_overlap_threshold] for entries [x], [y] of two
    [int64] tensors: the product is a [float32] tensor, and the comparison
    promotes [x] to [float32]. *)
Definition exceeds_share (x y : Z) : bool :=
  f32_lt (f32_mul (f32_of_Z y) (to_f32 psd_overlap_threshold)) (f32_of_Z x).

(** One entry of the [keep] tensor. *)
Definition keep_entry (strict_mode : bool) (na oa aa : Z) : bool :=
  if strict_mode
  then (0 <? na) && exceeds_share na oa && exceeds_share oa aa
  else (0 <? na) && exceeds_share na oa.

Definition area_keep (strict_mode : bool) (gt_masks : list (raster bool))
    (old_scores : list Q) (old_masks : list (raster Q)) : list bool :=
  zip_with (λ na oa_aa, keep_entry strict_mode na (fst oa_aa) (snd oa_aa))
    (new_area gt_masks old_scores old_masks)
    (zip (old_area old_masks) (argmax_area old_scores old_masks)).

(** [tensor.unique()]: the distinct values, ascending. *)
Definition unique (l : list Z) : list Z := merge_sort Z.le (remove_dups l).

(** The [combine_psdlabel] branch: one unioned mask per class. *)
Definition label_mask (psd_labels : list Z)
    (select_masks : list (raster bool)) (label : Z) : raster bool :=
  rmap Z_to_bool
    (rmap (clamp 0 1)
       (sum0 H W (fmap (rmap bool_to_Z)
                    (select (fmap (λ l, l =? label) psd_labels) select_masks)))).

(** The body of the loop over the images of the batch; returns the
    entries appended to [psd_targets] and [old_targets]. *)
Definition generate_psd_image (image_size : nat * nat) (gt_target : target)
    (old_pred : prediction) (strict_mode : bool) : target * target :=
  let c := candidates strict_mode old_pred in
  let old_masks := p_masks c in
  let old_labels := p_labels c in
  let old_scores := p_scores c in
  let old_boxes := p_boxes c in
  if (length old_masks =? 0)%nat then
    let t := {| labels := old_labels; masks := fmap binarize old_masks;
                boxes := old_boxes |} in
    (t, t)
  else
    let keep := area_keep strict_mode (masks gt_target) old_scores old_masks in
    let psd_labels := select keep old_labels in
    let select_masks :=
      select keep (non_ol_masks (masks gt_target) old_scores old_masks) in
    if combine_psdlabel then
      let unique_labels := unique psd_labels in
      let temp_masks := fmap (label_mask psd_labels select_masks) unique_labels in
      let fused :=
        if (0 <? length temp_masks)%nat
        then {| labels := unique_labels; masks := temp_masks;
                boxes := mask_boxes temp_masks image_size |}
        else {| labels := unique_labels; masks := []; boxes := [] |} in
      (fused, fused)
    else
      let t := {| labels := psd_labels; masks := select_masks;
                  boxes := mask_boxes select_masks image_size |} in
      (t, t).

(** [generate_psd_targets]: the loop over [zip(gt_targets, old_preds)];
    [gt_instances] contributes the image sizes. *)
Fixpoint generate_psd_targets (gt_targets : list target)
    (old_preds : list prediction) (gt_instances : list (nat * nat))
    (strict_mode : bool) : list target * list target :=
  match gt_targets, old_preds with
  | gt_target :: gts, old_pred :: ops =>
      let sz := default (0, 0)%nat (head gt_instances) in
      let '(p, o) := generate_psd_image sz gt_target old_pred strict_mode in
      let '(ps, os) :=
        generate_psd_targets gts ops (tail gt_instances) strict_mode in
      (p :: ps, o :: os)
  | _, _ => ([], [])
  end.

End Generator.

End PsdGenerator.

Import PsdGenerator.

(** The overlap the pixel-wise AND of a boolean mask and the 0/1 region
    tensor computes. *)
Definition overlap_with_region (m : raster bool) (region : raster Z)
  : raster bool :=
  logical_and m (rmap Z_to_bool region).


(** Stand-in for the box computation in worked examples. *)
Definition unit_boxes : list (raster bool) → nat * nat → list box :=
  λ ms _, (λ _, (0, 0, 0, 0)%Q) <$> ms.


(** ** The loss aggregator and the matching adapter: [SetCriterion] *)

Module Criterion.

(** A per-image match: (prediction indices, target indices). *)
Definition indice : Type := list Z * list Z.

Inductive scope := Primary | Aux (i : nat) | Interm.

(** The entries of [self.losses] that [get_loss] accepts. *)
Inductive loss_name := labels_loss | masks_loss | points_loss | kd_loss.

#[global] Instance scope_eq_dec : EqDecision scope.
Proof. solve_decision. Defined.
#[global] Instance loss_name_eq_dec : EqDecision loss_name.
Proof. solve_decision. Defined.

(** [torch.clamp(x, min=lo)] *)
Definition clamp_min (lo x : Q) : Q := if Qlt_bool x lo then lo else x.

(** The normaliser of [forward].  [dist] is [None] when the process group
    is not initialised, and otherwise holds the target counts of the other
    workers, which [all_reduce] adds to the local one; [get_world_size()]
    is then one more than their number, and 1 without a process group. *)
Definition num_masks (complete_psd_targets : list target)
    (dist : option (list nat)) : Q :=
  let local := inject_Z (Z.of_nat
                 (sum_list ((λ t, length (labels t)) <$> complete_psd_targets))) in
  let reduced :=
    match dist with
    | Some peers => (local + inject_Z (Z.of_nat (sum_list peers)))%Q
    | None => local
    end in
  let world_size :=
    match dist with
    | Some peers => S (length peers)
    | None => 1%nat
    end in
  clamp_min 1 (reduced / inject_Z (Z.of_nat world_size)).

(** [max(indice[1]).long() if len(indice[1]) > 0 else torch.tensor(-1)] *)
Definition max_indice (tgt : list Z) : Z :=
  match tgt with
  | [] => -1
  | x :: rest => foldl Z.max x rest
  end.

Section SetCriterion.
(** The slice of a prediction tensor at one query slot. *)
Context {slot : Type}.
(** A dictionary of prediction tensors, each seen along dimension 1. *)
Abbreviation tensors := (gmap string (list slot)).

Variable current_catagory_ids : list Z.
Variable vq_number : nat.
Variable kd_temperature kd_temperature2 : Q.
Variable kd_decoder : bool.
Variable losses : list loss_name.
(** The Hungarian matcher, an external collaborator. *)
Variable matcher : tensors → list target → list indice.

(** [fake_num = v.shape[1] - 100; v[:, :-fake_num] if fake_num > 0 else v] *)
Definition remove_fake_query_tensor (v : list slot) : list slot :=
  let fake_num := Z.of_nat (length v) - 100 in
  if 0 <? fake_num
  then take (Z.to_nat (Z.of_nat (length v) - fake_num)) v
  else v.

Definition _remove_fake_query (outputs : tensors) : tensors :=
  remove_fake_query_tensor <$> outputs.

(** The extension of one match by the synthetic query slots. *)
Definition new_indice (ind : indice) : indice :=
  (ind.1 ++ ((λ i, 100 + Z.of_nat i) <$> seq 0 vq_number),
   ind.2 ++ ((λ i, max_indice ind.2 + Z.of_nat i + 1) <$> seq 0 vq_number)).

Definition add_fake_labels (t : target) (fql : list Z) : target :=
  {| labels := labels t ++ fql; masks := masks t; boxes := boxes t |}.

(** [None] stands for the [AssertionError] of the length check. *)
Definition _modify_indices_targets_for_fake_query (indices : list indice)
    (targets : list target) (fake_query_labels : option (list (list Z)))
  : option (list indice * list target) :=
  match fake_query_labels with
  | None => Some (indices, targets)
  | Some fqls =>
      if decide (length fqls = length targets ∧
                 length targets = length indices)
      then Some (new_indice <$> indices, zip_with add_fake_labels targets fqls)
      else None
  end.

(** The fused target of [forward]. *)
Definition complete_psd_targets (targets : list target)
    (psd_targets old_targets : option (list target)) : list target :=
  let memory := memory_part current_catagory_ids targets in
  match psd_targets, old_targets with
  | Some psd, Some _ =>
      imap (λ i pt,
              if default false (memory !! i)
              then {| labels := labels pt.2; masks := masks pt.2;
                      boxes := boxes pt.2 |}
              else cat_targets pt.1 pt.2)
           (zip psd targets)
  | _, _ => targets
  end.

(** What [forward] asks of its collaborators, in order. *)
Inductive call :=
| CallMatcher (s : scope) (preds : tensors) (tgts : list target)
| CallLoss (s : scope) (l : loss_name) (tgts : list target)
    (indices : list indice)
| CallKD (s : scope) (temperature : Q).

(** The loop [for loss in self.losses] of one scope.  [kd] is the
    temperature handed to the distillation loss, or [None] where the loop
    skips it. *)
Fixpoint scope_losses (s : scope) (kd : option Q) (complete : list target)
    (indices : list indice) (fake_query_labels : option (list (list Z)))
    (ls : list loss_name) : option (list call) :=
  match ls with
  | [] => Some []
  | l :: ls' =>
      here ← match l with
             | labels_loss =>
                 new ← _modify_indices_targets_for_fake_query indices complete
                         fake_query_labels;
                 Some [CallLoss s labels_loss new.2 new.1]
             | kd_loss =>
                 Some match kd with
                      | Some t => [CallKD s t]
                      | None => []
                      end
             | _ => Some [CallLoss s l complete indices]
             end;
      rest ← scope_losses s kd complete indices fake_query_labels ls';
      Some (here ++ rest)
  end.

(** One scope: strip the synthetic slots, match, then compute the losses. *)
Definition scope_forward (s : scope) (kd : option Q) (preds : tensors)
    (complete : list target) (fake_query_labels : option (list (list Z)))
  : option (list call) :=
  let no_fakeQuery := _remove_fake_query preds in
  let indices := matcher no_fakeQuery complete in
  calls ← scope_losses s kd complete indices fake_query_labels losses;
  Some (CallMatcher s no_fakeQuery complete :: calls).

Fixpoint aux_forward (i : nat) (aux_outputs : list tensors)
    (complete : list target) (fake_query_labels : option (list (list Z)))
  : option (list call) :=
  match aux_outputs with
  | [] => Some []
  | aux :: rest =>
      here ← scope_forward (Aux i) None aux complete fake_query_labels;
      more ← aux_forward (S i) rest complete fake_query_labels;
      Some (here ++ more)
  end.

(** The model output: the tensors whose key contains ['pred'], and the
    optional ['aux_outputs'] and ['interm_outputs'] entries. *)
Record outputs := Outputs {
  preds : tensors;
  aux_outputs : option (list tensors);
  interm_outputs : option tensors
}.

(** [SetCriterion.forward], as the sequence of matcher and loss calls it
    makes.  [None] stands for the [AssertionError] of the adapter; the
    matcher and the loss functions are collaborators whose own errors, and
    those of looking up their distillation arguments, are not part of this
    model: a trace is what [forward] asks for when they all return. *)
Definition forward (out : outputs) (targets : list target)
    (psd_targets old_targets : option (list target))
    (fake_query_labels : option (list (list Z))) : option (list call) :=
  let complete := complete_psd_targets targets psd_targets old_targets in
  primary ← scope_forward Primary
               (if kd_decoder then Some kd_temperature2 else None)
               (preds out) complete fake_query_labels;
  aux ← match aux_outputs out with
        | Some auxs => aux_forward 0 auxs complete fake_query_labels
        | None => Some []
        end;
  interm ← match interm_outputs out with
           | Some io => scope_forward Interm (Some kd_temperature) io complete
                          fake_query_labels
           | None => Some []
           end;
  Some (primary ++ aux ++ interm).

End SetCriterion.

(** The distillation calls of a trace. *)
Definition kd_calls {slot} (tr : list (@call slot)) : list (scope * Q) :=
  omap (λ c, match c with CallKD s t => Some (s, t) | _ => None end) tr.



(** How often ['kd'] is listed in [self.losses]. *)
Definition kd_requests (ls : list loss_name) : nat :=
  length (filter (λ l, l = kd_loss) ls).

End Criterion.

Import Criterion.

(** ** The replay cache: [collections.deque] with [maxlen] *)

Module Deque.

Record deque (A : Type) := Deque { maxlen : nat; items : list A }.
Arguments Deque {A} _ _.
Arguments maxlen {A} _.
Arguments items {A} _.

(** [deque(maxlen=n)] *)
Definition empty {A} (n : nat) : deque A := Deque n [].

(** [d.append(x)]: when the deque is full the oldest item is discarded. *)
Definition append {A} (x : A) (d : deque A) : deque A :=
  if (maxlen d =? 0)%nat then d
  else if (length (items d) <? maxlen d)%nat
       then Deque (maxlen d) (items d ++ [x])
       else Deque (maxlen d) (drop 1 (items d) ++ [x]).

(** [d.extend(xs)] *)
Definition extend {A} (xs : list A) (d : deque A) : deque A :=
  foldl (λ d x, append x d) d xs.

(** The newest [n] items of a sequence. *)
Definition newest {A} (n : nat) (l : list A) : list A :=
  drop (length l - n) l.

End Deque.

Import Deque.

(** A cached decoder feature, [med_feats[index][q].tolist()]. *)
Definition feature : Type := list Q.

(** Python indexing [xs[i]]: negative indices count from the end, and
    [None] stands for [IndexError]. *)
Definition py_index {A} (xs : list A) (i : Z) : option A :=
  if 0 <=? i then xs !! Z.to_nat i
  else if - Z.of_nat (length xs) <=? i
       then xs !! Z.to_nat (Z.of_nat (length xs) + i)
       else None.

Module FeatureCache.

Section Writer.
Variable lib_size : nat.
(** [dist.get_world_size()], or 1 without a process group. *)
Variable world_size : nat.

(** The body of the loop over the (query, target) pairs of one match. *)
Definition store_pair (target_labels : list Z) (med_row : list feature)
    (collect : gmap Z (deque feature)) (ql : Z * Z)
  : option (gmap Z (deque feature)) :=
  gt_class ← py_index target_labels ql.2;
  let collect1 :=
    match collect !! gt_class with
    | Some _ => collect
    | None => <[gt_class := Deque.empty (lib_size / world_size)]> collect
    end in
  feat ← py_index med_row ql.1;
  d ← collect1 !! gt_class;
  Some (<[gt_class := append feat d]> collect1).

Fixpoint store_pairs (target_labels : list Z) (med_row : list feature)
    (collect : gmap Z (deque feature)) (qls : list (Z * Z))
  : option (gmap Z (deque feature)) :=
  match qls with
  | [] => Some collect
  | ql :: rest =>
      collect1 ← store_pair target_labels med_row collect ql;
      store_pairs target_labels med_row collect1 rest
  end.

(** The loop [for index, (indice, target) in enumerate(zip(...))]. *)
Fixpoint store_fake_query (index : nat) (med_feats : list (list feature))
    (indices : list indice) (complete_psd_targets : list target)
    (collect : gmap Z (deque feature)) : option (gmap Z (deque feature)) :=
  match indices, complete_psd_targets with
  | ind :: indices', tgt :: targets' =>
      med_row ← med_feats !! index;
      collect1 ← store_pairs (labels tgt) med_row collect (zip ind.1 ind.2);
      store_fake_query (S index) med_feats indices' targets' collect1
  | _, _ => Some collect
  end.

(** [Trainer.after_train] on rank 0: the workers' buffers of one class are
    poured, in rank order, into one deque of [maxlen = LIB_SIZE]. *)
Definition extend_key (combined : gmap Z (deque feature)) (key : Z)
    (deque_value : deque feature) : gmap Z (deque feature) :=
  let d := default (Deque.empty lib_size) (combined !! key) in
  <[key := extend (items deque_value) d]> combined.

Definition combine_gpu (combined gpu_collect : gmap Z (deque feature))
  : gmap Z (deque feature) :=
  map_fold (λ key deque_value acc, extend_key acc key deque_value)
           combined gpu_collect.

Definition combine_collect (gathered_collect : list (gmap Z (deque feature)))
  : gmap Z (deque feature) :=
  foldl combine_gpu ∅ gathered_collect.

End Writer.

(** All the features the workers hold for one class, in rank order. *)
Definition gathered_items (key : Z)
    (gathered_collect : list (gmap Z (deque feature))) : list feature :=
  concat (omap (λ gpu_collect, items <$> gpu_collect !! key) gathered_collect).

(** The state of the merge after the caches [seen]. *)
Definition merged_upto (lib_size : nat) (seen : list (gmap Z (deque feature)))
    (combined : gmap Z (deque feature)) : Prop :=
  ∀ k, match combined !! k with
       | Some d => maxlen d = lib_size ∧ (length (items d) ≤ lib_size)%nat ∧
                   items d = newest lib_size (gathered_items k seen)
       | None => gathered_items k seen = []
       end.


(** [self.collect] at model construction: the file [fake_query.pkl] of the
    previous task when [task > 1] outside collection mode, and an empty
    dictionary otherwise or when the file cannot be read ([None]). *)
Definition initial_collect (task : Z) (collect_query_mode : bool)
    (saved : option (gmap Z (deque feature))) : gmap Z (deque feature) :=
  if (1 <? task) && negb collect_query_mode then default ∅ saved else ∅.

End FeatureCache.

Import FeatureCache.

(** Every buffer of a cache was created with [maxlen = cap] and holds at
    most [cap] features. *)
Definition bounded (cap : nat) (collect : gmap Z (deque feature)) : Prop :=
  ∀ k d, collect !! k = Some d → maxlen d = cap ∧ (length (items d) ≤ cap)%nat.

(** ** [MaskFormer.forward] *)

Module MaskFormer.

(** *** Inference with [psd_label=True]: the old model's predictions *)

(** One query of the old model after the sigmoids: the class
    probabilities [mask_cls_result.sigmoid()], the upsampled mask
    probabilities and the box. *)
Record raw_query := RawQuery {
  q_cls : list Q;
  q_mask : raster Q;
  q_box : box
}.

(** [t.max(-1)] on one row: the maximum and the index where it is first
    reached. *)
Fixpoint max_last_from (best : Q) (best_i i : Z) (l : list Q) : Q * Z :=
  match l with
  | [] => (best, best_i)
  | x :: rest =>
      if Qlt_bool best x then max_last_from x i (i + 1) rest
      else max_last_from best best_i (i + 1) rest
  end.

Definition max_last (l : list Q) : Q * Z :=
  match l with
  | [] => (0%Q, 0)
  | x :: rest => max_last_from x 0 1 rest
  end.

(** Insertion of a (score, index) pair into a list sorted by descending
    score, before the first entry that is not larger. *)
Fixpoint insert_desc (x : Q * nat) (l : list (Q * nat)) : list (Q * nat) :=
  match l with
  | [] => [x]
  | y :: l' =>
      if Qle_bool y.1 x.1 then x :: y :: l' else y :: insert_desc x l'
  end.

(** [scores.argsort(descending=True)]; equal scores stay in index order. *)
Definition argsort_desc (scores : list Q) : list nat :=
  snd <$> foldr insert_desc [] (zip scores (seq 0 (length scores))).

(** [xs[sort]]: indexing by an index tensor. *)
Definition gather {A} (sort : list nat) (xs : list A) : list A :=
  omap (λ i, xs !! i) sort.

Section PsdLabel.
(** [sum(self.sem_seg_head.predictor.n_cls_in_tasks)], the no-object index. *)
Variable n_cls : Z.
Variable psd_label_threshold : Q.
Variable combine_psdlabel : bool.
(** [F.softmax(row / T, dim=-1)] with [T = 0.06]. *)
Variable softmax_T : list Q → list Q.

Definition psd_label_keep (q : raw_query) : bool :=
  let sl := max_last (q_cls q) in
  negb (sl.2 =? n_cls) && Qlt_bool psd_label_threshold sl.1.

(** The dictionary [output_psd_label] built for one image. *)
Definition psd_label_predictions (queries : list raw_query) : prediction :=
  let keep := psd_label_keep <$> queries in
  let sl :=
    if combine_psdlabel
    then (λ q, max_last (q_cls q)) <$> queries
    else (λ q, max_last (softmax_T (q_cls q))) <$> queries in
  let sort := argsort_desc (select keep (fst <$> sl)) in
  {| p_labels := gather sort (select keep (snd <$> sl));
     p_masks := gather sort (select keep (q_mask <$> queries));
     p_scores := gather sort (select keep (fst <$> sl));
     p_boxes := gather sort (select keep (q_box <$> queries)) |}.

End PsdLabel.

(** *** Training: losses, then the replay-cache writer *)

Section Training.
Context {slot : Type}.
Variables H W : nat.
Variable psd_overlap_threshold : float.
Variable combine_psdlabel : bool.
Variable mask_boxes : list (raster bool) → nat * nat → list box.
Variable current_catagory_ids : list Z.
Variable vq_number : nat.
Variable kd_temperature kd_temperature2 : Q.
Variable kd_decoder : bool.
Variable losses : list loss_name.
Variable matcher : gmap string (list slot) → list target → list indice.
Variable lib_size world_size : nat.




End Training.

End MaskFormer.

Import MaskFormer.

(** ** Data of the worked examples *)

Definition example_gt : target :=
  {| labels := [5]; masks := [[[true; false]]]; boxes := [(0, 0, 0, 0)%Q] |}.
Definition example_psd : target :=
  {| labels := [1]; masks := [[[false; true]]]; boxes := [(0, 0, 0, 0)%Q] |}.

Definition example_outputs : @outputs nat :=
  {| preds := {[ "pred_logits" := seq 0 103 ]};
     aux_outputs := Some [ {[ "pred_logits" := seq 0 103 ]} ];
     interm_outputs := Some {[ "pred_logits" := seq 0 100 ]} |}.

Definition example_matcher
  : gmap string (list nat) → list target → list indice :=
  λ _ tgts, (λ t, ([0], [0])) <$> tgts.


Definition example_old_pred : prediction :=
  {| p_labels := [1]; p_masks := [[[9 # 10; 9 # 10]%Q]];
     p_scores := [(4 # 5)%Q]; p_boxes := [(0, 0, 0, 0)%Q] |}.


(** Two workers, each storing two features of class 7 in one step, with
    [lib_size = 4] and [world_size = 2]. *)
Definition example_worker (a b : Q) : option (gmap Z (deque feature)) :=
  store_fake_query 4 2 0 [[[a]; [b]]] [([0; 1], [0; 1])]
    [ {| labels := [7; 7]; masks := []; boxes := [] |} ] ∅.

(** A query of the old model whose best class probability is 0.2. *)
Definition example_low_query : raw_query :=
  {| q_cls := [1 # 5; 1 # 10]%Q; q_mask := [[9 # 10; 9 # 10]%Q];
     q_box := (0, 0, 0, 0)%Q |}.

(** Three old-model predictions on a 1 x 3 canvas, the first and the last
    of class 3, each owning one pixel; no ground truth. *)
Definition example_three_pred : prediction :=
  {| p_labels := [3; 1; 3];
     p_masks := [ [[9 # 10; 1 # 10; 1 # 10]%Q];
                  [[1 # 10; 9 # 10; 1 # 10]%Q];
                  [[1 # 10; 1 # 10; 9 # 10]%Q] ];
     p_scores := [4 # 5; 4 # 5; 4 # 5]%Q;
     p_boxes := [(0, 0, 0, 0); (0, 0, 0, 0); (0, 0, 0, 0)]%Q |}.

Definition example_no_gt : target :=
  {| labels := []; masks := []; boxes := [] |}.

(** Its pseudo target with [combine_psdlabel]: one unioned mask per class. *)
Definition example_combined_psd : target :=
  {| labels := [1; 3];
     masks := [ [[false; true; false]]; [[true; false; true]] ];
     boxes := [(0, 0, 0, 0); (0, 0, 0, 0)]%Q |}.

(** ** More of [SetCriterion]: index bookkeeping and the label targets *)

Module Losses.

(** The two [torch.cat] of [_get_src_permutation_idx], over the chosen
    side of every match; [i] is the image index [enumerate] has reached. *)
Fixpoint permutation_idx_from (i : nat) (parts : list (list Z))
  : list Z * list Z :=
  match parts with
  | [] => ([], [])
  | part :: rest =>
      let '(batch_idx, idx) := permutation_idx_from (S i) rest in
      (((λ _, Z.of_nat i) <$> part) ++ batch_idx, part ++ idx)
  end.

(** [None] stands for the [RuntimeError] of [torch.cat] on an empty list
    of tensors (an empty batch). *)
Definition _get_src_permutation_idx (indices : list indice)
  : option (list Z * list Z) :=
  match indices with
  | [] => None
  | _ => Some (permutation_idx_from 0 (fst <$> indices))
  end.

Definition _get_tgt_permutation_idx (indices : list indice)
  : option (list Z * list Z) :=
  match indices with
  | [] => None
  | _ => Some (permutation_idx_from 0 (snd <$> indices))
  end.

(** [xs[i] = v] with Python indexing; [None] stands for [IndexError]. *)
Definition py_set {A} (xs : list A) (i : Z) (v : A) : option (list A) :=
  if 0 <=? i then
    if (Z.to_nat i <? length xs)%nat then Some (<[Z.to_nat i := v]> xs)
    else None
  else if - Z.of_nat (length xs) <=? i
       then Some (<[Z.to_nat (Z.of_nat (length xs) + i) := v]> xs)
       else None.

(** [t[J]] for an index tensor [J]. *)
Definition py_gather {A} (xs : list A) (J : list Z) : option (list A) :=
  mapM (py_index xs) J.

(** [torch.cat([t["labels"][J] for t, (_, J) in zip(targets, indices)])];
    zip stops at the shorter list. *)
Fixpoint target_classes_o (targets : list target) (indices : list indice)
  : option (list Z) :=
  match targets, indices with
  | t :: targets', ind :: indices' =>
      here ← py_gather (labels t) ind.2;
      rest ← target_classes_o targets' indices';
      Some (here ++ rest)
  | _, _ => Some []
  end.

(** The assignments [target_classes[b][s] = v] of one indexed write, made
    in order over index and value tensors of one length (for a cell that is
    indexed twice the last value is the one kept here). *)
Fixpoint index_put_each (target_classes : list (list Z))
    (batch_idx src_idx values : list Z) : option (list (list Z)) :=
  match batch_idx, src_idx, values with
  | b :: bs, s :: ss, v :: vs =>
      row ← py_index target_classes b;
      row1 ← py_set row s v;
      tc1 ← py_set target_classes b row1;
      index_put_each tc1 bs ss vs
  | [], [], [] => Some target_classes
  | _, _, _ => None
  end.

(** Broadcasting of a one-dimensional tensor to length [n]: a tensor of
    that length is taken as it is, a single entry is repeated, anything
    else is a shape error. *)
Definition expand {A} (n : nat) (xs : list A) : option (list A) :=
  if (length xs =? n)%nat then Some xs
  else match xs with
       | [x] => Some (replicate n x)
       | _ => None
       end.

(** [target_classes[idx] = values] for [idx = (batch_idx, src_idx)]: the
    two index tensors are broadcast against each other and the values to
    their common length.  [None] stands for the shape or index error. *)
Definition index_put (target_classes : list (list Z))
    (batch_idx src_idx values : list Z) : option (list (list Z)) :=
  let n := if (length batch_idx =? 1)%nat then length src_idx
           else length batch_idx in
  bs ← expand n batch_idx;
  ss ← expand n src_idx;
  vs ← expand n values;
  index_put_each target_classes bs ss vs.

Section Labels.
(** [self.num_classes], the index standing for "no object". *)
Variable num_classes : Z.

(** [target_classes] of [loss_labels] for logits of shape [B x Q x C]. *)
Definition target_classes (B Q : nat) (targets : list target)
    (indices : list indice) : option (list (list Z)) :=
  idx ← _get_src_permutation_idx indices;
  values ← target_classes_o targets indices;
  index_put (replicate B (replicate Q num_classes)) idx.1 idx.2 values.

(** One row of [target_classes_onehot] after the last column is dropped:
    [scatter_] writes a 1 at column [c] of a row of [C + 1] zeros and fails
    (the [ValueError] of the source) when [c] is not a column. *)
Definition onehot_row (C : nat) (c : Z) : option (list Z) :=
  if (0 <=? c) && (c <=? Z.of_nat C)
  then Some (take C (<[Z.to_nat c := 1]> (replicate (S C) 0)))
  else None.

Definition target_classes_onehot (B Q C : nat) (targets : list target)
    (indices : list indice) : option (list (list (list Z))) :=
  tc ← target_classes B Q targets indices;
  mapM (mapM (onehot_row C)) tc.
End Labels.

End Losses.

Import Losses.

(** ** [dice_loss] *)

Module Dice.

Definition Qsum (l : list Q) : Q := foldr Qplus 0%Q l.

Section DiceLoss.
(** The logistic function of [inputs.sigmoid()]. *)
Variable sigmoid : Q → Q.

(** The term of one mask: [1 - (numerator + 1) / (denominator + 1)]. *)
Definition dice_term (inputs targets : list Q) : Q :=
  let inputs := sigmoid <$> inputs in
  let numerator := (2 * Qsum (zip_with Qmult inputs targets))%Q in
  let denominator := (Qsum inputs + Qsum targets)%Q in
  (1 - (numerator + 1) / (denominator + 1))%Q.

(** [dice_loss(inputs, targets, num_masks)] for [inputs] and [targets] of
    shape [N x P]. *)
Definition dice_loss (inputs targets : list (list Q)) (num_masks : Q) : Q :=
  (Qsum (zip_with dice_term inputs targets) / num_masks)%Q.
End DiceLoss.

End Dice.

Import Dice.

(** ** Configuration: class ranges, loss list, task directories *)

Module Config.

(** [l[:k]], with a negative [k] counting from the end. *)
Definition py_slice_to {A} (l : list A) (k : Z) : list A :=
  if 0 <=? k then take (Z.to_nat k) l
  else take (Z.to_nat (Z.of_nat (length l) + k)) l.

Definition sumZ (l : list Z) : Z := foldr Z.add 0 l.

(** [list(range(a, b))] *)
Definition range (a b : Z) : list Z := seqZ a (b - a).

(** The [cfg.CONT] entries [from_config] reads. *)
Record cont := Cont {
  TOT_CLS : Z;
  BASE_CLS : Z;
  INC_CLS : Z;
  TASK : Z;
  OLD_MODEL : bool;
  KL_WEIGHT : Q
}.

(** [None] stands for the [ZeroDivisionError] of [// cfg.CONT.INC_CLS]. *)
Definition n_cls_in_tasks (c : cont) : option (list Z) :=
  if INC_CLS c =? 0 then None
  else
    let num_tasks := 1 + (TOT_CLS c - BASE_CLS c) / INC_CLS c in
    Some ([BASE_CLS c] ++ replicate (Z.to_nat (num_tasks - 1)) (INC_CLS c)).

Definition config_current_catagory_ids (c : cont) : option (list Z) :=
  n ← n_cls_in_tasks c;
  Some (range (sumZ (py_slice_to n (TASK c - 1)))
              (sumZ (py_slice_to n (TASK c)))).

Definition config_losses (c : cont) : list loss_name :=
  if (1 <? TASK c) && OLD_MODEL c && Qlt_bool 0 (KL_WEIGHT c)
  then [labels_loss; masks_loss; points_loss; kd_loss]
  else [labels_loss; masks_loss; points_loss].

(** [s[:-n]] for a positive [n]. *)
Definition drop_last (n : nat) (s : string) : string :=
  String.substring 0 (String.length s - n) s.

(** The directory of the previous task, as [MaskFormer.__init__], the
    decoder and [Trainer.__init__] derive it from the output directory. *)
Definition previous_task_dir (output_dir : string) (task : Z) : string :=
  if task <? 10
  then drop_last 1 output_dir +:+ pretty (task - 1)
  else drop_last 2 output_dir +:+ pretty (task - 1).

(** [old_root] of [Trainer.after_train]. *)
Definition after_train_old_root (root : string) (task : Z) : string :=
  drop_last 1 root +:+ pretty (task - 1).

End Config.

Import Config.

(** ** More of [MaskFormer]: targets, histogram of pseudo labels *)

Module Targets.

(** The ground truth of one image: [gt_classes], the tensor [gt_masks] of
    shape [N x gt_masks_shape.1 x gt_masks_shape.2] as the list of its [N]
    rasters, and [gt_boxes] in corner format, with [image_size = (h, w)]. *)
Record instances := Instances {
  image_size : nat * nat;
  gt_classes : list Z;
  gt_masks : list (raster bool);
  gt_masks_shape : nat * nat;
  gt_boxes : list box
}.

(** Whether a source extent [n] can be assigned to the slice [: n] of a
    dimension of size [n_pad]: the slice has [min n n_pad] entries, and a
    source of another extent is only accepted when it is 1 and
    broadcasts. *)
Definition fits (n n_pad : nat) : bool :=
  (n <=? n_pad)%nat || ((n =? 1)%nat && (n_pad =? 0)%nat).

(** One slice of [padded_masks] after
    [padded_masks[:, : gt_masks.shape[1], : gt_masks.shape[2]] = gt_masks]:
    a canvas of zeros whose pixels inside the mask shape are the mask's. *)
Definition pad_mask (h_pad w_pad : nat) (shape : nat * nat) (m : raster bool)
  : raster bool :=
  imap (λ i zrow,
          imap (λ j z,
                  if (i <? shape.1)%nat && (j <? shape.2)%nat
                  then default z (pix m i j) else z) zrow)
       (replicate h_pad (replicate w_pad false)).

(** [None] stands for the shape error of the slice assignment, raised
    whatever the number of masks. *)
Definition padded_masks (h_pad w_pad : nat) (x : instances)
  : option (list (raster bool)) :=
  if fits (gt_masks_shape x).1 h_pad && fits (gt_masks_shape x).2 w_pad
  then Some (pad_mask h_pad w_pad (gt_masks_shape x) <$> gt_masks x)
  else None.

Section Prepare.
(** [box_ops.box_xyxy_to_cxcywh], not part of these sources. *)
Variable box_xyxy_to_cxcywh : box → box.

(** Division by [image_size_xyxy = (w, h, w, h)]. *)
Definition normalise_box (hw : nat * nat) (b : box) : box :=
  let '(x, y, bw, bh) := b in
  let w := inject_Z (Z.of_nat hw.2) in
  let h := inject_Z (Z.of_nat hw.1) in
  (x / w, y / h, bw / w, bh / h)%Q.

Definition prepare_target (h_pad w_pad : nat) (x : instances)
  : option target :=
  padded ← padded_masks h_pad w_pad x;
  Some {| labels := gt_classes x;
          masks := padded;
          boxes := (λ b, normalise_box (image_size x) (box_xyxy_to_cxcywh b))
                     <$> gt_boxes x |}.

(** [prepare_targets(targets, images)] with [images.tensor] of height
    [h_pad] and width [w_pad]. *)
Definition prepare_targets (h_pad w_pad : nat) (targets : list instances)
  : option (list target) :=
  mapM (prepare_target h_pad w_pad) targets.
End Prepare.

End Targets.

Import Targets.

Module Histogram.

(** [self.psd_num[i] += 1]; [None] stands for [IndexError]. *)
Definition count_label (psd_num : list Z) (i : Z) : option (list Z) :=
  n ← py_index psd_num i;
  py_set psd_num i (n + 1).

Fixpoint count_labels (psd_num : list Z) (ls : list Z) : option (list Z) :=
  match ls with
  | [] => Some psd_num
  | i :: ls' => psd_num1 ← count_label psd_num i; count_labels psd_num1 ls'
  end.

(** The loop over [psd_targets] of the collection mode. *)
Fixpoint collect_psd_num (psd_num : list Z) (psd_targets : list target)
  : option (list Z) :=
  match psd_targets with
  | [] => Some psd_num
  | t :: rest =>
      psd_num1 ← count_labels psd_num (labels t);
      collect_psd_num psd_num1 rest
  end.

(** How often class [c] occurs among the labels [ls]. *)
Definition occurrences (c : nat) (ls : list Z) : Z :=
  Z.of_nat (length (filter (λ l, l = Z.of_nat c) ls)).

End Histogram.

Import Histogram.

(** ** Data of further worked examples *)

(** A 1 x 2 image with one mask, padded below to a 2 x 3 canvas. *)
Definition example_instances : instances :=
  {| image_size := (1, 2)%nat; gt_classes := [5];
     gt_masks := [[[true; false]]]; gt_masks_shape := (1, 2)%nat;
     gt_boxes := [(0, 0, 1, 1)%Q] |}.

(** ** [MaskFormer.panoptic_inference] *)

Module Panoptic.
Import MaskFormer PsdGenerator.

(** One dictionary of [segments_info]. *)
Record segment_info := SegmentInfo {
  seg_id : Z;
  seg_isthing : bool;
  seg_category_id : Z
}.

(** The variables the loop over the kept queries updates. *)
Record pan_state := PanState {
  panoptic_seg : raster Z;
  segments_info : list segment_info;
  current_segment_id : Z;
  stuff_memory_list : gmap Z Z
}.

(** [seg[mask] = v] *)
Definition assign (mask : raster bool) (v : Z) (seg : raster Z) : raster Z :=
  rzip (λ (m : bool) p, if m then v else p) mask seg.

Section Inference.
(** [self.sem_seg_head.num_classes], the no-object index. *)
Variable num_classes : Z.
Variables object_mask_threshold overlap_threshold : Q.
(** [c in self.metadata.thing_dataset_id_to_contiguous_id.values()] *)
Variable thing : Z → bool.
(** [F.softmax(row / T, dim=-1)] with [T = 0.06]. *)
Variable softmax_T : list Q → list Q.

Definition panoptic_keep (q : raw_query) : bool :=
  let sl := max_last (q_cls q) in
  negb (sl.2 =? num_classes) && Qlt_bool object_mask_threshold sl.1.

(** The segment opened for query [k]: the counter is incremented and the
    pixels of [mask] take the new id. *)
Definition open_segment (mask : raster bool) (pred_class : Z)
    (memory : gmap Z Z) (st : pan_state) : pan_state :=
  let id := current_segment_id st + 1 in
  {| panoptic_seg := assign mask id (panoptic_seg st);
     segments_info :=
       segments_info st ++
       [{| seg_id := id; seg_isthing := thing pred_class;
           seg_category_id := pred_class |}];
     current_segment_id := id;
     stuff_memory_list := memory |}.

(** The body of [for k in range(cur_classes.shape[0])]. *)
Definition panoptic_step (ids : raster nat) (st : pan_state) (k : nat)
    (pred_class : Z) (m : raster Q) : pan_state :=
  let isthing := thing pred_class in
  let mask_area := area (rmap (λ id, id =? k)%nat ids) in
  let original_area := area (binarize m) in
  let mask := logical_and (rmap (λ id, id =? k)%nat ids) (binarize m) in
  if (0 <? mask_area) && (0 <? original_area) && (0 <? area mask) then
    if Qlt_bool (inject_Z mask_area / inject_Z original_area) overlap_threshold
    then st
    else if negb isthing then
      match stuff_memory_list st !! pred_class with
      | Some sid =>
          {| panoptic_seg := assign mask sid (panoptic_seg st);
             segments_info := segments_info st;
             current_segment_id := current_segment_id st;
             stuff_memory_list := stuff_memory_list st |}
      | None =>
          open_segment mask pred_class
            (<[pred_class := current_segment_id st + 1]> (stuff_memory_list st))
            st
      end
    else open_segment mask pred_class (stuff_memory_list st) st
  else st.

Fixpoint panoptic_loop (ids : raster nat) (st : pan_state) (k : nat)
    (cur_classes : list Z) (cur_masks : list (raster Q)) : pan_state :=
  match cur_classes, cur_masks with
  | pred_class :: classes', m :: masks' =>
      panoptic_loop ids (panoptic_step ids st k pred_class m) (S k)
        classes' masks'
  | _, _ => st
  end.

(** [panoptic_inference(mask_cls, mask_pred)] for one image whose mask
    predictions are [h x w]; the queries carry the sigmoids of
    [mask_cls] and [mask_pred]. *)
Definition panoptic_inference (h w : nat) (queries : list raw_query)
  : raster Z * list segment_info :=
  let keep := panoptic_keep <$> queries in
  let sl := (λ q, max_last (softmax_T (q_cls q))) <$> queries in
  let cur_scores := select keep (fst <$> sl) in
  let cur_classes := select keep (snd <$> sl) in
  let cur_masks := select keep (q_mask <$> queries) in
  let st0 :=
    {| panoptic_seg := zeros h w; segments_info := [];
       current_segment_id := 0; stuff_memory_list := ∅ |} in
  match cur_masks with
  | [] => (panoptic_seg st0, segments_info st0)
  | _ =>
      let cur_mask_ids := mask_ids cur_scores cur_masks in
      let st := panoptic_loop cur_mask_ids st0 0 cur_classes cur_masks in
      (panoptic_seg st, segments_info st)
  end.

(** What the loop maintains between two iterations. *)
Definition pan_inv (st : pan_state) : Prop :=
  current_segment_id st = Z.of_nat (length (segments_info st)) ∧
  seg_id <$> segments_info st
    = seqZ 1 (Z.of_nat (length (segments_info st))) ∧
  (∀ s, s ∈ segments_info st → seg_isthing s = thing (seg_category_id s)) ∧
  (∀ c sid, stuff_memory_list st !! c = Some sid →
     1 ≤ sid ≤ current_segment_id st) ∧
  (∀ s, s ∈ segments_info st → seg_isthing s = false →
     is_Some (stuff_memory_list st !! seg_category_id s)) ∧
  NoDup (seg_category_id <$>
           filter (λ s, seg_isthing s = false) (segments_info st)) ∧
  (∀ i j v, pix (panoptic_seg st) i j = Some v →
     0 ≤ v ≤ current_segment_id st).

End Inference.

End Panoptic.

(** Two queries of the stuff class 1 and one of the thing class 0, on a
    [1 x 3] image; 2 is the no-object index. *)
Definition example_pan_queries : list MaskFormer.raw_query :=
  [ {| MaskFormer.q_cls := [0; 9 # 10; 0]%Q;
       MaskFormer.q_mask := [[9 # 10; 0; 0]]%Q;
       MaskFormer.q_box := (0, 0, 0, 0)%Q |};
    {| MaskFormer.q_cls := [8 # 10; 0; 0]%Q;
       MaskFormer.q_mask := [[0; 9 # 10; 0]]%Q;
       MaskFormer.q_box := (0, 0, 0, 0)%Q |};
    {| MaskFormer.q_cls := [0; 7 # 10; 0]%Q;
       MaskFormer.q_mask := [[0; 0; 9 # 10]]%Q;
       MaskFormer.q_box := (0, 0, 0, 0)%Q |} ].
(** ** Pixel-level facts about rasters *)

Section RasterFacts.
Context {A B C : Type}.

Lemma pix_rmap (f : A → B) (r : raster A) i j :
  pix (rmap f r) i j = f <$> pix r i j.
Proof.
  unfold pix, rmap. rewrite list_lookup_fmap.
  destruct (r !! i) as [row|]; simpl; [|done].
  by rewrite list_lookup_fmap.
Qed.

Lemma pix_rzip (f : A → B → C) (a : raster A) (b : raster B) i j :
  pix (rzip f a b) i j =
    pix a i j ≫= λ x, pix b i j ≫= λ y, Some (f x y).
Proof.
  unfold pix, rzip. rewrite lookup_zip_with.
  destruct (a !! i) as [ra|]; simpl; [|done].
  destruct (b !! i) as [rb|]; simpl.
  - rewrite lookup_zip_with. by destruct (ra !! j).
  - by destruct (ra !! j).
Qed.

Lemma elem_of_select (keep : list bool) (xs : list A) x :
  x ∈ select keep xs → x ∈ xs.
Proof.
  revert xs. induction keep as [|k keep IH]; intros [|y xs]; simpl;
    try (by intros ?%elem_of_nil).
  destruct k.
  - intros [->|?]%elem_of_cons; [left|right; auto].
  - intros ?. right; auto.
Qed.
End RasterFacts.

Lemma pix_zeros h w i j a : pix (zeros h w) i j = Some a → a = 0.
Proof.
  unfold pix, zeros. intros Hp.
  destruct (replicate h (replicate w 0) !! i) as [row|] eqn:Hr; simpl in Hp;
    [|done].
  apply lookup_replicate in Hr as [-> _].
  by apply lookup_replicate in Hp as [-> _].
Qed.

(** A pixel of a sum over the first dimension is non-zero only where one
    of the summands is. *)
Lemma pix_foldl_add_nonzero (ts : list (raster Z)) : ∀ acc i j z,
  pix (foldl (rzip Z.add) acc ts) i j = Some z → z ≠ 0 →
  (∃ a, pix acc i j = Some a ∧ a ≠ 0) ∨
  (∃ t v, t ∈ ts ∧ pix t i j = Some v ∧ v ≠ 0).
Proof.
  induction ts as [|t ts IH]; intros acc i j z Hz Hne; simpl in Hz.
  - left. eauto.
  - destruct (IH _ _ _ _ Hz Hne) as [(a & Ha & Hane)|(t' & v & Hin & Hv & Hvne)].
    + rewrite pix_rzip in Ha.
      destruct (pix acc i j) as [x|] eqn:Hx; simpl in Ha; [|done].
      destruct (pix t i j) as [y|] eqn:Hy; simpl in Ha; [|done].
      injection Ha as <-.
      destruct (decide (x = 0)) as [->|Hx0].
      * right. exists t, y. split; [left|]. split; [done|lia].
      * left. eauto.
    + right. exists t', v. split; [by right|done].
Qed.

Lemma pix_sum0_nonzero h w (ts : list (raster Z)) i j z :
  pix (sum0 h w ts) i j = Some z → z ≠ 0 →
  ∃ t v, t ∈ ts ∧ pix t i j = Some v ∧ v ≠ 0.
Proof.
  intros Hz Hne.
  destruct (pix_foldl_add_nonzero ts _ _ _ _ Hz Hne)
    as [(a & Ha & Hane)|?]; [|done].
  by apply pix_zeros in Ha.
Qed.

Lemma area_nonneg (m : raster bool) : 0 ≤ area m.
Proof.
  induction m as [|row m IH]; [done|].
  change (area (row :: m)) with (foldr (λ b n, bool_to_Z b + n) 0 row + area m).
  assert (0 ≤ foldr (λ b n, bool_to_Z b + n) 0 row); [|lia].
  clear. induction row as [|[] row IHr]; simpl; lia.
Qed.

(** A mask without a set pixel has area zero. *)
Lemma area_all_zero (m : raster bool) :
  (∀ i j, pix m i j ≠ Some true) → area m = 0.
Proof.
  induction m as [|row m IH]; intros Hm; [done|].
  change (area (row :: m)) with (foldr (λ b n, bool_to_Z b + n) 0 row + area m).
  assert (foldr (λ b n, bool_to_Z b + n) 0 row = 0) as ->.
  { assert (∀ j, row !! j ≠ Some true) as Hrow by (intros j; apply (Hm 0%nat j)).
    clear -Hrow. induction row as [|b row IHr]; simpl; [done|].
    rewrite IHr; [|intros j; apply (Hrow (S j))].
    destruct b; [|done]. by specialize (Hrow 0%nat). }
  rewrite IH; [done|]. intros i j. apply (Hm (S i) j).
Qed.

Lemma pix_logical_and_true (a b : raster bool) i j :
  pix (logical_and a b) i j = Some true →
  pix a i j = Some true ∧ pix b i j = Some true.
Proof.
  unfold logical_and. rewrite pix_rzip.
  destruct (pix a i j) as [[]|], (pix b i j) as [[]|]; simpl; naive_solver.
Qed.



(** *** A sum over well-shaped rasters dominates each summand *)

Lemma pix_is_Some_shape {A} h w (r : raster A) i j :
  has_shape h w r → is_Some (pix r i j) ↔ (i < h)%nat ∧ (j < w)%nat.
Proof.
  intros [Hh Hw]. unfold pix. split.
  - intros [a Ha]. destruct (r !! i) as [row|] eqn:Hrow; simpl in Ha; [|done].
    split.
    + rewrite <- Hh. by eapply lookup_lt_Some.
    + rewrite Forall_lookup in Hw. rewrite <- (Hw _ _ Hrow).
      by eapply lookup_lt_Some.
  - intros [Hi Hj]. destruct (lookup_lt_is_Some_2 r i) as [row Hrow]; [lia|].
    rewrite Hrow. simpl. apply lookup_lt_is_Some_2.
    rewrite Forall_lookup in Hw. by rewrite (Hw _ _ Hrow).
Qed.

Lemma has_shape_rzip {A B C} (f : A → B → C) h w a b :
  has_shape h w a → has_shape h w b → has_shape h w (rzip f a b).
Proof.
  intros [Ha Hwa] [Hb Hwb]. unfold rzip. split.
  - rewrite length_zip_with. lia.
  - rewrite Forall_lookup in Hwa. rewrite Forall_lookup in Hwb.
    apply Forall_lookup. intros i row.
    rewrite lookup_zip_with.
    destruct (a !! i) as [ra|] eqn:Hra; simpl; [|done].
    destruct (b !! i) as [rb|] eqn:Hrb; simpl; [|done].
    intros [= <-]. rewrite length_zip_with, (Hwa _ _ Hra), (Hwb _ _ Hrb). lia.
Qed.

Lemma has_shape_rmap {A B} (f : A → B) h w r :
  has_shape h w r → has_shape h w (rmap f r).
Proof.
  intros [Hh Hw]. unfold rmap. split; [by rewrite length_fmap|].
  apply Forall_fmap. eapply Forall_impl; [exact Hw|].
  intros row Hrow. simpl. by rewrite length_fmap.
Qed.

Lemma has_shape_zeros h w : has_shape h w (zeros h w).
Proof.
  unfold zeros. split; [by rewrite length_replicate|].
  apply Forall_replicate. by rewrite length_replicate.
Qed.

Lemma foldl_add_covers h w (ts : list (raster Z)) : ∀ acc,
  has_shape h w acc → nonneg acc →
  (∀ t, t ∈ ts → has_shape h w t ∧ nonneg t) →
  (∀ i j a, pix acc i j = Some a →
     ∃ z, pix (foldl (rzip Z.add) acc ts) i j = Some z ∧ a ≤ z) ∧
  (∀ t i j v, t ∈ ts → pix t i j = Some v →
     ∃ z, pix (foldl (rzip Z.add) acc ts) i j = Some z ∧ v ≤ z).
Proof.
  induction ts as [|t ts IH]; intros acc Hs Hn Hts; simpl.
  - split; [eauto with lia|]. by intros t i j v ?%elem_of_nil.
  - destruct (Hts t) as [Hst Hnt]; [left|].
    assert (has_shape h w (rzip Z.add acc t)) as Hs' by by apply has_shape_rzip.
    assert (nonneg (rzip Z.add acc t)) as Hn'.
    { intros i j a. rewrite pix_rzip.
      destruct (pix acc i j) as [x|] eqn:Hx; simpl; [|done].
      destruct (pix t i j) as [y|] eqn:Hy; simpl; [|done].
      intros [= <-]. specialize (Hn _ _ _ Hx). specialize (Hnt _ _ _ Hy). lia. }
    destruct (IH (rzip Z.add acc t) Hs' Hn') as [IHacc IHts].
    { intros t' Ht'. apply Hts. by right. }
    split.
    + intros i j a Ha.
      destruct (proj1 (pix_is_Some_shape h w acc i j Hs)) as [Hi Hj]; [eauto|].
      destruct (proj2 (pix_is_Some_shape h w t i j Hst)) as [y Hy]; [done|].
      destruct (IHacc i j (a + y)) as (z & Hz & Hle).
      { by rewrite pix_rzip, Ha, Hy. }
      exists z. split; [done|]. specialize (Hnt _ _ _ Hy). lia.
    + intros t' i j v [->|Hin]%elem_of_cons Hv; [|by eapply IHts].
      destruct (proj1 (pix_is_Some_shape h w t i j Hst)) as [Hi Hj]; [eauto|].
      destruct (proj2 (pix_is_Some_shape h w acc i j Hs)) as [x Hx]; [done|].
      destruct (IHacc i j (x + v)) as (z & Hz & Hle).
      { by rewrite pix_rzip, Hx, Hv. }
      exists z. split; [done|]. specialize (Hn _ _ _ Hx). lia.
Qed.

Lemma sum0_covers h w (ts : list (raster Z)) t i j v :
  (∀ t, t ∈ ts → has_shape h w t ∧ nonneg t) →
  t ∈ ts → pix t i j = Some v →
  ∃ z, pix (sum0 h w ts) i j = Some z ∧ v ≤ z.
Proof.
  intros Hts Ht Hv. unfold sum0.
  destruct (foldl_add_covers h w ts (zeros h w)) as [_ Hcov]; [| |done|].
  - apply has_shape_zeros.
  - intros a b c Hc. apply pix_zeros in Hc. lia.
  - by eapply Hcov.
Qed.

(** ** Pseudo masks never touch the ground-truth region *)

Section Disjointness.
Variables H W : nat.

Lemma non_ol_masks_off_region gt_masks old_scores old_masks m i j :
  m ∈ non_ol_masks H W gt_masks old_scores old_masks →
  pix m i j = Some true →
  pix (gt_region H W gt_masks) i j = Some 0.
Proof.
  unfold non_ol_masks. intros (m0 & -> & _)%list_elem_of_fmap Hp.
  apply pix_logical_and_true in Hp as [_ Hp].
  unfold logical_not in Hp. rewrite pix_rmap in Hp.
  destruct (pix (gt_region H W gt_masks) i j) as [z|]; simpl in Hp; [|done].
  injection Hp as Hz. f_equal. lia.
Qed.

(** A set pixel of a per-class union comes from one of the surviving
    masks of that class. *)
Lemma label_mask_from_member psd_labels select_masks label i j :
  pix (label_mask H W psd_labels select_masks label) i j = Some true →
  ∃ m, m ∈ select_masks ∧ pix m i j = Some true.
Proof.
  unfold label_mask. rewrite !pix_rmap. intros Hp.
  destruct (pix (sum0 _ _ _) i j) as [z|] eqn:Hz; simpl in Hp; [|done].
  assert (z ≠ 0) as Hne.
  { intros ->. by vm_compute in Hp. }
  destruct (pix_sum0_nonzero _ _ _ _ _ _ Hz Hne) as (t & v & Ht & Hv & Hvne).
  apply list_elem_of_fmap in Ht as (m & -> & Hm).
  exists m. split; [by eapply elem_of_select|].
  rewrite pix_rmap in Hv.
  destruct (pix m i j) as [[]|]; simpl in Hv; [done| |done].
  injection Hv as <-. done.
Qed.

Lemma generate_psd_image_masks_off_region thr combine mask_boxes sz
    gt_target old_pred strict_mode m i j :
  m ∈ masks (generate_psd_image H W thr combine mask_boxes sz gt_target
               old_pred strict_mode).1 →
  pix m i j = Some true →
  pix (gt_region H W (masks gt_target)) i j = Some 0.
Proof.
  unfold generate_psd_image.
  set (c := candidates strict_mode old_pred).
  destruct (length (p_masks c) =? 0)%nat eqn:Hlen; cbn [fst masks].
  - apply Nat.eqb_eq, nil_length_inv in Hlen. rewrite Hlen.
    by intros ?%elem_of_nil.
  - destruct combine; cbn [fst masks].
    + match goal with |- context [(0 <? ?n)%nat] =>
        destruct (0 <? n)%nat end; cbn [fst masks];
        [|by intros ?%elem_of_nil].
      intros (label & -> & _)%list_elem_of_fmap Hp.
      apply label_mask_from_member in Hp as (m & Hm & Hp).
      apply elem_of_select in Hm. by eapply non_ol_masks_off_region.
    + intros Hm%elem_of_select Hp. by eapply non_ol_masks_off_region.
Qed.

Lemma generate_psd_targets_lookup thr combine mask_boxes gt_targets :
  ∀ old_preds gt_instances strict_mode i p,
  (generate_psd_targets H W thr combine mask_boxes gt_targets old_preds
     gt_instances strict_mode).1 !! i = Some p →
  ∃ g o sz, gt_targets !! i = Some g ∧ old_preds !! i = Some o ∧
    p = (generate_psd_image H W thr combine mask_boxes sz g o strict_mode).1.
Proof.
  induction gt_targets as [|g gts IH]; intros [|o ops] insts strict i p;
    simpl; try done.
  destruct (generate_psd_image _ _ _ _ _ _ g o strict) as [p0 o0] eqn:Himg.
  destruct (generate_psd_targets _ _ _ _ _ gts ops _ strict) as [ps os]
    eqn:Hrec.
  destruct i as [|i]; simpl.
  - intros [= <-]. exists g, o, (default (0%nat, 0%nat) (head insts)).
    by rewrite Himg.
  - intros Hp. apply (IH ops (tail insts) strict i p). by rewrite Hrec.
Qed.

(** The region tensor is set wherever one of the (well-shaped) target
    masks is. *)
Lemma gt_region_covers gt_masks g i j :
  Forall (has_shape H W) gt_masks → g ∈ gt_masks →
  pix g i j = Some true →
  pix (gt_region H W gt_masks) i j = Some 1.
Proof.
  intros Hshape Hg Hp. unfold gt_region. rewrite pix_rmap.
  destruct (sum0_covers H W (rmap bool_to_Z <$> gt_masks)
              (rmap bool_to_Z g) i j 1) as (z & Hz & Hle).
  - intros t (g' & -> & Hg')%list_elem_of_fmap. split.
    + apply has_shape_rmap. rewrite Forall_forall in Hshape. by apply Hshape.
    + intros a b c. rewrite pix_rmap.
      destruct (pix g' a b) as [[]|]; simpl; intros [= <-]; done.
  - by apply list_elem_of_fmap_2.
  - by rewrite pix_rmap, Hp.
  - rewrite Hz. simpl. f_equal. unfold clamp. lia.
Qed.
End Disjointness.

(** C1. Every mask of every pseudo-target emitted by
    [generate_psd_targets] is pixel-wise disjoint from the ground-truth
    region of the same image (the clamped sum of its target masks): the AND
    of the two has no set pixel, so its area is zero.  This holds in the
    per-prediction mode and in the [combine_psdlabel] per-class-union mode,
    strict or not. *)
Theorem psd_masks_disjoint_from_gt_region
    (H W : nat) (psd_overlap_threshold : float) (combine_psdlabel : bool)
    (mask_boxes : list (raster bool) → nat * nat → list box)
    (gt_targets : list target) (old_preds : list prediction)
    (gt_instances : list (nat * nat)) (strict_mode : bool)
    (i : nat) (psd_target gt_target : target) (m : raster bool) :
  (generate_psd_targets H W psd_overlap_threshold combine_psdlabel mask_boxes
     gt_targets old_preds gt_instances strict_mode).1 !! i = Some psd_target →
  gt_targets !! i = Some gt_target →
  m ∈ masks psd_target →
  area (overlap_with_region m (gt_region H W (masks gt_target))) = 0 ∧
  (Forall (has_shape H W) (masks gt_target) →
   ∀ g, g ∈ masks gt_target → area (logical_and m g) = 0).
Proof.
  intros Hp Hg Hm.
  apply generate_psd_targets_lookup in Hp as (g & o & sz & Hg' & _ & ->).
  assert (g = gt_target) as -> by congruence.
  split.
  - apply area_all_zero. intros a b Hab.
    apply pix_logical_and_true in Hab as [Hm1 Hr].
    eapply generate_psd_image_masks_off_region in Hm1; [|done].
    rewrite pix_rmap, Hm1 in Hr. by vm_compute in Hr.
  - intros Hshape g Hin. apply area_all_zero. intros a b Hab.
    apply pix_logical_and_true in Hab as [Hm1 Hg1].
    eapply generate_psd_image_masks_off_region in Hm1; [|done].
    rewrite (gt_region_covers H W _ g a b Hshape Hin Hg1) in Hm1. done.
Qed.

Lemma psd_masks_disjoint_from_gt_region_witness :
  area (overlap_with_region [[false; true]]
          (gt_region 1 2 [[[true; false]]])) = 0 ∧
  area (logical_and [[false; true]] [[true; false]]) = 0.
Proof.
  destruct (psd_masks_disjoint_from_gt_region 1 2 (f64_ratio 2 5) false unit_boxes
              [example_gt] [example_old_pred] [(1, 2)%nat] false 0
              example_psd example_gt [[false; true]])
    as [Hregion Hmasks].
  - vm_compute. reflexivity.
  - reflexivity.
  - left.
  - split; [exact Hregion|]. apply Hmasks.
    + repeat constructor.
    + left.
Defined.

(** ** The area/overlap filter *)

Lemma Qlt_bool_iff (a b : Q) : Qlt_bool a b = true ↔ (a < b)%Q.
Proof.
  unfold Qlt_bool. rewrite negb_true_iff.
  destruct (Qle_bool b a) eqn:Hle; split; try done.
  - apply Qle_bool_iff in Hle. intros ?. by apply Qlt_not_le in Hle.
  - intros _. apply Qnot_le_lt. intros Hle'%Qle_bool_iff. congruence.
Qed.

Lemma row_area_and_le (a b : list bool) :
  foldr (λ x n, bool_to_Z x + n) 0 (zip_with andb a b)
  ≤ foldr (λ x n, bool_to_Z x + n) 0 b.
Proof.
  revert b. induction a as [|x a IH]; intros [|y b]; simpl; try done.
  - assert (0 ≤ area [y :: b]) as Hnn by apply area_nonneg.
    simpl in Hnn. lia.
  - specialize (IH b). destruct x, y; simpl; lia.
Qed.

Lemma area_logical_and_le_r (a b : raster bool) :
  area (logical_and a b) ≤ area b.
Proof.
  revert b. induction a as [|ra a IH]; intros [|rb b]; try done.
  - apply area_nonneg.
  - change (area (logical_and (ra :: a) (rb :: b))) with
      (foldr (λ x n, bool_to_Z x + n) 0 (zip_with andb ra rb)
       + area (logical_and a b)).
    change (area (rb :: b)) with
      (foldr (λ x n, bool_to_Z x + n) 0 rb + area b).
    specialize (IH b). pose proof (row_area_and_le ra rb). lia.
Qed.

Lemma logical_and_comm (a b : raster bool) :
  logical_and a b = logical_and b a.
Proof.
  unfold logical_and, rzip.
  revert b. induction a as [|ra a IH]; intros [|rb b]; simpl; try done.
  f_equal; [|apply IH].
  clear. revert rb. induction ra as [|x ra IH]; intros [|y rb]; simpl;
    try done.
  f_equal; [apply andb_comm|apply IH].
Qed.

Lemma area_logical_and_le_l (a b : raster bool) :
  area (logical_and a b) ≤ area a.
Proof. rewrite logical_and_comm. apply area_logical_and_le_r. Qed.

Section AreaFilter.
Variables H W : nat.
Variable psd_overlap_threshold : float.

(** Subtraction and ownership only ever shrink a binarised mask. *)
Lemma new_area_le_old_area gt_masks old_scores old_masks k na oa :
  new_area H W gt_masks old_scores old_masks !! k = Some na →
  old_area old_masks !! k = Some oa →
  na ≤ oa.
Proof.
  unfold new_area, non_ol_masks, owned_masks, old_area.
  rewrite !list_lookup_fmap, list_lookup_imap.
  destruct (old_masks !! k) as [m|]; simpl; [|done].
  intros [= <-] [= <-].
  etrans; [apply area_logical_and_le_l|apply area_logical_and_le_r].
Qed.

Lemma area_keep_lookup strict gt_masks old_scores old_masks k :
  area_keep H W psd_overlap_threshold strict gt_masks old_scores old_masks
    !! k =
  new_area H W gt_masks old_scores old_masks !! k ≫= λ na,
  old_area old_masks !! k ≫= λ oa,
  argmax_area old_scores old_masks !! k ≫= λ aa,
  Some (keep_entry psd_overlap_threshold strict na oa aa).
Proof.
  unfold area_keep. rewrite lookup_zip_with.
  destruct (new_area _ _ _ _ _ !! k) as [na|]; simpl; [|done].
  rewrite lookup_zip_with.
  destruct (old_area _ !! k) as [oa|]; simpl; [|done].
  by destruct (argmax_area _ _ !! k) as [aa|].
Qed.
End AreaFilter.

(** What [generate_psd_image] emits when some prediction passes the score
    gate and classes are not combined: the labels and the subtracted masks
    selected by [keep]. *)
Lemma generate_psd_image_per_prediction H W thr mask_boxes sz gt_target
    old_pred strict_mode :
  p_masks (candidates strict_mode old_pred) ≠ [] →
  let c := candidates strict_mode old_pred in
  let keep := area_keep H W thr strict_mode (masks gt_target)
                (p_scores c) (p_masks c) in
  let psd := (generate_psd_image H W thr false mask_boxes sz gt_target
                old_pred strict_mode).1 in
  labels psd = select keep (p_labels c) ∧
  masks psd = select keep (non_ol_masks H W (masks gt_target)
                             (p_scores c) (p_masks c)).
Proof.
  intros Hne. unfold generate_psd_image.
  destruct (p_masks (candidates strict_mode old_pred)) eqn:Hc; [done|].
  done.
Qed.

(** ** What the area gate lets through *)

Section SelectFacts.
Context {A : Type}.

Lemma select_lookup (keep : list bool) : ∀ (xs : list A) a x,
  select keep xs !! a = Some x →
  ∃ k, xs !! k = Some x ∧ keep !! k = Some true.
Proof.
  induction keep as [|b keep IH]; intros [|y xs] a x; simpl; try done.
  destruct b.
  - destruct a as [|a]; simpl.
    + intros [= <-]. by exists 0%nat.
    + intros (k & ? & ?)%IH. by exists (S k).
  - intros (k & ? & ?)%IH. by exists (S k).
Qed.

(** Boolean-mask indexing keeps the order of the rows it keeps. *)
Lemma select_lookup_lt (keep : list bool) : ∀ (xs : list A) a b x y,
  (a < b)%nat →
  select keep xs !! a = Some x → select keep xs !! b = Some y →
  ∃ ka kb, (ka < kb)%nat ∧ xs !! ka = Some x ∧ xs !! kb = Some y ∧
           keep !! ka = Some true ∧ keep !! kb = Some true.
Proof.
  induction keep as [|c keep IH]; intros [|z xs] a b x y Hab; simpl;
    try done.
  destruct c.
  - destruct a as [|a], b as [|b]; simpl; try lia.
    + intros [= <-] (k & ? & ?)%select_lookup.
      exists 0%nat, (S k). repeat split; try done. lia.
    + intros Ha Hb.
      destruct (IH xs a b x y) as (ka & kb & ? & ? & ? & ? & ?);
        [lia|done..|].
      exists (S ka), (S kb). repeat split; try done. lia.
  - intros Ha Hb.
    destruct (IH xs a b x y) as (ka & kb & ? & ? & ? & ? & ?); [done..|].
    exists (S ka), (S kb). repeat split; try done. lia.
Qed.

Lemma length_select_same {B} (keep : list bool) : ∀ (xs : list A)
    (ys : list B),
  length xs = length ys →
  length (select keep xs) = length (select keep ys).
Proof.
  induction keep as [|c keep IH]; intros [|x xs] [|y ys]; simpl; try done.
  intros [= Hlen]. destruct c; simpl; auto.
Qed.
End SelectFacts.



Section Gate.
Variables H W : nat.
Variable psd_overlap_threshold : float.

(** [non_ol_masks] slice by slice: owned by the argmax, inside the
    binarised mask, outside the ground-truth region. *)
Lemma non_ol_masks_imap gt_masks old_scores old_masks :
  non_ol_masks H W gt_masks old_scores old_masks =
    imap (λ k m,
            logical_and
              (logical_and
                 (rmap (λ id, id =? k)%nat (mask_ids old_scores old_masks))
                 (binarize m))
              (logical_not (gt_region H W gt_masks))) old_masks.
Proof.
  apply list_eq. intros k. unfold non_ol_masks, owned_masks.
  rewrite list_lookup_fmap, !list_lookup_imap.
  by destruct (old_masks !! k).
Qed.

(** The [keep] tensor of the default path, entry by entry. *)
Lemma area_keep_imap gt_masks old_scores old_masks :
  area_keep H W psd_overlap_threshold false gt_masks old_scores old_masks =
    imap (λ k m,
            let new_area_k :=
              area (logical_and
                      (logical_and
                         (rmap (λ id, id =? k)%nat
                            (mask_ids old_scores old_masks))
                         (binarize m))
                      (logical_not (gt_region H W gt_masks))) in
            (0 <? new_area_k) &&
            f32_lt (f32_mul (f32_of_Z (area (binarize m)))
                      (to_f32 psd_overlap_threshold))
                   (f32_of_Z new_area_k)) old_masks.
Proof.
  apply list_eq. intros k. rewrite area_keep_lookup.
  unfold new_area. rewrite non_ol_masks_imap.
  unfold old_area, argmax_area, selected_masks.
  rewrite !list_lookup_fmap, !list_lookup_imap.
  by destruct (old_masks !! k).
Qed.
End Gate.



(** The gate rounds as the tensors do: with a threshold of 0.53, a mask of
    100 pixels that keeps 53 of them passes, because the single-precision
    product is just below 53. *)
Example area_gate_rounds_in_single_precision :
  keep_entry (f64_ratio 53 100) false 53 100 0 = true.
Proof. by vm_compute. Qed.

(** ** The fused target of the loss *)



Lemma complete_psd_targets_lookup ids targets psd old i p t :
  psd !! i = Some p → targets !! i = Some t →
  complete_psd_targets ids targets (Some psd) (Some old) !! i =
    Some (if is_memory_image ids t then t else cat_targets p t).
Proof.
  intros Hp Ht. unfold complete_psd_targets, memory_part.
  rewrite list_lookup_imap, lookup_zip_with, Hp, list_lookup_fmap, Ht.
  simpl. destruct (is_memory_image ids t); [|done]. by destruct t.
Qed.

(** ** The matching adapter *)

Lemma foldl_max_ge (rest : list Z) : ∀ x,
  x ≤ foldl Z.max x rest ∧ ∀ y, y ∈ rest → y ≤ foldl Z.max x rest.
Proof.
  induction rest as [|z rest IH]; intros x; simpl.
  - split; [done|]. by intros y ?%elem_of_nil.
  - destruct (IH (Z.max x z)) as [Hx Hrest]. split; [lia|].
    intros y [->|Hy]%elem_of_cons; [lia|auto].
Qed.

Lemma max_indice_ge (tgt : list Z) x : x ∈ tgt → x ≤ max_indice tgt.
Proof.
  destruct tgt as [|z rest]; [by intros ?%elem_of_nil|]. simpl.
  destruct (foldl_max_ge rest z) as [Hz Hrest].
  intros [->|Hx]%elem_of_cons; auto.
Qed.

Section Adapter.
Context {slot : Type}.
Variable vq_number : nat.

Lemma new_indice_lengths (ind : indice) :
  length (new_indice vq_number ind).1 = (length ind.1 + vq_number)%nat ∧
  length (new_indice vq_number ind).2 = (length ind.2 + vq_number)%nat.
Proof.
  unfold new_indice. simpl.
  by rewrite !length_app, !length_fmap, !length_seq.
Qed.

Lemma new_indice_appended (ind : indice) j :
  (j < vq_number)%nat →
  (new_indice vq_number ind).2 !! (length ind.2 + j)%nat =
    Some (max_indice ind.2 + 1 + Z.of_nat j).
Proof.
  intros Hj. unfold new_indice. simpl.
  rewrite lookup_app_r by lia.
  replace (length ind.2 + j - length ind.2)%nat with j by lia.
  rewrite list_lookup_fmap, lookup_seq_lt by done. simpl. f_equal. lia.
Qed.
End Adapter.

(** C4. When the three lists have one entry per image (the length check of
    the adapter), the adapter returns, for every image, a match with exactly
    [vq_number] more entries on the prediction side and on the target side;
    the old match is kept as a prefix; the appended target indices are
    [max(target indices) + 1, + 2, ...] (from 0 for an empty match), hence
    greater than every old target index; and the labels of every target are
    extended by that image's synthetic labels, masks and boxes untouched. *)
Theorem modify_indices_targets_appends_fake_queries
    (vq_number : nat) (indices : list indice) (targets : list target)
    (fake_query_labels : list (list Z)) :
  length fake_query_labels = length targets →
  length targets = length indices →
  ∃ new_indices new_targets,
    _modify_indices_targets_for_fake_query vq_number indices targets
      (Some fake_query_labels) = Some (new_indices, new_targets) ∧
    length new_indices = length indices ∧
    length new_targets = length targets ∧
    (∀ i src tgt, indices !! i = Some (src, tgt) →
       ∃ src' tgt', new_indices !! i = Some (src', tgt') ∧
         length src' = (length src + vq_number)%nat ∧
         length tgt' = (length tgt + vq_number)%nat ∧
         take (length src) src' = src ∧
         take (length tgt) tgt' = tgt ∧
         (∀ j, (j < vq_number)%nat →
            tgt' !! (length tgt + j)%nat
              = Some (max_indice tgt + 1 + Z.of_nat j)) ∧
         (∀ x j, x ∈ tgt → (j < vq_number)%nat →
            x < max_indice tgt + 1 + Z.of_nat j)) ∧
    (∀ i t fql, targets !! i = Some t → fake_query_labels !! i = Some fql →
       new_targets !! i =
         Some {| labels := labels t ++ fql; masks := masks t;
                 boxes := boxes t |}).
Proof.
  intros Hlen1 Hlen2. unfold _modify_indices_targets_for_fake_query.
  rewrite decide_True by done.
  eexists _, _. split; [done|].
  split; [by rewrite length_fmap|].
  split; [rewrite length_zip_with; lia|]. split.
  - intros i src tgt Hi. exists (new_indice vq_number (src, tgt)).1,
      (new_indice vq_number (src, tgt)).2.
    split; [exact (list_lookup_fmap_Some_2 (new_indice vq_number) _ _ _ Hi)|].
    destruct (new_indice_lengths vq_number (src, tgt)) as [Hs Ht].
    split; [done|]. split; [done|].
    split; [by apply take_app_length|].
    split; [by apply take_app_length|]. split.
    + intros j Hj. by apply (new_indice_appended vq_number (src, tgt)).
    + intros x j Hx Hj. apply max_indice_ge in Hx. lia.
  - intros i t fql Ht Hf. by rewrite lookup_zip_with, Ht, Hf.
Qed.

Lemma modify_indices_targets_appends_fake_queries_witness :
  ∃ new_indices new_targets,
    _modify_indices_targets_for_fake_query 3 [([4; 9], [1; 0])] [example_gt]
      (Some [[7; 7; 2]]) = Some (new_indices, new_targets) ∧
    new_indices = [([4; 9; 100; 101; 102], [1; 0; 2; 3; 4])] ∧
    labels <$> new_targets = [[5; 7; 7; 2]].
Proof.
  destruct (modify_indices_targets_appends_fake_queries 3 [([4; 9], [1; 0])]
              [example_gt] [[7; 7; 2]] eq_refl eq_refl)
    as (new_indices & new_targets & Heq & _).
  exists new_indices, new_targets. split; [exact Heq|].
  vm_compute in Heq. injection Heq as <- <-. split; reflexivity.
Defined.

(** ** The normaliser *)

Lemma clamp_min_ge (lo x : Q) : (lo <= clamp_min lo x)%Q.
Proof.
  unfold clamp_min. destruct (Qlt_bool x lo) eqn:Hlt.
  - apply Qle_refl.
  - apply Qnot_lt_le. intros Hlt'%Qlt_bool_iff. congruence.
Qed.

(** C6. The normaliser [num_masks] of [forward] is at least 1 for every
    batch and every set of workers, a batch without any target included; so
    it is never zero when a loss term divides by it. *)
Theorem num_masks_at_least_one (complete : list target)
    (dist : option (list nat)) :
  (1 <= num_masks complete dist)%Q ∧ ¬ (num_masks complete dist == 0)%Q.
Proof.
  assert (1 <= num_masks complete dist)%Q as Hge by apply clamp_min_ge.
  split; [done|]. intros Heq. rewrite Heq in Hge. by apply Hge.
Qed.

Example num_masks_empty_batch :
  (num_masks [] (Some [0; 0; 0]%nat) == 1)%Q.
Proof. reflexivity. Qed.

(** ** Stripping the synthetic query slots *)

Section Strip.
Context {slot : Type}.

Lemma remove_fake_query_tensor_take (v : list slot) :
  remove_fake_query_tensor v = take 100 v.
Proof.
  unfold remove_fake_query_tensor.
  destruct (0 <? Z.of_nat (length v) - 100) eqn:Hf.
  - apply Z.ltb_lt in Hf. f_equal. lia.
  - apply Z.ltb_ge in Hf. rewrite take_ge; [done|lia].
Qed.

Lemma remove_fake_query_lookup (outputs : gmap string (list slot)) k :
  _remove_fake_query outputs !! k = take 100 <$> outputs !! k.
Proof.
  unfold _remove_fake_query. rewrite lookup_fmap.
  destruct (outputs !! k) as [v|]; simpl; [|done].
  by rewrite remove_fake_query_tensor_take.
Qed.
End Strip.

(** C8, as the code has it.  Every prediction tensor handed to the matcher
    is cut to its first 100 query slots, whatever [vq_number] is (a tensor
    with at most 100 slots is passed unchanged); so the matcher sees exactly
    the real slots, the last [vq_number] removed, when the model has 100
    real queries. *)
Theorem remove_fake_query_keeps_first_100 {slot : Type}
    (outputs : gmap string (list slot)) (k : string) (v : list slot) :
  outputs !! k = Some v →
  _remove_fake_query outputs !! k = Some (take 100 v) ∧
  ((length v ≤ 100)%nat → _remove_fake_query outputs !! k = Some v) ∧
  (∀ vq_number, length v = (100 + vq_number)%nat →
     _remove_fake_query outputs !! k = Some (take (length v - vq_number) v)).
Proof.
  intros Hk. rewrite remove_fake_query_lookup, Hk. simpl.
  split; [done|]. split.
  - intros Hle. by rewrite take_ge.
  - intros vq Hlen. do 2 f_equal. lia.
Qed.

Lemma remove_fake_query_keeps_first_100_witness :
  _remove_fake_query {[ "pred_logits" := seq 0 103 ]} !! "pred_logits"
    = Some (seq 0 100).
Proof.
  assert (({[ "pred_logits" := seq 0 103 ]} : gmap string (list nat))
            !! "pred_logits" = Some (seq 0 103)) as Hk by (vm_compute; reflexivity).
  destruct (remove_fake_query_keeps_first_100 _ _ _ Hk) as [Heq _].
  exact Heq.
Defined.

(** The claim as written fails for a model with 50 real queries and 3
    synthetic ones: nothing is removed. *)
Lemma remove_fake_query_not_last_vq :
  ¬ (∀ (num_queries vq_number : nat) (v : list nat),
       length v = (num_queries + vq_number)%nat →
       remove_fake_query_tensor v = take num_queries v).
Proof.
  intros Hclaim. specialize (Hclaim 50%nat 3%nat (seq 0 53) eq_refl).
  apply (f_equal length) in Hclaim. vm_compute in Hclaim. discriminate.
Qed.

(** ** Which scopes compute the distillation loss *)

Section Distillation.
Context {slot : Type}.
Variable current_catagory_ids : list Z.
Variable vq_number : nat.
Variable kd_temperature kd_temperature2 : Q.
Variable kd_decoder : bool.
Variable losses : list loss_name.
Variable matcher : gmap string (list slot) → list target → list indice.

Lemma kd_calls_app (a b : list (@call slot)) :
  kd_calls (a ++ b) = kd_calls a ++ kd_calls b.
Proof. unfold kd_calls. apply omap_app. Qed.

Lemma kd_calls_cons_loss s l tgts indices (r : list (@call slot)) :
  kd_calls (CallLoss s l tgts indices :: r) = kd_calls r.
Proof. done. Qed.

Lemma kd_calls_cons_matcher s ps tgts (r : list (@call slot)) :
  kd_calls (CallMatcher s ps tgts :: r) = kd_calls r.
Proof. done. Qed.

Lemma kd_calls_scope_losses s kd complete indices fql ls
    (cs : list (@call slot)) :
  scope_losses vq_number s kd complete indices fql ls = Some cs →
  kd_calls cs =
    match kd with
    | Some t => replicate (kd_requests ls) (s, t)
    | None => []
    end.
Proof.
  revert cs. induction ls as [|l ls IH]; intros cs; simpl.
  - intros [= <-]. by destruct kd.
  - intros Hcs.
    destruct (scope_losses _ s kd complete indices fql ls) as [rest|] eqn:Hrest.
    2:{ destruct l; simpl in Hcs; try done.
        by destruct (_modify_indices_targets_for_fake_query _ _ _ _). }
    specialize (IH rest eq_refl).
    destruct l; simpl in Hcs.
    + destruct (_modify_indices_targets_for_fake_query _ _ _ _); [|done].
      injection Hcs as <-. rewrite kd_calls_cons_loss, IH.
      unfold kd_requests. by rewrite filter_cons_False.
    + injection Hcs as <-. rewrite kd_calls_cons_loss, IH.
      unfold kd_requests. by rewrite filter_cons_False.
    + injection Hcs as <-. rewrite kd_calls_cons_loss, IH.
      unfold kd_requests. by rewrite filter_cons_False.
    + destruct kd as [t|]; simpl in Hcs; injection Hcs as <-.
      * unfold kd_requests. rewrite filter_cons_True by done.
        simpl. f_equal. exact IH.
      * done.
Qed.

Lemma kd_calls_scope_forward s kd ps complete fql cs :
  scope_forward vq_number losses matcher s kd ps complete fql = Some cs →
  kd_calls cs =
    match kd with
    | Some t => replicate (kd_requests losses) (s, t)
    | None => []
    end.
Proof.
  unfold scope_forward. intros Hcs.
  destruct (scope_losses _ _ _ _ _ _ _) as [calls|] eqn:Hl; [|done].
  injection Hcs as <-. by apply kd_calls_scope_losses in Hl.
Qed.

Lemma kd_calls_aux_forward auxs : ∀ i complete fql cs,
  aux_forward vq_number losses matcher i auxs complete fql = Some cs →
  kd_calls cs = [].
Proof.
  induction auxs as [|aux auxs IH]; intros i complete fql cs; simpl.
  - by intros [= <-].
  - intros Hcs.
    destruct (scope_forward _ _ _ _ _ _ _ _) as [here|] eqn:Hh; [|done].
    destruct (aux_forward _ _ _ _ _ _ _) as [more|] eqn:Hm; [|done].
    injection Hcs as <-. rewrite kd_calls_app.
    apply kd_calls_scope_forward in Hh. apply IH in Hm. by rewrite Hh, Hm.
Qed.

Lemma kd_calls_forward out targets psd old fql tr :
  forward current_catagory_ids vq_number kd_temperature kd_temperature2
    kd_decoder losses matcher out targets psd old fql = Some tr →
  kd_calls tr =
    (if kd_decoder
     then replicate (kd_requests losses) (Primary, kd_temperature2)
     else []) ++
    match interm_outputs out with
    | Some _ => replicate (kd_requests losses) (Interm, kd_temperature)
    | None => []
    end.
Proof.
  unfold forward. intros Htr.
  destruct (scope_forward _ _ _ Primary _ _ _ _) as [primary|] eqn:Hp; [|done].
  simpl in Htr.
  assert (∃ aux, match aux_outputs out with
                 | Some auxs => aux_forward vq_number losses matcher 0 auxs
                     (complete_psd_targets current_catagory_ids targets psd old)
                     fql
                 | None => Some []
                 end = Some aux ∧ kd_calls aux = []) as (aux & Ha & Hka).
  { destruct (aux_outputs out) as [auxs|].
    - destruct (aux_forward _ _ _ _ _ _ _) as [aux|] eqn:Ha; [|done].
      exists aux. split; [done|]. by eapply kd_calls_aux_forward.
    - by exists []. }
  rewrite Ha in Htr. simpl in Htr.
  apply kd_calls_scope_forward in Hp.
  destruct (interm_outputs out) as [io|].
  - destruct (scope_forward _ _ _ Interm _ _ _ _) as [interm|] eqn:Hi; [|done].
    injection Htr as <-. apply kd_calls_scope_forward in Hi.
    rewrite !kd_calls_app, Hp, Hka, Hi. by destruct kd_decoder.
  - injection Htr as <-.
    rewrite !kd_calls_app, Hp, Hka. by destruct kd_decoder.
Qed.
End Distillation.

(** C7, as the code has it.  With ['kd'] listed once among the losses, the
    distillation loss is computed for the primary scope, with
    [kd_temperature2], exactly when [kd_decoder] is set, and for the interm
    scope, with [kd_temperature], exactly when the output has
    ['interm_outputs']; it is computed for no auxiliary scope.  So it is
    computed twice, once per scope and in that order, when [kd_decoder] is
    set and the interm output is present. *)
Theorem kd_only_for_primary_and_interm {slot : Type}
    (current_catagory_ids : list Z) (vq_number : nat)
    (kd_temperature kd_temperature2 : Q) (kd_decoder : bool)
    (losses : list loss_name)
    (matcher : gmap string (list slot) → list target → list indice)
    (out : outputs) (targets : list target)
    (psd_targets old_targets : option (list target))
    (fake_query_labels : option (list (list Z))) (tr : list call) :
  kd_requests losses = 1%nat →
  forward current_catagory_ids vq_number kd_temperature kd_temperature2
    kd_decoder losses matcher out targets psd_targets old_targets
    fake_query_labels = Some tr →
  kd_calls tr =
    (if kd_decoder then [(Primary, kd_temperature2)] else []) ++
    match interm_outputs out with
    | Some _ => [(Interm, kd_temperature)]
    | None => []
    end ∧
  (∀ i t, (Aux i, t) ∉ kd_calls tr) ∧
  (kd_decoder = true → is_Some (interm_outputs out) →
   kd_calls tr = [(Primary, kd_temperature2); (Interm, kd_temperature)]).
Proof.
  intros Hone Htr. apply kd_calls_forward in Htr. rewrite Hone in Htr.
  simpl in Htr. split; [done|]. split.
  - intros i t. rewrite Htr.
    destruct kd_decoder, (interm_outputs out); simpl; intros Hin;
      repeat (apply elem_of_cons in Hin as [Hin|Hin]; [discriminate|]);
      by apply elem_of_nil in Hin.
  - intros -> [io Hio]. by rewrite Htr, Hio.
Qed.

Lemma kd_only_for_primary_and_interm_witness :
  ∃ tr,
    forward [5; 6] 3 (1 # 10) (1 # 5) true [labels_loss; masks_loss; kd_loss]
      example_matcher example_outputs [example_gt] (Some [example_psd])
      (Some [example_psd]) (Some [[7; 7; 2]]) = Some tr ∧
    kd_calls tr = [(Primary, (1 # 5)%Q); (Interm, (1 # 10)%Q)].
Proof.
  eexists. split; [vm_compute; reflexivity|].
  refine (proj2 (proj2 (kd_only_for_primary_and_interm [5; 6] 3 (1 # 10)
    (1 # 5) true [labels_loss; masks_loss; kd_loss] example_matcher
    example_outputs [example_gt] (Some [example_psd]) (Some [example_psd])
    (Some [[7; 7; 2]]) _ _ _)) eq_refl _).
  - reflexivity.
  - vm_compute. reflexivity.
  - by eexists.
Defined.

(** The claim as written fails when [kd_decoder] is off: the primary scope
    skips the distillation loss and it is computed once. *)
Lemma kd_once_without_kd_decoder :
  ∃ tr,
    forward [5; 6] 3 (1 # 10) (1 # 5) false [labels_loss; masks_loss; kd_loss]
      example_matcher example_outputs [example_gt] (Some [example_psd])
      (Some [example_psd]) (Some [[7; 7; 2]]) = Some tr ∧
    kd_calls tr = [(Interm, (1 # 10)%Q)] ∧
    kd_calls tr ≠ [(Primary, (1 # 5)%Q); (Interm, (1 # 10)%Q)].
Proof.
  eexists. split; [vm_compute; reflexivity|]. split; [reflexivity|].
  vm_compute. discriminate.
Qed.

(** ** Where the fused target goes *)

Section FusedTarget.
Context {slot : Type}.
Variable current_catagory_ids : list Z.
Variable vq_number : nat.
Variable kd_temperature kd_temperature2 : Q.
Variable kd_decoder : bool.
Variable losses : list loss_name.
Variable matcher : gmap string (list slot) → list target → list indice.





End FusedTarget.



(** ** The matcher call of the feature-storing block *)

Section StorePass.
Context {slot : Type}.
Variable current_catagory_ids : list Z.
Variable vq_number : nat.
Variable kd_temperature kd_temperature2 : Q.
Variable kd_decoder : bool.
Variable losses : list loss_name.
Variable matcher : gmap string (list slot) → list target → list indice.

End StorePass.



(** ** Bounded buffers *)

Section DequeFacts.
Context {A : Type}.
Implicit Types (d : deque A) (l xs : list A).

Lemma newest_all n l : (length l ≤ n)%nat → newest n l = l.
Proof.
  intros Hle. unfold newest.
  replace (length l - n)%nat with 0%nat by lia. apply drop_0.
Qed.

Lemma length_newest n l : length (newest n l) = (length l `min` n)%nat.
Proof. unfold newest. rewrite length_drop. lia. Qed.

Lemma newest_app_newest n l xs :
  newest n (newest n l ++ xs) = newest n (l ++ xs).
Proof.
  destruct (decide (length l ≤ n)%nat) as [Hle|Hgt].
  - by rewrite (newest_all n l).
  - unfold newest at 1 3. rewrite !length_app, length_newest.
    unfold newest.
    replace (length l `min` n + length xs - n)%nat with (length xs) by lia.
    replace (length l + length xs - n)%nat
      with (length l - n + length xs)%nat by lia.
    rewrite <- (drop_drop (l ++ xs)).
    by rewrite (drop_app_le l xs (length l - n)) by lia.
Qed.

Lemma append_maxlen x d : maxlen (append x d) = maxlen d.
Proof.
  unfold append. destruct (maxlen d =? 0)%nat; [done|].
  by destruct (length (items d) <? maxlen d)%nat.
Qed.

Lemma append_items x d :
  (length (items d) ≤ maxlen d)%nat →
  items (append x d) = newest (maxlen d) (items d ++ [x]).
Proof.
  intros Hle. unfold append, newest. rewrite length_app. simpl.
  destruct (maxlen d =? 0)%nat eqn:H0.
  - apply Nat.eqb_eq in H0. rewrite H0 in *.
    assert (items d = []) as -> by (apply nil_length_inv; lia). done.
  - apply Nat.eqb_neq in H0.
    destruct (length (items d) <? maxlen d)%nat eqn:Hlt; simpl.
    + apply Nat.ltb_lt in Hlt.
      replace (length (items d) + 1 - maxlen d)%nat with 0%nat by lia.
      by rewrite drop_0.
    + apply Nat.ltb_ge in Hlt.
      replace (length (items d) + 1 - maxlen d)%nat with 1%nat by lia.
      rewrite drop_app_le; [done|lia].
Qed.

Lemma append_length x d :
  (length (items d) ≤ maxlen d)%nat →
  (length (items (append x d)) ≤ maxlen d)%nat.
Proof. intros Hle. rewrite append_items, length_newest by done. lia. Qed.

Lemma extend_spec xs : ∀ d,
  (length (items d) ≤ maxlen d)%nat →
  maxlen (extend xs d) = maxlen d ∧
  (length (items (extend xs d)) ≤ maxlen d)%nat ∧
  items (extend xs d) = newest (maxlen d) (items d ++ xs).
Proof.
  unfold extend. induction xs as [|x xs IH]; intros d Hle; simpl.
  - rewrite app_nil_r, newest_all by done. done.
  - destruct (IH (append x d)) as (Hm & Hl & Hi).
    { rewrite append_maxlen. by apply append_length. }
    rewrite append_maxlen in Hm, Hl, Hi. split; [done|]. split; [done|].
    rewrite Hi, append_items by done.
    by rewrite newest_app_newest, <- app_assoc.
Qed.
End DequeFacts.

Section WriterFacts.
Variables lib_size world_size : nat.

Lemma bounded_empty cap : bounded cap ∅.
Proof. intros k d Hk. by rewrite lookup_empty in Hk. Qed.

Lemma store_pair_bounded target_labels med_row collect ql collect1 :
  bounded (lib_size / world_size) collect →
  store_pair lib_size world_size target_labels med_row collect ql
    = Some collect1 →
  bounded (lib_size / world_size) collect1.
Proof.
  intros Hb. unfold store_pair.
  destruct (py_index target_labels ql.2) as [gt_class|]; simpl; [|done].
  set (c1 := match collect !! gt_class with Some _ => collect | None => _ end).
  assert (bounded (lib_size / world_size) c1) as Hb1.
  { subst c1. destruct (collect !! gt_class) eqn:Hg; [done|].
    intros k d. destruct (decide (k = gt_class)) as [->|Hne].
    - rewrite lookup_insert_eq. intros [= <-]. simpl. split; [done|lia].
    - rewrite lookup_insert_ne by done. apply Hb. }
  destruct (py_index med_row ql.1) as [feat|]; simpl; [|done].
  destruct (c1 !! gt_class) as [d|] eqn:Hd; simpl; [|done].
  intros [= <-] k d'. destruct (decide (k = gt_class)) as [->|Hne].
  - rewrite lookup_insert_eq. intros [= <-].
    destruct (Hb1 _ _ Hd) as [Hm Hl]. rewrite append_maxlen. split; [done|].
    rewrite <- Hm. apply append_length. lia.
  - rewrite lookup_insert_ne by done. apply Hb1.
Qed.

Lemma store_pairs_bounded target_labels med_row qls : ∀ collect collect1,
  bounded (lib_size / world_size) collect →
  store_pairs lib_size world_size target_labels med_row collect qls
    = Some collect1 →
  bounded (lib_size / world_size) collect1.
Proof.
  induction qls as [|ql qls IH]; intros collect collect1 Hb; simpl.
  - by intros [= <-].
  - destruct (store_pair _ _ _ _ collect ql) as [c|] eqn:Hc; simpl; [|done].
    apply IH. by eapply store_pair_bounded.
Qed.

Lemma store_fake_query_bounded med_feats indices : ∀ index targets collect
    collect1,
  bounded (lib_size / world_size) collect →
  store_fake_query lib_size world_size index med_feats indices targets collect
    = Some collect1 →
  bounded (lib_size / world_size) collect1.
Proof.
  induction indices as [|ind indices IH];
    intros index [|tgt targets] collect collect1 Hb; simpl;
    try by intros [= <-].
  destruct (med_feats !! index) as [med_row|]; simpl; [|done].
  destruct (store_pairs _ _ _ _ collect _) as [c|] eqn:Hc; simpl; [|done].
  apply IH. by eapply store_pairs_bounded.
Qed.

(** What the merge leaves under one key after one worker's cache. *)
Lemma combine_gpu_lookup combined gpu_collect k :
  combine_gpu lib_size combined gpu_collect !! k =
    match gpu_collect !! k with
    | Some dq => Some (extend (items dq)
                         (default (Deque.empty lib_size) (combined !! k)))
    | None => combined !! k
    end.
Proof.
  unfold combine_gpu. revert k.
  apply (map_fold_weak_ind (λ acc m, ∀ k,
    acc !! k = match m !! k with
               | Some dq => Some (extend (items dq)
                                    (default (Deque.empty lib_size)
                                             (combined !! k)))
               | None => combined !! k
               end)).
  - intros k. by rewrite lookup_empty.
  - intros i x m r Hi IH k. unfold extend_key.
    destruct (decide (k = i)) as [->|Hne].
    + rewrite !lookup_insert_eq. by rewrite IH, Hi.
    + rewrite !lookup_insert_ne by done. apply IH.
Qed.

Lemma gathered_items_snoc k seen gpu_collect :
  gathered_items k (seen ++ [gpu_collect]) =
    gathered_items k seen ++
    match gpu_collect !! k with Some dq => items dq | None => [] end.
Proof.
  unfold gathered_items. rewrite omap_app, concat_app. f_equal. simpl.
  destruct (gpu_collect !! k); simpl; [by rewrite app_nil_r|done].
Qed.

Lemma combine_gpu_merged seen combined gpu_collect :
  merged_upto lib_size seen combined →
  merged_upto lib_size (seen ++ [gpu_collect])
              (combine_gpu lib_size combined gpu_collect).
Proof.
  intros Hinv k. specialize (Hinv k).
  rewrite combine_gpu_lookup, gathered_items_snoc.
  destruct (gpu_collect !! k) as [dq|].
  - destruct (combined !! k) as [d|]; simpl.
    + destruct Hinv as (Hm & Hl & Hi).
      destruct (extend_spec (items dq) d) as (Hm' & Hl' & Hi'); [lia|].
      rewrite Hm in *. split; [done|]. split; [done|].
      by rewrite Hi', Hi, newest_app_newest.
    + destruct (extend_spec (items dq) (Deque.empty lib_size))
        as (Hm' & Hl' & Hi'); [simpl; lia|].
      simpl in *. by rewrite Hinv.
  - rewrite app_nil_r. done.
Qed.

Lemma combine_collect_merged gathered :
  merged_upto lib_size gathered (combine_collect lib_size gathered).
Proof.
  unfold combine_collect.
  assert (∀ rest seen combined, merged_upto lib_size seen combined →
            merged_upto lib_size (seen ++ rest) (foldl (combine_gpu lib_size) combined rest))
    as Hgen.
  { induction rest as [|g rest IH]; intros seen combined Hinv; simpl.
    - by rewrite app_nil_r.
    - replace (seen ++ g :: rest) with ((seen ++ [g]) ++ rest)
        by (by rewrite <- app_assoc).
      apply IH.
      by apply combine_gpu_merged. }
  apply (Hgen gathered [] ∅). intros k. by rewrite lookup_empty.
Qed.
End WriterFacts.

(** C5, as the code has it.  A buffer the writer creates has
    [maxlen = lib_size // world_size], and a cache whose buffers all have
    this bound (the empty cache of a first task is one) keeps it through
    every storing step.  The mapping merged at the end of the task, which
    the next task loads, has buffers of [maxlen = lib_size]: each holds at
    most [lib_size] features, namely the newest [lib_size] of the workers'
    features for that class, taken in rank order. *)
Theorem replay_cache_bounds (lib_size world_size : nat) :
  bounded (lib_size / world_size) ∅ ∧
  (∀ index med_feats indices targets collect collect1,
     bounded (lib_size / world_size) collect →
     store_fake_query lib_size world_size index med_feats indices targets
       collect = Some collect1 →
     bounded (lib_size / world_size) collect1) ∧
  (∀ gathered task k d,
     1 < task →
     initial_collect task false (Some (combine_collect lib_size gathered))
       !! k = Some d →
     maxlen d = lib_size ∧
     (length (items d) ≤ lib_size)%nat ∧
     items d = newest lib_size (gathered_items k gathered)).
Proof.
  split; [apply bounded_empty|]. split.
  - intros index med_feats indices targets collect collect1.
    apply store_fake_query_bounded.
  - intros gathered task k d Htask. unfold initial_collect.
    apply Z.ltb_lt in Htask. rewrite Htask. simpl. intros Hk.
    pose proof (combine_collect_merged lib_size gathered k) as Hinv.
    by rewrite Hk in Hinv.
Qed.

Lemma replay_cache_bounds_witness :
  ∃ w0 w1 d,
    example_worker (1 # 2) (1 # 3) = Some w0 ∧
    example_worker (1 # 5) (1 # 7) = Some w1 ∧
    bounded (4 / 2) w0 ∧
    initial_collect 2 false (Some (combine_collect 4 [w0; w1])) !! 7
      = Some d ∧
    (length (items d) ≤ 4)%nat ∧
    items d = newest 4 (gathered_items 7 [w0; w1]).
Proof.
  destruct (example_worker (1 # 2) (1 # 3)) as [w0|] eqn:H0;
    [|by vm_compute in H0].
  destruct (example_worker (1 # 5) (1 # 7)) as [w1|] eqn:H1;
    [|by vm_compute in H1].
  destruct (initial_collect 2 false (Some (combine_collect 4 [w0; w1])) !! 7)
    as [d|] eqn:Hd.
  2:{ vm_compute in H0, H1. injection H0 as <-. injection H1 as <-.
      by vm_compute in Hd. }
  exists w0, w1, d.
  destruct (replay_cache_bounds 4 2) as (Hempty & Hstore & Hmerge).
  split; [done|]. split; [done|]. split.
  - exact (Hstore _ _ _ _ _ _ Hempty H0).
  - split; [done|]. by destruct (Hmerge [w0; w1] 2 7 d eq_refl Hd) as (_ & ? & ?).
Defined.

(** The claim as written fails after the merge: with [lib_size = 4] and
    two workers holding two features of class 7 each, the persisted buffer
    of class 7 has four entries, more than [lib_size // world_size = 2]. *)
Lemma merged_buffer_exceeds_worker_share :
  ∃ w0 w1 d,
    example_worker (1 # 2) (1 # 3) = Some w0 ∧
    example_worker (1 # 5) (1 # 7) = Some w1 ∧
    initial_collect 2 false (Some (combine_collect 4 [w0; w1])) !! 7
      = Some d ∧
    items d = [[1 # 2]; [1 # 3]; [1 # 5]; [1 # 7]]%Q ∧
    ¬ (length (items d) ≤ 4 / 2)%nat.
Proof.
  eexists _, _, _. split; [vm_compute; reflexivity|].
  split; [vm_compute; reflexivity|].
  split; [vm_compute; reflexivity|].
  split; [reflexivity|]. vm_compute. lia.
Qed.

(** ** Which predictions reach the area/overlap filter *)

Section Candidates.
Context {A : Type}.

Lemma select_all_true {B} (f : B → bool) (ys : list B) (xs : list A) :
  Forall (λ y, f y = true) ys → length xs = length ys →
  select (f <$> ys) xs = xs.
Proof.
  intros Hall. revert xs.
  induction Hall as [|y ys Hy _ IH]; intros [|x xs]; simpl; try done.
  intros [= Hlen]. rewrite Hy. f_equal. by apply IH.
Qed.

Lemma length_select_fmap {B} (f : B → bool) (g : B → A) (ys : list B) :
  length (select (f <$> ys) (g <$> ys)) =
    length (filter (λ y, f y = true) ys).
Proof.
  induction ys as [|y ys IH]; [done|].
  rewrite !fmap_cons. cbn [select]. destruct (f y) eqn:Hf.
  - rewrite filter_cons_True by done. cbn [length]. by rewrite IH.
  - rewrite filter_cons_False by congruence. done.
Qed.

Lemma length_gather (sort : list nat) (xs : list A) :
  (∀ i, i ∈ sort → (i < length xs)%nat) →
  length (gather sort xs) = length sort.
Proof.
  induction sort as [|i sort IH]; intros Hin; [done|].
  destruct (lookup_lt_is_Some_2 xs i) as [x Hx]; [apply Hin; left|].
  change (gather (i :: sort) xs)
    with (match xs !! i with
          | Some y => y :: gather sort xs
          | None => gather sort xs
          end).
  rewrite Hx. cbn [length]. rewrite IH; [done|].
  intros j Hj. apply Hin. by right.
Qed.
End Candidates.

Lemma insert_desc_Permutation (x : Q * nat) (l : list (Q * nat)) :
  insert_desc x l ≡ₚ x :: l.
Proof.
  induction l as [|y l IH]; [done|]. cbn [insert_desc].
  destruct (Qle_bool y.1 x.1); [done|].
  rewrite IH. apply Permutation_swap.
Qed.

Lemma argsort_desc_Permutation (scores : list Q) :
  argsort_desc scores ≡ₚ seq 0 (length scores).
Proof.
  unfold argsort_desc.
  assert (∀ l : list (Q * nat), foldr insert_desc [] l ≡ₚ l) as Hsort.
  { induction l as [|x l IH]; [done|]. cbn [foldr].
    by rewrite insert_desc_Permutation, IH. }
  rewrite Hsort. rewrite snd_zip; [done|]. by rewrite length_seq.
Qed.

Lemma length_gather_argsort {A} (scores : list Q) (xs : list A) :
  length xs = length scores →
  length (gather (argsort_desc scores) xs) = length scores.
Proof.
  intros Hlen. rewrite length_gather.
  - by rewrite argsort_desc_Permutation, length_seq.
  - intros i. rewrite argsort_desc_Permutation, elem_of_seq. lia.
Qed.

Lemma elem_of_gather {A} (sort : list nat) (xs : list A) x :
  x ∈ gather sort xs → x ∈ xs.
Proof.
  unfold gather. intros (i & _ & Hx)%list_elem_of_omap.
  by eapply list_elem_of_lookup_2.
Qed.

(** The maximum of a row of non-negative entries is non-negative. *)
Lemma max_last_from_nonneg (l : list Q) : ∀ best best_i i,
  (0 <= best)%Q → Forall (λ p, (0 <= p)%Q) l →
  (0 <= (max_last_from best best_i i l).1)%Q.
Proof.
  induction l as [|x l IH]; intros best best_i i Hb Hl; [done|].
  apply Forall_cons in Hl as [Hx Hl]. cbn [max_last_from].
  destruct (Qlt_bool best x); by apply IH.
Qed.

Lemma max_last_nonneg (l : list Q) :
  Forall (λ p, (0 <= p)%Q) l → (0 <= (max_last l).1)%Q.
Proof.
  destruct l as [|x l]; [done|]. intros [Hx Hl]%Forall_cons.
  by apply max_last_from_nonneg.
Qed.

Section Handover.
Variable n_cls : Z.
Variable psd_label_threshold : Q.
Variable combine_psdlabel : bool.
Variable softmax_T : list Q → list Q.
Variable queries : list raw_query.

(** The old model hands over one label, mask and box per score. *)
Lemma psd_label_predictions_lengths :
  let p := psd_label_predictions n_cls psd_label_threshold combine_psdlabel
             softmax_T queries in
  length (p_labels p) = length (p_scores p) ∧
  length (p_masks p) = length (p_scores p) ∧
  length (p_boxes p) = length (p_scores p).
Proof.
  unfold psd_label_predictions. cbn [p_labels p_masks p_scores p_boxes].
  set (keep := psd_label_keep n_cls psd_label_threshold <$> queries).
  set (sl := if combine_psdlabel then _ else _).
  assert (length sl = length queries) as Hsl.
  { subst sl. destruct combine_psdlabel; by rewrite length_fmap. }
  set (scores := select keep sl.*1).
  assert (∀ {B} (xs : list B), length xs = length queries →
            length (gather (argsort_desc scores) (select keep xs))
            = length (gather (argsort_desc scores) scores)) as Hsame.
  { intros B xs Hxs. rewrite !length_gather_argsort; [done..|].
    subst scores. apply length_select_same.
    by rewrite length_fmap, Hsl. }
  split; [|split]; apply Hsame; by rewrite length_fmap.
Qed.

Lemma psd_label_predictions_scores_nonneg :
  Forall (λ q, Forall (λ p, (0 <= p)%Q) (q_cls q)) queries →
  (∀ row, Forall (λ p, (0 <= p)%Q) (softmax_T row)) →
  Forall (λ s, (0 <= s)%Q)
    (p_scores (psd_label_predictions n_cls psd_label_threshold
                 combine_psdlabel softmax_T queries)).
Proof.
  intros Hq Hsoft. unfold psd_label_predictions. cbn [p_scores].
  apply Forall_forall. intros s Hs%elem_of_gather%elem_of_select.
  apply list_elem_of_fmap in Hs as ([v j] & -> & Hs). cbn [fst].
  rewrite Forall_forall in Hq.
  destruct combine_psdlabel;
    apply list_elem_of_fmap in Hs as (q & Hvj & Hin);
    apply (f_equal fst) in Hvj; cbn [fst] in Hvj; rewrite Hvj;
    apply max_last_nonneg; auto.
Qed.
End Handover.

(** C9. [generate_psd_targets] applies no score threshold in the default
    mode: a prediction with a score of at least 0.0 passes its gate, so for
    a prediction dictionary with non-negative scores (and one label, mask
    and box per score) the candidates are the whole dictionary, and the
    area/overlap filter is computed over, and selects from, all of its
    predictions.  The dictionaries the old model hands over have
    non-negative scores, the maxima of sigmoid or softmax rows, so all of
    their predictions reach the filter. *)
Theorem generator_applies_no_score_threshold
    (H W : nat) (psd_overlap_threshold : float)
    (mask_boxes : list (raster bool) → nat * nat → list box)
    (image_size : nat * nat) (gt_target : target)
    (n_cls : Z) (psd_label_threshold : Q) (combine_psdlabel : bool)
    (softmax_T : list Q → list Q) (queries : list raw_query)
    (old_pred : prediction) :
  (∀ k s, p_scores old_pred !! k = Some s → (0 <= s)%Q →
     score_keep false old_pred !! k = Some true) ∧
  (Forall (λ s, (0 <= s)%Q) (p_scores old_pred) →
   length (p_labels old_pred) = length (p_scores old_pred) →
   length (p_masks old_pred) = length (p_scores old_pred) →
   length (p_boxes old_pred) = length (p_scores old_pred) →
   candidates false old_pred = old_pred ∧
   (p_masks old_pred ≠ [] →
    let keep := area_keep H W psd_overlap_threshold false (masks gt_target)
                  (p_scores old_pred) (p_masks old_pred) in
    let psd := (generate_psd_image H W psd_overlap_threshold false mask_boxes
                  image_size gt_target old_pred false).1 in
    length keep = length (p_scores old_pred) ∧
    labels psd = select keep (p_labels old_pred) ∧
    masks psd = select keep (non_ol_masks H W (masks gt_target)
                               (p_scores old_pred) (p_masks old_pred)))) ∧
  (Forall (λ q, Forall (λ p, (0 <= p)%Q) (q_cls q)) queries →
   (∀ row, Forall (λ p, (0 <= p)%Q) (softmax_T row)) →
   let handed_over :=
     psd_label_predictions n_cls psd_label_threshold combine_psdlabel
       softmax_T queries in
   candidates false handed_over = handed_over).
Proof.
  assert (∀ o, Forall (λ s, (0 <= s)%Q) (p_scores o) →
               length (p_labels o) = length (p_scores o) →
               length (p_masks o) = length (p_scores o) →
               length (p_boxes o) = length (p_scores o) →
               candidates false o = o) as Hall.
  { intros o Hs Hl Hm Hb. unfold candidates, score_keep.
    assert (Forall (λ s, Qle_bool 0 s = true) (p_scores o)) as Hs'.
    { eapply Forall_impl; [exact Hs|]. intros s. apply Qle_bool_iff. }
    rewrite !select_all_true by done. by destruct o. }
  split; [|split].
  - intros k s Hk Hs. unfold score_keep. rewrite list_lookup_fmap, Hk. simpl.
    f_equal. by apply Qle_bool_iff.
  - intros Hs Hl Hm Hb. pose proof (Hall _ Hs Hl Hm Hb) as Hc.
    split; [done|]. intros Hne keep psd.
    destruct (generate_psd_image_per_prediction H W psd_overlap_threshold
                mask_boxes image_size gt_target old_pred false) as [Hlab Hmask].
    { by rewrite Hc. }
    rewrite Hc in Hlab, Hmask. split; [|done].
    subst keep. rewrite area_keep_imap, length_imap. done.
  - intros Hq Hsoft handed_over.
    destruct (psd_label_predictions_lengths n_cls psd_label_threshold
                combine_psdlabel softmax_T queries) as (Hl & Hm & Hb).
    apply Hall; try done.
    by apply psd_label_predictions_scores_nonneg.
Qed.

Lemma generator_applies_no_score_threshold_witness :
  candidates false example_old_pred = example_old_pred ∧
  labels (generate_psd_image 1 2 (f64_ratio 2 5) false unit_boxes (1, 2)%nat
            example_gt example_old_pred false).1
  = select (area_keep 1 2 (f64_ratio 2 5) false (masks example_gt)
              (p_scores example_old_pred) (p_masks example_old_pred))
      (p_labels example_old_pred).
Proof.
  destruct (generator_applies_no_score_threshold 1 2 (f64_ratio 2 5)
              unit_boxes (1, 2)%nat example_gt 2 (7 # 20) false (λ l, l)
              [example_low_query] example_old_pred)
    as (_ & Hall & _).
  destruct Hall as [Hc Hfilter]; [|reflexivity..|].
  { repeat constructor. by vm_compute. }
  split; [exact Hc|].
  destruct Hfilter as (_ & Hlab & _); [done|exact Hlab].
Defined.

(** ** Further properties of the pseudo-label generator *)


Section Ownership.
Variables H W : nat.

(** A set pixel of the [k]-th subtracted mask is a pixel the argmax gave
    to prediction [k]. *)
Lemma non_ol_masks_owner gt_masks old_scores old_masks k m i j :
  non_ol_masks H W gt_masks old_scores old_masks !! k = Some m →
  pix m i j = Some true →
  pix (mask_ids old_scores old_masks) i j = Some k.
Proof.
  unfold non_ol_masks, owned_masks.
  rewrite list_lookup_fmap, list_lookup_imap.
  destruct (old_masks !! k) as [om|]; simpl; [|done].
  intros [= <-] Hp.
  apply pix_logical_and_true in Hp as [Hp _].
  apply pix_logical_and_true in Hp as [Hp _].
  rewrite pix_rmap in Hp.
  destruct (pix (mask_ids old_scores old_masks) i j) as [id|]; simpl in Hp;
    [|done].
  injection Hp as Hid. apply Nat.eqb_eq in Hid. by subst.
Qed.

Lemma non_ol_masks_pairwise_disjoint gt_masks old_scores old_masks
    k k' m m' i j :
  k ≠ k' →
  non_ol_masks H W gt_masks old_scores old_masks !! k = Some m →
  non_ol_masks H W gt_masks old_scores old_masks !! k' = Some m' →
  pix m i j = Some true → pix m' i j = Some true → False.
Proof.
  intros Hne Hk Hk' Hp Hp'.
  pose proof (non_ol_masks_owner _ _ _ _ _ _ _ Hk Hp) as Ho.
  pose proof (non_ol_masks_owner _ _ _ _ _ _ _ Hk' Hp') as Ho'.
  congruence.
Qed.

(** A set pixel of a per-class union comes from a surviving mask carrying
    that class. *)
Lemma label_mask_from_labelled psd_labels select_masks label i j :
  pix (label_mask H W psd_labels select_masks label) i j = Some true →
  ∃ k m, select_masks !! k = Some m ∧ psd_labels !! k = Some label ∧
         pix m i j = Some true.
Proof.
  unfold label_mask. rewrite !pix_rmap. intros Hp.
  destruct (pix (sum0 _ _ _) i j) as [z|] eqn:Hz; simpl in Hp; [|done].
  assert (z ≠ 0) as Hne.
  { intros ->. by vm_compute in Hp. }
  destruct (pix_sum0_nonzero _ _ _ _ _ _ Hz Hne) as (t & v & Ht & Hv & Hvne).
  apply list_elem_of_fmap in Ht as (m & -> & Hm).
  apply list_elem_of_lookup in Hm as [a Ha].
  apply select_lookup in Ha as (k & Hk & Hkeep).
  rewrite list_lookup_fmap in Hkeep.
  destruct (psd_labels !! k) as [l|] eqn:Hl; simpl in Hkeep; [|done].
  injection Hkeep as Heq. apply Z.eqb_eq in Heq. subst l.
  exists k, m. split; [done|]. split; [done|].
  rewrite pix_rmap in Hv.
  destruct (pix m i j) as [[]|]; simpl in Hv; [done| |done].
  by injection Hv as <-.
Qed.
End Ownership.

(** X1. Pseudo masks of one image never share a pixel: two different
    entries of an emitted pseudo target have an empty intersection, in the
    per-prediction mode (each pixel belongs to the prediction that wins the
    argmax) as in the [combine_psdlabel] mode (the unioned classes are
    distinct). *)
Theorem psd_masks_pairwise_disjoint
    (H W : nat) (psd_overlap_threshold : float) (combine_psdlabel : bool)
    (mask_boxes : list (raster bool) → nat * nat → list box)
    (gt_targets : list target) (old_preds : list prediction)
    (gt_instances : list (nat * nat)) (strict_mode : bool)
    (i : nat) (psd_target : target) (a b : nat) (m m' : raster bool) :
  (generate_psd_targets H W psd_overlap_threshold combine_psdlabel mask_boxes
     gt_targets old_preds gt_instances strict_mode).1 !! i = Some psd_target →
  masks psd_target !! a = Some m →
  masks psd_target !! b = Some m' →
  a ≠ b →
  area (logical_and m m') = 0.
Proof.
  intros Hp Ha Hb Hab.
  apply generate_psd_targets_lookup in Hp as (g & o & sz & _ & _ & ->).
  apply area_all_zero. intros x y Hxy.
  apply pix_logical_and_true in Hxy as [Hm Hm'].
  revert Ha Hb. unfold generate_psd_image.
  set (c := candidates strict_mode o).
  destruct (length (p_masks c) =? 0)%nat eqn:Hlen; cbn [fst masks].
  { apply Nat.eqb_eq, nil_length_inv in Hlen. by rewrite Hlen. }
  set (non_ol := non_ol_masks H W (masks g) (p_scores c) (p_masks c)).
  set (keep := area_keep H W psd_overlap_threshold strict_mode (masks g)
                 (p_scores c) (p_masks c)).
  assert (∀ k k' n n', k ≠ k' → select keep non_ol !! k = Some n →
            select keep non_ol !! k' = Some n' →
            pix n x y = Some true → pix n' x y = Some true → False) as Hsel.
  { assert (∀ k k' n n', (k < k')%nat → select keep non_ol !! k = Some n →
              select keep non_ol !! k' = Some n' →
              pix n x y = Some true → pix n' x y = Some true → False) as Hlt.
    { intros k k' n n' Hkk Hn Hn' Hpn Hpn'.
      destruct (select_lookup_lt keep non_ol k k' n n' Hkk Hn Hn')
        as (ka & kb & Hlt & Hka & Hkb & _).
      eapply (non_ol_masks_pairwise_disjoint H W _ _ _ ka kb);
        [lia|done..]. }
    intros k k' n n' Hne Hn Hn' Hpn Hpn'.
    destruct (decide (k < k')%nat); [by eapply (Hlt k k')|].
    eapply (Hlt k' k); [lia|done..]. }
  destruct combine_psdlabel; cbn [fst masks].
  - match goal with |- context [(0 <? ?n)%nat] =>
      destruct (0 <? n)%nat end; cbn [fst masks]; [|done].
    rewrite !list_lookup_fmap.
    set (psd_labels := select keep (p_labels c)).
    destruct (unique psd_labels !! a) as [la|] eqn:Hla; simpl; [|done].
    destruct (unique psd_labels !! b) as [lb|] eqn:Hlb; simpl; [|done].
    intros [= <-] [= <-].
    assert (la ≠ lb) as Hlab.
    { intros ->. apply Hab.
      eapply NoDup_lookup; [|exact Hla|exact Hlb].
      unfold unique. rewrite merge_sort_Permutation.
      apply NoDup_remove_dups. }
    apply label_mask_from_labelled in Hm as (k & n & Hn & Hk & Hpn).
    apply label_mask_from_labelled in Hm' as (k' & n' & Hn' & Hk' & Hpn').
    eapply (Hsel k k' n n'); [congruence|done..].
  - intros Ha Hb. by eapply (Hsel a b m m').
Qed.

Lemma psd_masks_pairwise_disjoint_witness :
  area (logical_and [[true; false]] [[false; true]]) = 0.
Proof.
  apply (psd_masks_pairwise_disjoint 1 2 (f64_ratio 2 5) false unit_boxes
           [ {| labels := []; masks := []; boxes := [] |} ]
           [ {| p_labels := [1; 2];
                p_masks := [[[9 # 10; 1 # 10]%Q]; [[1 # 10; 9 # 10]%Q]];
                p_scores := [4 # 5; 4 # 5]%Q;
                p_boxes := [(0, 0, 0, 0); (0, 0, 0, 0)]%Q |} ]
           [(1, 2)%nat] false 0
           {| labels := [1; 2]; masks := [[[true; false]]; [[false; true]]];
              boxes := [(0, 0, 0, 0); (0, 0, 0, 0)]%Q |} 0 1).
  - vm_compute. reflexivity.
  - reflexivity.
  - reflexivity.
  - discriminate.
Defined.

Section Emitted.
Variables H W : nat.
Variable psd_overlap_threshold : float.
Variable mask_boxes : list (raster bool) → nat * nat → list box.

Lemma generate_psd_image_labels_old combine sz g o strict l :
  l ∈ labels (generate_psd_image H W psd_overlap_threshold combine mask_boxes
                sz g o strict).1 →
  l ∈ p_labels o.
Proof.
  unfold generate_psd_image.
  destruct (length (p_masks (candidates strict o)) =? 0)%nat;
    cbn [fst labels].
  - unfold candidates. cbn [p_labels]. apply elem_of_select.
  - assert (l ∈ select (area_keep H W psd_overlap_threshold strict (masks g)
                          (p_scores (candidates strict o))
                          (p_masks (candidates strict o)))
                       (p_labels (candidates strict o)) → l ∈ p_labels o)
      as Hsel.
    { intros Hl%elem_of_select. unfold candidates in Hl. cbn [p_labels] in Hl.
      by apply elem_of_select in Hl. }
    destruct combine; cbn [fst labels]; [|done].
    assert (l ∈ unique (select (area_keep H W psd_overlap_threshold strict
                                  (masks g) (p_scores (candidates strict o))
                                  (p_masks (candidates strict o)))
                               (p_labels (candidates strict o))) →
            l ∈ p_labels o) as Huniq.
    { unfold unique. rewrite merge_sort_Permutation, elem_of_remove_dups.
      done. }
    by destruct (0 <? _)%nat.
Qed.

Lemma generate_psd_image_lengths combine sz g o strict :
  length (p_labels o) = length (p_masks o) →
  let p := (generate_psd_image H W psd_overlap_threshold combine mask_boxes
              sz g o strict).1 in
  length (labels p) = length (masks p).
Proof.
  intros Hlen. unfold generate_psd_image.
  assert (length (p_labels (candidates strict o))
          = length (p_masks (candidates strict o))) as Hc.
  { unfold candidates. cbn [p_labels p_masks]. by apply length_select_same. }
  destruct (length (p_masks (candidates strict o)) =? 0)%nat eqn:H0;
    cbn [fst labels masks].
  - by rewrite length_fmap.
  - destruct combine; cbn [fst labels masks].
    + destruct (0 <? _)%nat eqn:Hpos; cbn [labels masks].
      * by rewrite length_fmap.
      * apply Nat.ltb_ge in Hpos. rewrite length_fmap in Hpos.
        cbn [length]. lia.
    + apply length_select_same. unfold non_ol_masks, owned_masks.
      by rewrite length_fmap, length_imap.
Qed.

Lemma generate_psd_image_combined_sorted sz g o strict :
  let p := (generate_psd_image H W psd_overlap_threshold true mask_boxes
              sz g o strict).1 in
  p_masks (candidates strict o) ≠ [] →
  NoDup (labels p) ∧ Sorted Z.le (labels p).
Proof.
  intros p Hne. subst p. unfold generate_psd_image.
  destruct (p_masks (candidates strict o)) as [|m0 ms] eqn:Hc; [done|].
  cbn [length Nat.eqb fst].
  assert (∀ ls, NoDup (unique ls) ∧ Sorted Z.le (unique ls)) as Huniq.
  { intros ls. unfold unique. split.
    - rewrite merge_sort_Permutation. apply NoDup_remove_dups.
    - apply (Sorted_merge_sort Z.le). }
  by destruct (0 <? _)%nat; cbn [labels].
Qed.
End Emitted.

(** X2. A pseudo target only carries classes the old model predicted for
    that image, and as many labels as masks whenever the prediction has as
    many labels as masks; in the [combine_psdlabel] mode, when a prediction
    passes the score gate, its labels are pairwise different and
    ascending. *)
Theorem psd_target_labels_well_formed
    (H W : nat) (psd_overlap_threshold : float) (combine_psdlabel : bool)
    (mask_boxes : list (raster bool) → nat * nat → list box)
    (gt_targets : list target) (old_preds : list prediction)
    (gt_instances : list (nat * nat)) (strict_mode : bool)
    (i : nat) (psd_target : target) (old_pred : prediction) :
  (generate_psd_targets H W psd_overlap_threshold combine_psdlabel mask_boxes
     gt_targets old_preds gt_instances strict_mode).1 !! i = Some psd_target →
  old_preds !! i = Some old_pred →
  (∀ l, l ∈ labels psd_target → l ∈ p_labels old_pred) ∧
  (length (p_labels old_pred) = length (p_masks old_pred) →
   length (labels psd_target) = length (masks psd_target)) ∧
  (combine_psdlabel = true →
   p_masks (candidates strict_mode old_pred) ≠ [] →
   NoDup (labels psd_target) ∧ Sorted Z.le (labels psd_target)).
Proof.
  intros Hp Ho.
  apply generate_psd_targets_lookup in Hp as (g & o & sz & _ & Ho' & ->).
  assert (o = old_pred) as -> by congruence.
  split; [|split].
  - intros l. apply generate_psd_image_labels_old.
  - apply generate_psd_image_lengths.
  - intros -> Hne. by apply generate_psd_image_combined_sorted.
Qed.

Lemma psd_target_labels_well_formed_witness :
  (∀ l, l ∈ labels example_combined_psd → l ∈ p_labels example_three_pred) ∧
  length (labels example_combined_psd) = length (masks example_combined_psd) ∧
  NoDup (labels example_combined_psd) ∧
  Sorted Z.le (labels example_combined_psd).
Proof.
  destruct (psd_target_labels_well_formed 1 3 (f64_ratio 2 5) true unit_boxes
              [example_no_gt] [example_three_pred] [(1, 3)%nat] false 0
              example_combined_psd example_three_pred)
    as (Hsub & Hlen & Hsorted).
  - vm_compute. reflexivity.
  - reflexivity.
  - split; [exact Hsub|]. split; [by apply Hlen|].
    apply Hsorted; [reflexivity|]. by vm_compute.
Defined.

(** *** Shapes *)

Lemma has_shape_foldl_add h w (ts : list (raster Z)) : ∀ acc,
  has_shape h w acc → Forall (has_shape h w) ts →
  has_shape h w (foldl (rzip Z.add) acc ts).
Proof.
  induction ts as [|t ts IH]; intros acc Hacc Hts; simpl; [done|].
  apply Forall_cons in Hts as [Ht Hts].
  apply IH; [by apply has_shape_rzip|done].
Qed.

Lemma has_shape_sum0 h w (ts : list (raster Z)) :
  Forall (has_shape h w) ts → has_shape h w (sum0 h w ts).
Proof. apply has_shape_foldl_add, has_shape_zeros. Qed.

Lemma has_shape_argmax_from h w (t : list (raster Q)) : ∀ k best,
  has_shape h w best → Forall (has_shape h w) t →
  has_shape h w (argmax_from k best t).
Proof.
  induction t as [|m t IH]; intros k best Hb Ht; simpl; [done|].
  apply Forall_cons in Ht as [Hm Ht].
  apply IH; [by apply has_shape_rzip|done].
Qed.

Lemma has_shape_argmax0 h w (t : list (raster Q)) :
  t ≠ [] → Forall (has_shape h w) t → has_shape h w (argmax0 t).
Proof.
  destruct t as [|m t]; [done|]. intros _ [Hm Ht]%Forall_cons. simpl.
  apply has_shape_rmap, has_shape_argmax_from; [|done].
  by apply has_shape_rmap.
Qed.

Lemma Forall_select {A} (P : A → Prop) (keep : list bool) (xs : list A) :
  Forall P xs → Forall P (select keep xs).
Proof.
  rewrite !Forall_forall. intros Hxs x Hx%elem_of_select. auto.
Qed.

Section Shapes.
Variables H W : nat.

Lemma has_shape_mask_ids old_scores old_masks :
  old_masks ≠ [] → length old_scores = length old_masks →
  Forall (has_shape H W) old_masks →
  has_shape H W (mask_ids old_scores old_masks).
Proof.
  intros Hne Hlen Hshape. unfold mask_ids, prob_masks.
  apply has_shape_argmax0.
  - destruct old_masks, old_scores; done.
  - apply Forall_lookup. intros k r. rewrite lookup_zip_with.
    destruct (old_scores !! k); simpl; [|done].
    destruct (old_masks !! k) as [m|] eqn:Hm; simpl; [|done].
    intros [= <-]. apply has_shape_rmap.
    by eapply Forall_lookup_1.
Qed.

Lemma has_shape_gt_region gt_masks :
  Forall (has_shape H W) gt_masks → has_shape H W (gt_region H W gt_masks).
Proof.
  intros Hg. unfold gt_region. apply has_shape_rmap, has_shape_sum0.
  apply Forall_fmap. eapply Forall_impl; [exact Hg|].
  intros m Hm. by apply has_shape_rmap.
Qed.

Lemma has_shape_non_ol_masks gt_masks old_scores old_masks :
  length old_scores = length old_masks →
  Forall (has_shape H W) old_masks →
  Forall (has_shape H W) gt_masks →
  Forall (has_shape H W) (non_ol_masks H W gt_masks old_scores old_masks).
Proof.
  intros Hlen Hold Hgt. unfold non_ol_masks, owned_masks.
  apply Forall_lookup. intros k m.
  rewrite list_lookup_fmap, list_lookup_imap.
  destruct (old_masks !! k) as [om|] eqn:Hom; simpl; [|done].
  intros [= <-].
  assert (old_masks ≠ []) as Hne by (by intros ->).
  unfold logical_and, logical_not. apply has_shape_rzip.
  - apply has_shape_rzip.
    + by apply has_shape_rmap, has_shape_mask_ids.
    + apply has_shape_rmap. by eapply Forall_lookup_1.
  - by apply has_shape_rmap, has_shape_gt_region.
Qed.

Lemma has_shape_label_mask psd_labels select_masks label :
  Forall (has_shape H W) select_masks →
  has_shape H W (label_mask H W psd_labels select_masks label).
Proof.
  intros Hs. unfold label_mask.
  do 2 apply has_shape_rmap. apply has_shape_sum0.
  apply Forall_fmap. eapply Forall_impl; [by apply Forall_select|].
  intros m Hm. by apply has_shape_rmap.
Qed.
End Shapes.

(** X3. Pseudo masks keep the raster resolution of the batch: when the
    old-model masks and the target masks of an image are all [H x W] and
    the prediction has one score per mask, every emitted pseudo mask is
    [H x W]. *)
Theorem psd_masks_keep_canvas_shape
    (H W : nat) (psd_overlap_threshold : float) (combine_psdlabel : bool)
    (mask_boxes : list (raster bool) → nat * nat → list box)
    (gt_targets : list target) (old_preds : list prediction)
    (gt_instances : list (nat * nat)) (strict_mode : bool)
    (i : nat) (psd_target gt_target : target) (old_pred : prediction) :
  (generate_psd_targets H W psd_overlap_threshold combine_psdlabel mask_boxes
     gt_targets old_preds gt_instances strict_mode).1 !! i = Some psd_target →
  gt_targets !! i = Some gt_target →
  old_preds !! i = Some old_pred →
  length (p_scores old_pred) = length (p_masks old_pred) →
  Forall (has_shape H W) (p_masks old_pred) →
  Forall (has_shape H W) (masks gt_target) →
  Forall (has_shape H W) (masks psd_target).
Proof.
  intros Hp Hg Ho Hlen Hold Hgt.
  apply generate_psd_targets_lookup in Hp as (g & o & sz & Hg' & Ho' & ->).
  assert (g = gt_target) as -> by congruence.
  assert (o = old_pred) as -> by congruence.
  unfold generate_psd_image.
  set (c := candidates strict_mode old_pred).
  assert (length (p_scores c) = length (p_masks c)) as Hlenc.
  { unfold c, candidates. cbn [p_scores p_masks]. by apply length_select_same. }
  assert (Forall (has_shape H W) (p_masks c)) as Hc.
  { unfold c, candidates. cbn [p_masks]. by apply Forall_select. }
  destruct (length (p_masks c) =? 0)%nat eqn:H0; cbn [fst masks].
  - apply Nat.eqb_eq, nil_length_inv in H0. by rewrite H0.
  - assert (Forall (has_shape H W)
              (select (area_keep H W psd_overlap_threshold strict_mode
                         (masks gt_target) (p_scores c) (p_masks c))
                      (non_ol_masks H W (masks gt_target) (p_scores c)
                         (p_masks c)))) as Hsel.
    { by apply Forall_select, has_shape_non_ol_masks. }
    destruct combine_psdlabel; cbn [fst masks]; [|done].
    destruct (0 <? _)%nat; cbn [masks]; [|done].
    apply Forall_fmap, Forall_forall. intros l _.
    by apply has_shape_label_mask.
Qed.

Lemma psd_masks_keep_canvas_shape_witness :
  Forall (has_shape 1 3) (masks example_combined_psd).
Proof.
  apply (psd_masks_keep_canvas_shape 1 3 (f64_ratio 2 5) true unit_boxes
           [example_no_gt] [example_three_pred] [(1, 3)%nat] false 0
           example_combined_psd example_no_gt example_three_pred).
  - vm_compute. reflexivity.
  - reflexivity.
  - reflexivity.
  - reflexivity.
  - repeat constructor.
  - constructor.
Defined.

Lemma generate_psd_targets_lookup_Some H W thr combine mask_boxes gt_targets :
  ∀ old_preds gt_instances strict_mode i g o,
  gt_targets !! i = Some g → old_preds !! i = Some o →
  ∃ sz,
    (generate_psd_targets H W thr combine mask_boxes gt_targets old_preds
       gt_instances strict_mode).1 !! i
    = Some (generate_psd_image H W thr combine mask_boxes sz g o strict_mode).1.
Proof.
  induction gt_targets as [|g0 gts IH]; intros [|o0 ops] insts strict i g o;
    simpl; try done.
  destruct (generate_psd_image _ _ _ _ _ _ g0 o0 strict) as [p0 q0] eqn:Himg.
  destruct (generate_psd_targets _ _ _ _ _ gts ops _ strict) as [ps os]
    eqn:Hrec.
  destruct i as [|i]; simpl.
  - intros [= <-] [= <-]. exists (default (0%nat, 0%nat) (head insts)).
    by rewrite Himg.
  - intros Hg Ho.
    destruct (IH ops (tail insts) strict i g o Hg Ho) as [sz Hsz].
    exists sz. by rewrite Hrec in Hsz.
Qed.

(** X4. An image for which the old model hands over no prediction gets an
    empty pseudo target (no labels, masks or boxes) instead of an error,
    and the complete target the loss then uses for it is the real target,
    memory image or not. *)
Theorem no_prediction_gives_empty_pseudo_target
    (H W : nat) (psd_overlap_threshold : float) (combine_psdlabel : bool)
    (mask_boxes : list (raster bool) → nat * nat → list box)
    (current_catagory_ids : list Z)
    (targets : list target) (old_preds : list prediction)
    (gt_instances : list (nat * nat)) (strict_mode : bool)
    (i : nat) (t : target) (old_pred : prediction) :
  targets !! i = Some t →
  old_preds !! i = Some old_pred →
  p_scores old_pred = [] →
  let generated :=
    generate_psd_targets H W psd_overlap_threshold combine_psdlabel
      mask_boxes targets old_preds gt_instances strict_mode in
  generated.1 !! i = Some {| labels := []; masks := []; boxes := [] |} ∧
  complete_psd_targets current_catagory_ids targets (Some generated.1)
    (Some generated.2) !! i = Some t.
Proof.
  intros Ht Ho Hs generated.
  destruct (generate_psd_targets_lookup_Some H W psd_overlap_threshold
              combine_psdlabel mask_boxes targets old_preds gt_instances
              strict_mode i t old_pred Ht Ho) as [sz Hsz].
  assert ((generate_psd_image H W psd_overlap_threshold combine_psdlabel
             mask_boxes sz t old_pred strict_mode).1
          = {| labels := []; masks := []; boxes := [] |}) as Himg.
  { unfold generate_psd_image, candidates, score_keep. rewrite Hs.
    by destruct strict_mode. }
  rewrite Himg in Hsz. split; [exact Hsz|].
  rewrite (complete_psd_targets_lookup _ _ _ _ _ _ _ Hsz Ht).
  destruct (is_memory_image current_catagory_ids t); [done|].
  by destruct t.
Qed.

Lemma no_prediction_gives_empty_pseudo_target_witness :
  complete_psd_targets [5; 6] [example_gt]
    (Some (generate_psd_targets 1 2 (f64_ratio 2 5) false unit_boxes [example_gt]
             [ {| p_labels := []; p_masks := []; p_scores := [];
                  p_boxes := [] |} ] [(1, 2)%nat] false).1)
    (Some (generate_psd_targets 1 2 (f64_ratio 2 5) false unit_boxes [example_gt]
             [ {| p_labels := []; p_masks := []; p_scores := [];
                  p_boxes := [] |} ] [(1, 2)%nat] false).2)
    !! 0%nat = Some example_gt.
Proof.
  apply (no_prediction_gives_empty_pseudo_target 1 2 (f64_ratio 2 5) false unit_boxes
           [5; 6] [example_gt]
           [ {| p_labels := []; p_masks := []; p_scores := [];
                p_boxes := [] |} ] [(1, 2)%nat] false 0 example_gt
           {| p_labels := []; p_masks := []; p_scores := []; p_boxes := [] |});
    reflexivity.
Defined.

(** ** Index bookkeeping of the losses *)

Lemma permutation_idx_from_spec (parts : list (list Z)) : ∀ i batch_idx idx,
  permutation_idx_from i parts = (batch_idx, idx) →
  length batch_idx = length idx ∧
  length idx = sum_list (length <$> parts) ∧
  (∀ p b s, batch_idx !! p = Some b → idx !! p = Some s →
     ∃ k part, b = Z.of_nat (i + k) ∧ parts !! k = Some part ∧ s ∈ part) ∧
  (∀ k part s, parts !! k = Some part → s ∈ part →
     ∃ p, batch_idx !! p = Some (Z.of_nat (i + k)) ∧ idx !! p = Some s).
Proof.
  induction parts as [|part rest IH]; intros i batch_idx idx; simpl.
  - intros [= <- <-]. repeat split; try done.
  - destruct (permutation_idx_from (S i) rest) as [bs ss] eqn:Hrest.
    intros [= <- <-].
    destruct (IH (S i) bs ss Hrest) as (Hlen & Hsum & Hin & Hall).
    split; [by rewrite !length_app, length_fmap, Hlen|].
    split; [by rewrite length_app, Hsum|]. split.
    + intros p b s Hb Hs.
      destruct (decide (p < length part)%nat) as [Hlt|Hge].
      * rewrite lookup_app_l in Hb by (by rewrite length_fmap).
        rewrite lookup_app_l in Hs by done.
        rewrite list_lookup_fmap, Hs in Hb. injection Hb as <-.
        exists 0%nat, part. split; [f_equal; lia|]. split; [done|].
        by eapply list_elem_of_lookup_2.
      * rewrite lookup_app_r in Hb by (rewrite length_fmap; lia).
        rewrite lookup_app_r in Hs by lia.
        rewrite length_fmap in Hb.
        destruct (Hin _ _ _ Hb Hs) as (k & part' & -> & Hk & Hsin).
        exists (S k), part'. split; [f_equal; lia|]. done.
    + intros [|k] part' s Hk Hs; simpl in Hk.
      * injection Hk as <-. apply list_elem_of_lookup in Hs as [p Hp].
        exists p. pose proof (lookup_lt_Some _ _ _ Hp) as Hlt. split.
        -- rewrite lookup_app_l by (by rewrite length_fmap).
           rewrite list_lookup_fmap, Hp. simpl. f_equal. f_equal. lia.
        -- by rewrite lookup_app_l.
      * destruct (Hall k part' s Hk Hs) as (p & Hb & Hp).
        exists (length part + p)%nat. split.
        -- rewrite lookup_app_r by (rewrite length_fmap; lia).
           rewrite length_fmap.
           replace (length part + p - length part)%nat with p by lia.
           rewrite Hb. f_equal. f_equal. lia.
        -- rewrite lookup_app_r by lia.
           by replace (length part + p - length part)%nat with p by lia.
Qed.

(** X5. For a non-empty batch, [_get_src_permutation_idx] returns two
    index tensors of the same length, the total number of matched queries;
    position by position they pair an image index with a query matched in
    that image, and every matched query of every image occurs among the
    pairs. *)
Theorem src_permutation_idx_pairs_images_with_matches
    (indices : list indice) (batch_idx src_idx : list Z) :
  _get_src_permutation_idx indices = Some (batch_idx, src_idx) →
  length batch_idx = length src_idx ∧
  length src_idx = sum_list ((λ ind, length ind.1) <$> indices) ∧
  (∀ p b s, batch_idx !! p = Some b → src_idx !! p = Some s →
     ∃ k ind, b = Z.of_nat k ∧ indices !! k = Some ind ∧ s ∈ ind.1) ∧
  (∀ k ind s, indices !! k = Some ind → s ∈ ind.1 →
     ∃ p, batch_idx !! p = Some (Z.of_nat k) ∧ src_idx !! p = Some s).
Proof.
  unfold _get_src_permutation_idx. intros Hidx.
  assert (permutation_idx_from 0 (fst <$> indices) = (batch_idx, src_idx))
    as Hfrom by (destruct indices; [done|by injection Hidx]).
  destruct (permutation_idx_from_spec _ _ _ _ Hfrom)
    as (Hlen & Hsum & Hin & Hall).
  split; [done|]. split; [by rewrite Hsum, <- list_fmap_compose|]. split.
  - intros p b s Hb Hs.
    destruct (Hin _ _ _ Hb Hs) as (k & part & -> & Hk & Hsin).
    apply list_lookup_fmap_Some in Hk as (ind & -> & Hind).
    by exists k, ind.
  - intros k ind s Hk Hs. apply (Hall k ind.1 s); [|done].
    exact (list_lookup_fmap_Some_2 fst _ _ _ Hk).
Qed.

Lemma src_permutation_idx_pairs_images_with_matches_witness :
  _get_src_permutation_idx [([4; 9], [1; 0]); ([7], [0])]
    = Some ([0; 0; 1], [4; 9; 7]) ∧
  length [0; 0; 1] = length [4; 9; 7].
Proof.
  split; [reflexivity|].
  by destruct (src_permutation_idx_pairs_images_with_matches
                 [([4; 9], [1; 0]); ([7], [0])] [0; 0; 1] [4; 9; 7] eq_refl)
    as [Hlen _].
Defined.

(** ** More on the matching adapter *)

Lemma NoDup_offsets (f : nat → Z) (n : nat) :
  (∀ i j, f i = f j → i = j) → NoDup (f <$> seq 0 n).
Proof.
  intros Hinj. apply NoDup_fmap_2_strong; [|apply NoDup_seq].
  intros i j _ _. apply Hinj.
Qed.

Lemma new_indice_src_NoDup (vq_number : nat) (ind : indice) :
  NoDup ind.1 → (∀ s, s ∈ ind.1 → 0 ≤ s < 100) →
  NoDup (new_indice vq_number ind).1.
Proof.
  intros Hsrc Hrange. unfold new_indice. simpl.
  apply NoDup_app. split; [done|]. split.
  - intros s Hs (i & -> & _)%list_elem_of_fmap.
    specialize (Hrange _ Hs). lia.
  - apply NoDup_offsets. intros i j. lia.
Qed.

Lemma new_indice_tgt_NoDup (vq_number : nat) (ind : indice) :
  NoDup ind.2 → NoDup (new_indice vq_number ind).2.
Proof.
  intros Htgt. unfold new_indice. simpl.
  apply NoDup_app. split; [done|]. split.
  - intros t Ht (i & -> & _)%list_elem_of_fmap.
    apply max_indice_ge in Ht. lia.
  - apply NoDup_offsets. intros i j. lia.
Qed.

(** X6. The adapter keeps a match a one-to-one pairing: when the matched
    query indices are pairwise different and point into the 100 real slots,
    and the matched target indices are pairwise different, the extended
    query indices are pairwise different and so are the extended target
    indices; no synthetic slot is paired with a target a real query has. *)
Theorem new_indice_stays_one_to_one (vq_number : nat) (ind : indice) :
  NoDup ind.1 → NoDup ind.2 →
  (∀ s, s ∈ ind.1 → 0 ≤ s < 100) →
  NoDup (new_indice vq_number ind).1 ∧ NoDup (new_indice vq_number ind).2.
Proof.
  intros Hsrc Htgt Hrange. split.
  - by apply new_indice_src_NoDup.
  - by apply new_indice_tgt_NoDup.
Qed.

Lemma new_indice_stays_one_to_one_witness :
  NoDup (new_indice 3 ([4; 9], [1; 0])).1 ∧
  NoDup (new_indice 3 ([4; 9], [1; 0])).2.
Proof.
  apply (new_indice_stays_one_to_one 3 ([4; 9], [1; 0])).
  - by apply (bool_decide_unpack _).
  - by apply (bool_decide_unpack _).
  - intros s [->|[->|[]%elem_of_nil]%elem_of_cons]%elem_of_cons; lia.
Defined.

(** *** When the loss raises *)

Section Raises.
Context {slot : Type}.
Variable current_catagory_ids : list Z.
Variable vq_number : nat.
Variable kd_temperature kd_temperature2 : Q.
Variable kd_decoder : bool.
Variable losses : list loss_name.
Variable matcher : gmap string (list slot) → list target → list indice.

Lemma modify_None indices targets fake_query_labels :
  _modify_indices_targets_for_fake_query vq_number indices targets
    fake_query_labels = None ↔
  ∃ fqls, fake_query_labels = Some fqls ∧
          ¬ (length fqls = length targets ∧ length targets = length indices).
Proof.
  unfold _modify_indices_targets_for_fake_query.
  destruct fake_query_labels as [fqls|].
  - destruct (decide _) as [Hlen|Hlen]; split; try done.
    + by intros (? & [= <-] & ?).
    + intros _. by exists fqls.
  - split; [done|]. by intros (? & ? & _).
Qed.

Lemma scope_losses_raises s kd complete indices fql ls :
  labels_loss ∈ ls →
  _modify_indices_targets_for_fake_query vq_number indices complete fql
    = None →
  scope_losses (slot:=slot) vq_number s kd complete indices fql ls = None.
Proof.
  intros Hin Hm. induction ls as [|l ls IH]; [by apply elem_of_nil in Hin|].
  cbn [scope_losses].
  apply elem_of_cons in Hin as [<-|Hin].
  - by rewrite Hm.
  - rewrite (IH Hin). destruct l; cbn [mbind option_bind]; try done.
    by destruct (_modify_indices_targets_for_fake_query _ _ _ _).
Qed.

Lemma forward_raises out targets psd old fqls :
  labels_loss ∈ losses →
  length fqls ≠ length (complete_psd_targets current_catagory_ids targets
                          psd old) →
  forward current_catagory_ids vq_number kd_temperature kd_temperature2
    kd_decoder losses matcher out targets psd old (Some fqls) = None.
Proof.
  intros Hin Hlen. unfold forward, scope_forward.
  rewrite scope_losses_raises; [done|done|].
  apply modify_None. exists fqls. split; [done|]. by intros [? _].
Qed.
End Raises.

(** X7. When ['labels'] is among the losses and the synthetic labels
    passed to the loss do not have one row per image of the complete
    target, [forward] raises (the length assertion of the adapter, reached
    in the primary scope), whatever the matcher returns. *)
Theorem forward_raises_on_label_rows_mismatch {slot : Type}
    (current_catagory_ids : list Z) (vq_number : nat)
    (kd_temperature kd_temperature2 : Q) (kd_decoder : bool)
    (losses : list loss_name)
    (matcher : gmap string (list slot) → list target → list indice)
    (out : outputs) (targets : list target)
    (psd_targets old_targets : option (list target))
    (fqls : list (list Z)) :
  labels_loss ∈ losses →
  length fqls ≠ length (complete_psd_targets current_catagory_ids targets
                          psd_targets old_targets) →
  forward current_catagory_ids vq_number kd_temperature kd_temperature2
    kd_decoder losses matcher out targets psd_targets old_targets
    (Some fqls) = None.
Proof. apply forward_raises. Qed.

Lemma forward_raises_on_label_rows_mismatch_witness :
  forward [5; 6] 3 (1 # 10) (1 # 5) true [labels_loss; masks_loss]
    example_matcher example_outputs [example_gt] None None (Some []) = None.
Proof.
  apply (forward_raises_on_label_rows_mismatch [5; 6] 3 (1 # 10) (1 # 5) true
           [labels_loss; masks_loss] example_matcher example_outputs
           [example_gt] None None []).
  - left.
  - simpl. lia.
Defined.

(** ** The class targets of the label loss *)

Lemma py_index_nonneg {A} (xs : list A) (i : Z) :
  0 ≤ i → py_index xs i = xs !! Z.to_nat i.
Proof.
  intros Hi. unfold py_index.
  by destruct (0 <=? i) eqn:H0; [|apply Z.leb_gt in H0; lia].
Qed.

Lemma py_set_nonneg {A} (xs xs' : list A) (i : Z) v :
  0 ≤ i → py_set xs i v = Some xs' →
  xs' = <[Z.to_nat i := v]> xs ∧ (Z.to_nat i < length xs)%nat.
Proof.
  intros Hi. unfold py_set.
  destruct (0 <=? i) eqn:H0; [|apply Z.leb_gt in H0; lia].
  destruct (Z.to_nat i <? length xs)%nat eqn:Hlt; [|done].
  apply Nat.ltb_lt in Hlt. by intros [= <-].
Qed.

(** One assignment [target_classes[b][s] = v]. *)
Lemma pix_assign (tc : raster Z) (row : list Z) b s v b' q' :
  tc !! b = Some row → (s < length row)%nat →
  pix (<[b := <[s := v]> row]> tc) b' q' =
    if decide (b' = b ∧ q' = s) then Some v else pix tc b' q'.
Proof.
  intros Hrow Hs. unfold pix.
  pose proof (lookup_lt_Some _ _ _ Hrow) as Hb.
  destruct (decide (b' = b)) as [->|Hne].
  - rewrite list_lookup_insert_eq by done. rewrite Hrow. simpl.
    destruct (decide (q' = s)) as [->|Hq].
    + rewrite decide_True by done. by apply list_lookup_insert_eq.
    + rewrite decide_False by (by intros [_ ?]).
      by apply list_lookup_insert_ne.
  - rewrite list_lookup_insert_ne by done.
    by rewrite decide_False by (by intros [? _]).
Qed.

Lemma index_put_each_spec (bs : list Z) : ∀ ss vs tc tc',
  Forall (λ b, 0 ≤ b) bs → Forall (λ s, 0 ≤ s) ss →
  index_put_each tc bs ss vs = Some tc' →
  (∀ b q, (Z.of_nat b, Z.of_nat q) ∉ zip bs ss → pix tc' b q = pix tc b q) ∧
  (NoDup (zip bs ss) →
   ∀ p b q v, bs !! p = Some (Z.of_nat b) → ss !! p = Some (Z.of_nat q) →
              vs !! p = Some v → pix tc' b q = Some v).
Proof.
  induction bs as [|b0 bs IH]; intros [|s0 ss] [|v0 vs] tc tc' Hbs Hss;
    simpl; try done.
  - intros [= <-]. split; [done|]. intros _ p b q v Hp. done.
  - apply Forall_cons in Hbs as [Hb0 Hbs]. apply Forall_cons in Hss as [Hs0 Hss].
    rewrite py_index_nonneg by done.
    destruct (tc !! Z.to_nat b0) as [row|] eqn:Hrow; simpl; [|done].
    destruct (py_set row s0 v0) as [row1|] eqn:Hrow1; simpl; [|done].
    apply py_set_nonneg in Hrow1 as [-> Hs0lt]; [|done].
    destruct (py_set tc b0 _) as [tc1|] eqn:Htc1; simpl; [|done].
    apply py_set_nonneg in Htc1 as [-> Hb0lt]; [|done].
    intros Hput. destruct (IH ss vs _ tc' Hbs Hss Hput) as [Hout Hin].
    assert (∀ b q, (Z.of_nat b, Z.of_nat q) ≠ (b0, s0) →
              pix (<[Z.to_nat b0 := <[Z.to_nat s0 := v0]> row]> tc) b q
              = pix tc b q) as Hne.
    { intros b q Hbq. rewrite (pix_assign tc row) by done.
      rewrite decide_False; [done|]. intros [-> ->]. apply Hbq.
      f_equal; lia. }
    split.
    + intros b q Hnotin. apply not_elem_of_cons in Hnotin as [Hbq Hnotin].
      rewrite Hout by done. by apply Hne.
    + intros [Hfresh Hnd]%NoDup_cons [|p] b q v; simpl.
      * intros [= ->] [= ->] [= ->]. rewrite Hout by done.
        rewrite (pix_assign tc row) by done.
        rewrite decide_True; [done|]. split; lia.
      * by apply Hin.
Qed.

Lemma expand_same {A} (n : nat) (xs : list A) :
  length xs = n → expand n xs = Some xs.
Proof. intros <-. unfold expand. by rewrite Nat.eqb_refl. Qed.

Lemma expand_lookup {A} (n : nat) (xs xs' : list A) p x :
  expand n xs = Some xs' → xs !! p = Some x → (p < n)%nat →
  xs' !! p = Some x.
Proof.
  unfold expand. destruct (length xs =? n)%nat; [by intros [= <-]|].
  destruct xs as [|y [|z xs]]; try done.
  intros [= <-] Hx Hp. destruct p as [|p]; [|done].
  injection Hx as ->. by apply lookup_replicate_2.
Qed.

(** An indexed write whose two index tensors have one length: a value
    tensor of that length is written entry by entry, a single value
    everywhere. *)
Lemma index_put_spec (bs ss vs : list Z) tc tc' :
  length bs = length ss →
  Forall (λ b, 0 ≤ b) bs → Forall (λ s, 0 ≤ s) ss →
  index_put tc bs ss vs = Some tc' →
  (∀ b q, (Z.of_nat b, Z.of_nat q) ∉ zip bs ss → pix tc' b q = pix tc b q) ∧
  (NoDup (zip bs ss) →
   ∀ p b q v, bs !! p = Some (Z.of_nat b) → ss !! p = Some (Z.of_nat q) →
              vs !! p = Some v → pix tc' b q = Some v).
Proof.
  intros Hlen Hbs Hss. unfold index_put.
  set (n := if (length bs =? 1)%nat then length ss else length bs).
  assert (n = length bs) as Hn.
  { subst n. destruct (length bs =? 1)%nat; [by rewrite Hlen|done]. }
  rewrite (expand_same n bs) by done.
  rewrite (expand_same n ss) by congruence. cbn [mbind option_bind].
  destruct (expand n vs) as [vs'|] eqn:Hvs; cbn [mbind option_bind]; [|done].
  intros Hput.
  destruct (index_put_each_spec _ _ _ _ _ Hbs Hss Hput) as [Hout Hin].
  split; [done|]. intros Hnd p b q v Hb Hs Hv.
  apply (Hin Hnd p b q v); [done..|].
  apply (expand_lookup n vs vs' p v Hvs Hv).
  rewrite Hn. by eapply lookup_lt_Some.
Qed.

(** The (image, query) pairs of a batch of one-to-one matches are pairwise
    different. *)
Lemma permutation_idx_from_NoDup (parts : list (list Z)) : ∀ i bs ss,
  permutation_idx_from i parts = (bs, ss) →
  Forall (λ part, NoDup part) parts →
  NoDup (zip bs ss) ∧ Forall (λ b, Z.of_nat i ≤ b) bs.
Proof.
  induction parts as [|part rest IH]; intros i bs ss; simpl.
  - intros [= <- <-] _. split; [constructor|done].
  - destruct (permutation_idx_from (S i) rest) as [bs' ss'] eqn:Hrest.
    intros [= <- <-] [Hpart Hparts]%Forall_cons.
    destruct (IH (S i) bs' ss' Hrest Hparts) as [Hnd Hge].
    split.
    + rewrite zip_with_app by (by rewrite length_fmap).
      apply NoDup_app. split; [|split; [|done]].
      * apply (NoDup_fmap_1 snd). rewrite snd_zip; [done|].
        by rewrite length_fmap.
      * intros [b s] Hin Hin'.
        apply elem_of_zip_l in Hin. apply elem_of_zip_l in Hin'.
        apply list_elem_of_fmap_1 in Hin as (? & -> & _).
        rewrite Forall_forall in Hge. specialize (Hge _ Hin'). lia.
    + apply Forall_app. split.
      * apply Forall_fmap, Forall_forall. intros s _. simpl. lia.
      * eapply Forall_impl; [exact Hge|]. intros b Hb. simpl in Hb. lia.
Qed.

(** Where the label of the [j]-th pair of image [k] sits among the
    assignments. *)
Lemma assignments_aligned (indices : list indice) : ∀ i targets bs ss vs,
  permutation_idx_from i (fst <$> indices) = (bs, ss) →
  target_classes_o targets indices = Some vs →
  Forall (λ ind : indice, length ind.1 = length ind.2) indices →
  ∀ k ind t j s tg,
    indices !! k = Some ind → targets !! k = Some t →
    ind.1 !! j = Some s → ind.2 !! j = Some tg →
    ∃ p l, bs !! p = Some (Z.of_nat (i + k)) ∧ ss !! p = Some s ∧
           vs !! p = Some l ∧ py_index (labels t) tg = Some l.
Proof.
  induction indices as [|ind0 indices IH]; intros i targets bs ss vs.
  { intros _ _ _ k ind t j s tg Hk. by rewrite lookup_nil in Hk. }
  destruct targets as [|t0 targets].
  { intros _ _ _ k ind t j s tg _ Ht. by rewrite lookup_nil in Ht. }
  rewrite fmap_cons. cbn [permutation_idx_from target_classes_o].
  destruct (permutation_idx_from (S i) (fst <$> indices)) as [bs' ss']
    eqn:Hrest.
  intros [= <- <-] Hvs [Hlen0 Hlens]%Forall_cons.
  destruct (py_gather (labels t0) ind0.2) as [here|] eqn:Hhere;
    simpl in Hvs; [|done].
  destruct (target_classes_o targets indices) as [rest|] eqn:Hvrest;
    simpl in Hvs; [|done].
  injection Hvs as <-.
  apply mapM_Some in Hhere.
  pose proof (Forall2_length _ _ _ Hhere) as Hlh.
  intros [|k] ind t j s tg; simpl.
  - intros [= <-] [= <-] Hs Htg.
    destruct (Forall2_lookup_l _ _ _ _ _ Hhere Htg) as (l & Hl & Hpy).
    pose proof (lookup_lt_Some _ _ _ Hs) as Hj.
    exists j, l. split; [|split; [|split; [|done]]].
    + rewrite lookup_app_l by (by rewrite length_fmap).
      rewrite list_lookup_fmap, Hs. simpl. do 2 f_equal. lia.
    + by rewrite lookup_app_l.
    + rewrite lookup_app_l; [done|]. by eapply lookup_lt_Some.
  - intros Hk Ht Hs Htg.
    destruct (IH (S i) targets bs' ss' rest Hrest Hvrest Hlens k ind t j s tg
                Hk Ht Hs Htg) as (p & l & Hb & Hss & Hv & Hpy).
    exists (length ind0.1 + p)%nat, l. split; [|split; [|split; [|done]]].
    + rewrite lookup_app_r by (rewrite length_fmap; lia).
      rewrite length_fmap.
      replace (length ind0.1 + p - length ind0.1)%nat with p by lia.
      rewrite Hb. do 2 f_equal. lia.
    + rewrite lookup_app_r by lia.
      by replace (length ind0.1 + p - length ind0.1)%nat with p by lia.
    + rewrite lookup_app_r by lia.
      by replace (length ind0.1 + p - length here)%nat with p by lia.
Qed.

Lemma pix_replicate {A} (h w : nat) (x : A) i j :
  (i < h)%nat → (j < w)%nat →
  pix (replicate h (replicate w x)) i j = Some x.
Proof.
  intros Hi Hj. unfold pix. rewrite lookup_replicate_2 by done. simpl.
  by apply lookup_replicate_2.
Qed.

Lemma target_classes_spec
    (num_classes : Z) (B Q : nat) (targets : list target)
    (indices : list indice) (tc : list (list Z)) :
  target_classes num_classes B Q targets indices = Some tc →
  Forall (λ ind : indice, NoDup ind.1 ∧ length ind.1 = length ind.2 ∧
                          Forall (λ s, 0 ≤ s) ind.1) indices →
  (∀ k ind q, indices !! k = Some ind → (k < B)%nat → (q < Q)%nat →
     Z.of_nat q ∉ ind.1 → pix tc k q = Some num_classes) ∧
  (∀ k ind t j s tg,
     indices !! k = Some ind → targets !! k = Some t →
     ind.1 !! j = Some s → ind.2 !! j = Some tg →
     ∃ l, py_index (labels t) tg = Some l ∧
          pix tc k (Z.to_nat s) = Some l).
Proof.
  unfold target_classes. intros Htc Hwf.
  destruct (_get_src_permutation_idx indices) as [[bs ss]|] eqn:Hsrc;
    simpl in Htc; [|done].
  assert (permutation_idx_from 0 (fst <$> indices) = (bs, ss)) as Hidx.
  { unfold _get_src_permutation_idx in Hsrc.
    destruct indices; [done|by injection Hsrc]. }
  destruct (target_classes_o targets indices) as [vs|] eqn:Hvs;
    simpl in Htc; [|done].
  destruct (permutation_idx_from_spec _ _ _ _ Hidx)
    as (Hlen & _ & Hfrom & _).
  destruct (permutation_idx_from_NoDup _ _ _ _ Hidx) as [Hnd Hbs].
  { apply Forall_fmap. eapply Forall_impl; [exact Hwf|]. by intros ? [? _]. }
  assert (Forall (λ s, 0 ≤ s) ss) as Hss.
  { apply Forall_lookup. intros p s Hs.
    destruct (lookup_lt_is_Some_2 bs p) as [b Hb].
    { rewrite Hlen. by eapply lookup_lt_Some. }
    destruct (Hfrom _ _ _ Hb Hs) as (k & part & _ & Hk & Hin).
    apply list_lookup_fmap_Some in Hk as (ind & -> & Hk).
    pose proof (Forall_lookup_1 _ _ _ _ Hwf Hk) as (_ & _ & Hnn).
    rewrite Forall_forall in Hnn. by apply Hnn. }
  assert (Forall (λ b, 0 ≤ b) bs) as Hbs'.
  { eapply Forall_impl; [exact Hbs|]. intros b Hb. simpl in Hb. lia. }
  destruct (index_put_spec _ _ _ _ _ Hlen Hbs' Hss Htc) as [Hout Hin].
  split.
  - intros k ind q Hk HkB HqQ Hq. rewrite Hout.
    + by apply pix_replicate.
    + intros Hzip. apply elem_of_lookup_zip_with in Hzip
        as (p & b & s & [= <- <-] & Hb & Hs).
      destruct (Hfrom _ _ _ Hb Hs) as (k' & part & Hkk & Hk' & Hsin).
      assert (k' = k) as -> by lia.
      apply list_lookup_fmap_Some in Hk' as (ind' & -> & Hk').
      assert (Some ind' = Some ind) as [= ->]
        by exact (eq_trans (eq_sym Hk') Hk).
      done.
  - intros k ind t j s tg Hk Ht Hs Htg.
    destruct (assignments_aligned indices 0 targets bs ss vs Hidx Hvs)
      with (k := k) (ind := ind) (t := t) (j := j) (s := s) (tg := tg)
      as (p & l & Hb & Hsp & Hv & Hpy); try done.
    { eapply Forall_impl; [exact Hwf|]. by intros ? (_ & ? & _). }
    exists l. split; [done|].
    pose proof (Forall_lookup_1 _ _ _ _ Hss Hsp) as Hs0. simpl in Hs0.
    apply (Hin Hnd p k (Z.to_nat s) l); [done| |done].
    rewrite Hsp. f_equal. lia.
Qed.


(** X8. When every match is a one-to-one pairing with non-negative query
    indices, the class target of the label loss is "no object"
    ([num_classes]) for every query no pair of its image mentions, and for
    the [j]-th pair of an image it is the label of the paired target. *)
Theorem label_targets_follow_the_match
    (num_classes : Z) (B Q : nat) (targets : list target)
    (indices : list indice) (tc : list (list Z)) :
  target_classes num_classes B Q targets indices = Some tc →
  Forall (λ ind : indice, NoDup ind.1 ∧ length ind.1 = length ind.2 ∧
                          Forall (λ s, 0 ≤ s) ind.1) indices →
  (∀ k ind q, indices !! k = Some ind → (k < B)%nat → (q < Q)%nat →
     Z.of_nat q ∉ ind.1 → pix tc k q = Some num_classes) ∧
  (∀ k ind t j s tg,
     indices !! k = Some ind → targets !! k = Some t →
     ind.1 !! j = Some s → ind.2 !! j = Some tg →
     ∃ l, py_index (labels t) tg = Some l ∧
          pix tc k (Z.to_nat s) = Some l).
Proof. apply target_classes_spec. Qed.

Lemma label_targets_follow_the_match_witness :
  ∃ tc,
    target_classes 150 1 4
      [ {| labels := [7; 8]; masks := []; boxes := [] |} ] [([3; 0], [1; 0])]
      = Some tc ∧
    pix tc 0 1 = Some 150 ∧
    (∃ l, py_index [7; 8] 1 = Some l ∧ pix tc 0 (Z.to_nat 3) = Some l).
Proof.
  eexists. split; [vm_compute; reflexivity|].
  destruct (label_targets_follow_the_match 150 1 4
              [ {| labels := [7; 8]; masks := []; boxes := [] |} ]
              [([3; 0], [1; 0])] [[7; 150; 150; 8]] eq_refl)
    as [Hun Hma].
  - repeat constructor; simpl; try lia; by apply (bool_decide_unpack _).
  - split.
    + apply (Hun 0%nat ([3; 0], [1; 0]) 1%nat); [reflexivity|lia|lia|].
      by apply (bool_decide_unpack _).
    + apply (Hma 0%nat ([3; 0], [1; 0])
               {| labels := [7; 8]; masks := []; boxes := [] |} 0%nat 3 1);
        reflexivity.
Defined.

Lemma onehot_row_Some (C : nat) (c : Z) (row : list Z) :
  onehot_row C c = Some row →
  0 ≤ c ≤ Z.of_nat C ∧ length row = C ∧
  ∀ j, (j < C)%nat →
    row !! j = Some (if decide (c = Z.of_nat j) then 1 else 0).
Proof.
  unfold onehot_row.
  destruct ((0 <=? c) && (c <=? Z.of_nat C)) eqn:Hr; [|done].
  apply andb_true_iff in Hr as [H0%Z.leb_le HC%Z.leb_le].
  intros [= <-]. split; [lia|]. split.
  - rewrite length_take, length_insert. cbn [length].
    rewrite length_replicate. lia.
  - intros j Hj. rewrite lookup_take_lt by done.
    rewrite list_lookup_insert. cbn [length]. rewrite length_replicate.
    destruct (decide (c = Z.of_nat j)) as [->|Hne].
    + rewrite decide_True; [done|]. split; lia.
    + rewrite decide_False by (intros [? _]; lia).
      apply (lookup_replicate_2 (S C)). lia.
Qed.

Lemma onehot_row_None (C : nat) (c : Z) :
  onehot_row C c = None ↔ ¬ (0 ≤ c ≤ Z.of_nat C).
Proof.
  unfold onehot_row.
  destruct ((0 <=? c) && (c <=? Z.of_nat C)) eqn:Hr.
  - apply andb_true_iff in Hr as [H0%Z.leb_le HC%Z.leb_le].
    split; [done|]. intros Hno. exfalso. apply Hno. lia.
  - split; [|done]. intros _ [H0 HC].
    apply andb_false_iff in Hr as [Hr|Hr]; apply Z.leb_gt in Hr; lia.
Qed.

(** X9. The one-hot label target exists exactly when every class in
    [target_classes] is a column index between 0 and [C], the width of the
    logits ([C] itself standing for "no object"); otherwise the scatter
    raises.  When it exists, the row of a query holds a single 1, at its
    class, and a query whose class is [C] gets a row of zeros. *)
Theorem onehot_targets_one_per_class
    (num_classes : Z) (B Q C : nat) (targets : list target)
    (indices : list indice) (tc : list (list Z)) :
  target_classes num_classes B Q targets indices = Some tc →
  (target_classes_onehot num_classes B Q C targets indices = None ↔
   ∃ b q c, pix tc b q = Some c ∧ ¬ (0 ≤ c ≤ Z.of_nat C)) ∧
  (∀ oh, target_classes_onehot num_classes B Q C targets indices = Some oh →
     ∀ b q c, pix tc b q = Some c →
       ∃ row, pix oh b q = Some row ∧ length row = C ∧
         (∀ j, (j < C)%nat →
            row !! j = Some (if decide (c = Z.of_nat j) then 1 else 0)) ∧
         (c = Z.of_nat C → row = replicate C 0)).
Proof.
  intros Htc. unfold target_classes_onehot. rewrite Htc. simpl. split.
  - rewrite mapM_None, Exists_exists. split.
    + intros (r & Hr & Hnone).
      apply mapM_None, Exists_exists in Hnone as (c & Hc & Hnone).
      apply list_elem_of_lookup in Hr as [b Hb].
      apply list_elem_of_lookup in Hc as [q Hq].
      exists b, q, c. split; [|by apply onehot_row_None].
      unfold pix. by rewrite Hb.
    + intros (b & q & c & Hp & Hout). unfold pix in Hp.
      destruct (tc !! b) as [r|] eqn:Hb; simpl in Hp; [|done].
      exists r. split; [by eapply list_elem_of_lookup_2|].
      apply mapM_None, Exists_exists. exists c.
      split; [by eapply list_elem_of_lookup_2|by apply onehot_row_None].
  - intros oh Hoh%mapM_Some b q c Hp. unfold pix in Hp.
    destruct (tc !! b) as [r|] eqn:Hb; simpl in Hp; [|done].
    destruct (Forall2_lookup_l _ _ _ _ _ Hoh Hb) as (orow & Hob & Hrow).
    apply mapM_Some in Hrow.
    destruct (Forall2_lookup_l _ _ _ _ _ Hrow Hp) as (row & Hoq & Hone).
    apply onehot_row_Some in Hone as (Hrange & Hlen & Hcells).
    exists row. split; [by unfold pix; rewrite Hob|].
    split; [done|]. split; [done|].
    intros ->. apply list_eq. intros j.
    destruct (decide (j < C)%nat) as [Hj|Hj].
    + rewrite Hcells, lookup_replicate_2 by done.
      by rewrite decide_False by lia.
    + rewrite !lookup_ge_None_2; [done|rewrite length_replicate; lia|lia].
Qed.

Lemma onehot_targets_one_per_class_witness :
  ∃ oh,
    target_classes_onehot 2 1 2
      2 [ {| labels := [1]; masks := []; boxes := [] |} ] [([1], [0])]
      = Some oh ∧
    pix oh 0 0 = Some [0; 0].
Proof.
  destruct (target_classes_onehot 2 1 2 2
              [ {| labels := [1]; masks := []; boxes := [] |} ] [([1], [0])])
    as [oh|] eqn:Hoh; [|by vm_compute in Hoh].
  exists oh. split; [reflexivity|].
  destruct (onehot_targets_one_per_class 2 1 2 2
              [ {| labels := [1]; masks := []; boxes := [] |} ] [([1], [0])]
              [[2; 1]] eq_refl) as [_ Hrows].
  destruct (Hrows oh Hoh 0%nat 0%nat 2 eq_refl) as (row & Hrow & _ & _ & Hz).
  by rewrite Hrow, (Hz eq_refl).
Defined.

(** ** The adapter and the label targets together *)

Lemma py_index_app_r {A} (xs ys : list A) (j : nat) :
  py_index (xs ++ ys) (Z.of_nat (length xs) + Z.of_nat j) = ys !! j.
Proof.
  rewrite py_index_nonneg by lia. rewrite lookup_app_r by lia.
  f_equal. lia.
Qed.

(** X10. Adapter and label loss together: when the match of an image
    pairs real queries (indices below 100, pairwise different) and reaches
    the last target ([max(target indices) + 1] is the number of targets,
    as for a match that covers every target, or for no target at all), the
    class target of the synthetic query slot [100 + j] of that image is the
    [j]-th synthetic label sampled for it. *)
Theorem synthetic_label_reaches_target_classes
    (num_classes : Z) (B Q vq_number : nat) (indices : list indice)
    (targets : list target) (fqls : list (list Z))
    (new_indices : list indice) (new_targets : list target)
    (tc : list (list Z)) :
  _modify_indices_targets_for_fake_query vq_number indices targets (Some fqls)
    = Some (new_indices, new_targets) →
  target_classes num_classes B Q new_targets new_indices = Some tc →
  Forall (λ ind : indice, NoDup ind.1 ∧ length ind.1 = length ind.2 ∧
                          Forall (λ s, 0 ≤ s < 100) ind.1) indices →
  ∀ k ind t fql j l,
    indices !! k = Some ind → targets !! k = Some t → fqls !! k = Some fql →
    max_indice ind.2 + 1 = Z.of_nat (length (labels t)) →
    (j < vq_number)%nat → fql !! j = Some l →
    pix tc k (100 + j)%nat = Some l.
Proof.
  unfold _modify_indices_targets_for_fake_query.
  destruct (decide _) as [[Hl1 Hl2]|]; [|done].
  intros [= <- <-] Htc Hwf k ind t fql j l Hk Ht Hf Hmax Hj Hl.
  destruct (target_classes_spec _ _ _ _ _ _ Htc) as [_ Hmatched].
  { apply Forall_fmap. eapply Forall_impl; [exact Hwf|].
    intros ind' (Hnd & Hlen & Hrange).
    change (NoDup (new_indice vq_number ind').1 ∧
            length (new_indice vq_number ind').1
              = length (new_indice vq_number ind').2 ∧
            Forall (λ s, 0 ≤ s) (new_indice vq_number ind').1).
    destruct (new_indice_lengths vq_number ind') as [Hs1 Hs2].
    split; [|split].
    - apply new_indice_src_NoDup; [done|].
      by rewrite Forall_forall in Hrange.
    - lia.
    - unfold new_indice. simpl. apply Forall_app. split.
      + eapply Forall_impl; [exact Hrange|]. intros s Hs. simpl in Hs. lia.
      + apply Forall_fmap, Forall_forall. intros i _. simpl. lia. }
  destruct (Hmatched k (new_indice vq_number ind) (add_fake_labels t fql)
              (length ind.1 + j)%nat (100 + Z.of_nat j)
              (max_indice ind.2 + 1 + Z.of_nat j))
    as (l' & Hpy & Hpix).
  - exact (list_lookup_fmap_Some_2 (new_indice vq_number) _ _ _ Hk).
  - by rewrite lookup_zip_with, Ht, Hf.
  - unfold new_indice. simpl. rewrite lookup_app_r by lia.
    replace (length ind.1 + j - length ind.1)%nat with j by lia.
    by rewrite list_lookup_fmap, lookup_seq_lt.
  - pose proof (Forall_lookup_1 _ _ _ _ Hwf Hk) as (_ & Hlen & _).
    rewrite Hlen. by apply new_indice_appended.
  - unfold add_fake_labels in Hpy. cbn [labels] in Hpy.
    rewrite Hmax, py_index_app_r, Hl in Hpy. injection Hpy as <-.
    rewrite <- Hpix. f_equal. lia.
Qed.

Lemma synthetic_label_reaches_target_classes_witness :
  ∃ tc,
    target_classes 150 1 103
      [ {| labels := [7; 8; 5; 6; 9]; masks := []; boxes := [] |} ]
      [([3; 0; 100; 101; 102], [1; 0; 2; 3; 4])] = Some tc ∧
    pix tc 0 (100 + 1)%nat = Some 6.
Proof.
  destruct (target_classes 150 1 103
              [ {| labels := [7; 8; 5; 6; 9]; masks := []; boxes := [] |} ]
              [([3; 0; 100; 101; 102], [1; 0; 2; 3; 4])])
    as [tc|] eqn:Htc; [|by vm_compute in Htc].
  exists tc. split; [reflexivity|].
  apply (synthetic_label_reaches_target_classes 150 1 103 3 [([3; 0], [1; 0])]
           [ {| labels := [7; 8]; masks := []; boxes := [] |} ] [[5; 6; 9]]
           [([3; 0; 100; 101; 102], [1; 0; 2; 3; 4])]
           [ {| labels := [7; 8; 5; 6; 9]; masks := []; boxes := [] |} ] tc
           eq_refl Htc)
    with (ind := ([3; 0], [1; 0]))
         (t := {| labels := [7; 8]; masks := []; boxes := [] |})
         (fql := [5; 6; 9]); try reflexivity; try lia.
  repeat constructor; simpl; try lia; by apply (bool_decide_unpack _).
Defined.

(** ** The Dice loss stays between 0 and 1 per mask *)

Lemma Qsum_nonneg (l : list Q) :
  Forall (λ x, (0 <= x)%Q) l → (0 <= Qsum l)%Q.
Proof.
  induction 1 as [|x l Hx _ IH]; cbn [Qsum foldr]; [apply Qle_refl|].
  fold (Qsum l). lra.
Qed.

Lemma Qsum_products (xs ts : list Q) :
  Forall (λ x, (0 <= x <= 1)%Q) xs → Forall (λ t, (0 <= t <= 1)%Q) ts →
  length xs = length ts →
  (0 <= 2 * Qsum (zip_with Qmult xs ts) <= Qsum xs + Qsum ts)%Q.
Proof.
  intros Hxs. revert ts.
  induction Hxs as [|x xs Hx _ IH]; intros [|t ts] Hts Hlen; try done.
  apply Forall_cons in Hts as [Ht Hts]. injection Hlen as Hlen.
  destruct (IH ts Hts Hlen) as [IH1 IH2].
  cbn [zip_with Qsum foldr].
  fold (Qsum (zip_with Qmult xs ts)). fold (Qsum xs). fold (Qsum ts).
  assert (0 <= x * t)%Q by nra.
  assert (2 * (x * t) <= x + t)%Q by nra.
  split; lra.
Qed.

Section DiceFacts.
Variable sigmoid : Q → Q.
Hypothesis sigmoid_range : ∀ x, (0 <= sigmoid x <= 1)%Q.

Lemma dice_term_range (inputs targets : list Q) :
  Forall (λ t, (0 <= t <= 1)%Q) targets → length inputs = length targets →
  (0 <= dice_term sigmoid inputs targets <= 1)%Q.
Proof.
  intros Hts Hlen. unfold dice_term.
  destruct (Qsum_products (sigmoid <$> inputs) targets) as [Hn Hd].
  { apply Forall_fmap, Forall_forall. intros x _. apply sigmoid_range. }
  { done. }
  { by rewrite length_fmap. }
  set (n := (2 * Qsum (zip_with Qmult (sigmoid <$> inputs) targets))%Q) in *.
  set (d := (Qsum (sigmoid <$> inputs) + Qsum targets)%Q) in *.
  assert (0 < d + 1)%Q as Hpos by lra.
  assert ((n + 1) / (d + 1) <= 1)%Q as Hle.
  { apply Qle_shift_div_r; [done|]. lra. }
  assert (0 <= (n + 1) / (d + 1))%Q as Hge.
  { apply Qle_shift_div_l; [done|]. lra. }
  split; lra.
Qed.

Lemma dice_terms_sum (inputs targets : list (list Q)) :
  Forall (Forall (λ t, (0 <= t <= 1)%Q)) targets →
  Forall2 (λ i t, length i = length t) inputs targets →
  (0 <= Qsum (zip_with (dice_term sigmoid) inputs targets)
     <= inject_Z (Z.of_nat (length inputs)))%Q.
Proof.
  intros Hts Hshape. induction Hshape as [|i t is' ts' Hlen _ IH].
  - split; apply Qle_refl.
  - apply Forall_cons in Hts as [Ht Hts]. specialize (IH Hts).
    pose proof (dice_term_range i t Ht Hlen) as Hterm.
    cbn [zip_with Qsum foldr length]. fold (Qsum (zip_with (dice_term sigmoid) is' ts')).
    rewrite Nat2Z.inj_succ. unfold Z.succ. rewrite inject_Z_plus.
    change (inject_Z 1) with 1%Q. split; lra.
Qed.
End DiceFacts.

(** X11. For targets between 0 and 1 and a normaliser of at least 1 (the
    clamped [num_masks]), the Dice loss of [N] masks lies between 0 and
    [N]: each mask contributes between 0 and 1. *)
Theorem dice_loss_between_0_and_N (sigmoid : Q → Q)
    (inputs targets : list (list Q)) (num_masks : Q) :
  (∀ x, (0 <= sigmoid x <= 1)%Q) →
  Forall (Forall (λ t, (0 <= t <= 1)%Q)) targets →
  Forall2 (λ i t, length i = length t) inputs targets →
  (1 <= num_masks)%Q →
  (0 <= dice_loss sigmoid inputs targets num_masks
     <= inject_Z (Z.of_nat (length inputs)))%Q.
Proof.
  intros Hsig Hts Hshape Hnum. unfold dice_loss.
  destruct (dice_terms_sum sigmoid Hsig inputs targets Hts Hshape) as [H0 HN].
  set (s := Qsum (zip_with (dice_term sigmoid) inputs targets)) in *.
  assert (0 < num_masks)%Q as Hpos by lra.
  split.
  - apply Qle_shift_div_l; [done|]. lra.
  - apply Qle_shift_div_r; [done|].
    assert (0 <= inject_Z (Z.of_nat (length inputs)))%Q by lra. nra.
Qed.

Lemma dice_loss_between_0_and_N_witness :
  (0 <= dice_loss (λ _, 1 # 2) [[0; 0]] [[1; 0]] 1 <= 1)%Q.
Proof.
  apply (dice_loss_between_0_and_N (λ _, 1 # 2) [[0; 0]%Q] [[1; 0]%Q] 1).
  - intros x. split; discriminate.
  - repeat constructor; discriminate.
  - repeat constructor.
  - discriminate.
Defined.

(** ** The class range of a task *)

Lemma sumZ_replicate (n : nat) (x : Z) :
  sumZ (replicate n x) = Z.of_nat n * x.
Proof. induction n as [|n IH]; simpl; [done|]. rewrite IH. lia. Qed.

Lemma sumZ_slice_base (base inc : Z) (n : nat) (k : Z) :
  0 ≤ k ≤ Z.of_nat n + 1 →
  sumZ (py_slice_to (base :: replicate n inc) k) =
    if k =? 0 then 0 else base + (k - 1) * inc.
Proof.
  intros Hk. unfold py_slice_to.
  destruct (0 <=? k) eqn:H0; [|apply Z.leb_gt in H0; lia].
  destruct (k =? 0) eqn:Hk0.
  - apply Z.eqb_eq in Hk0. by subst.
  - apply Z.eqb_neq in Hk0.
    replace (Z.to_nat k) with (S (Z.to_nat (k - 1))) by lia.
    cbn [take sumZ foldr]. fold (sumZ (take (Z.to_nat (k - 1))
                                             (replicate n inc))).
    rewrite take_replicate, sumZ_replicate.
    replace (Z.of_nat (Z.to_nat (k - 1) `min` n)) with (k - 1) by lia.
    done.
Qed.

(** X12. For a well-formed configuration ([0 <= BASE_CLS <= TOT_CLS],
    [INC_CLS > 0]) and a task between 1 and the number of tasks, the current
    class ids are exactly the classes from [BASE_CLS + (TASK - 2) * INC_CLS]
    (from 0 in task 1) up to, not including,
    [BASE_CLS + (TASK - 1) * INC_CLS]; they all lie below [TOT_CLS].  So
    the ranges of consecutive tasks are adjacent and never overlap. *)
Theorem current_catagory_ids_is_the_task_range (c : cont) :
  0 ≤ BASE_CLS c ≤ TOT_CLS c → 0 < INC_CLS c →
  1 ≤ TASK c ≤ 1 + (TOT_CLS c - BASE_CLS c) / INC_CLS c →
  ∃ ids, config_current_catagory_ids c = Some ids ∧
    (∀ l, l ∈ ids ↔
          (if TASK c =? 1 then 0
           else BASE_CLS c + (TASK c - 2) * INC_CLS c) ≤ l
          < BASE_CLS c + (TASK c - 1) * INC_CLS c) ∧
    BASE_CLS c + (TASK c - 1) * INC_CLS c ≤ TOT_CLS c.
Proof.
  intros Hbase Hinc Htask.
  unfold config_current_catagory_ids, n_cls_in_tasks.
  destruct (INC_CLS c =? 0) eqn:Hi0; [apply Z.eqb_eq in Hi0; lia|].
  cbn [mbind option_bind app]. eexists. split; [done|].
  set (q := (TOT_CLS c - BASE_CLS c) / INC_CLS c) in *.
  assert (0 ≤ q) as Hq by (apply Z.div_pos; lia).
  replace (1 + q - 1) with q by lia.
  rewrite !sumZ_slice_base by lia.
  assert (q * INC_CLS c ≤ TOT_CLS c - BASE_CLS c) as Hmul.
  { rewrite Z.mul_comm. apply Z.mul_div_le. lia. }
  split.
  - intros l. unfold range. rewrite elem_of_seqZ.
    destruct (TASK c =? 1) eqn:Ht1.
    + apply Z.eqb_eq in Ht1. rewrite Ht1. simpl. lia.
    + apply Z.eqb_neq in Ht1.
      destruct (TASK c - 1 =? 0) eqn:Hz; [apply Z.eqb_eq in Hz; lia|].
      destruct (TASK c =? 0) eqn:Hz'; [apply Z.eqb_eq in Hz'; lia|].
      replace (TASK c - 1 - 1) with (TASK c - 2) by lia. lia.
  - nia.
Qed.

Lemma current_catagory_ids_is_the_task_range_witness :
  config_current_catagory_ids (Cont 150 100 10 3 true 2)
    = Some [110; 111; 112; 113; 114; 115; 116; 117; 118; 119].
Proof.
  destruct (current_catagory_ids_is_the_task_range
              (Cont 150 100 10 3 true 2)) as (ids & Hids & _); simpl;
    [lia|lia|by vm_compute|].
  rewrite Hids. by vm_compute in Hids.
Defined.

(** ** No distillation without an old model *)

(** X13. In task 1, without an old model, or with a distillation weight of
    zero, the loss list of [from_config] has no ['kd'] entry and the loss
    computed from it never calls the distillation loss, for the primary
    scope or for any other. *)
Theorem no_distillation_without_kd_in_config {slot : Type} (c : cont)
    (current_catagory_ids : list Z) (vq_number : nat)
    (kd_temperature kd_temperature2 : Q) (kd_decoder : bool)
    (matcher : gmap string (list slot) → list target → list indice)
    (out : outputs) (targets : list target)
    (psd_targets old_targets : option (list target))
    (fake_query_labels : option (list (list Z))) (tr : list call) :
  TASK c ≤ 1 ∨ OLD_MODEL c = false ∨ (KL_WEIGHT c <= 0)%Q →
  forward current_catagory_ids vq_number kd_temperature kd_temperature2
    kd_decoder (config_losses c) matcher out targets psd_targets old_targets
    fake_query_labels = Some tr →
  kd_calls tr = [].
Proof.
  intros Hcfg Htr. apply kd_calls_forward in Htr.
  assert (config_losses c = [labels_loss; masks_loss; points_loss]) as Hl.
  { unfold config_losses.
    destruct ((1 <? TASK c) && OLD_MODEL c && Qlt_bool 0 (KL_WEIGHT c))
      eqn:Hb; [|done].
    apply andb_true_iff in Hb as [Hb Hkl].
    apply andb_true_iff in Hb as [Ht Ho].
    apply Z.ltb_lt in Ht. apply Qlt_bool_iff in Hkl.
    destruct Hcfg as [?|[?|Hw]]; [lia|congruence|].
    exfalso. by apply (Qlt_not_le _ _ Hkl). }
  rewrite Hl in Htr. rewrite Htr.
  by destruct kd_decoder, (interm_outputs out).
Qed.

Lemma no_distillation_without_kd_in_config_witness :
  ∃ tr,
    forward [5; 6] 3 (1 # 10) (1 # 5) true
      (config_losses (Cont 150 100 10 1 true 2))
      example_matcher example_outputs [example_gt] None None None = Some tr ∧
    kd_calls tr = [].
Proof.
  eexists. split; [vm_compute; reflexivity|].
  refine (no_distillation_without_kd_in_config (Cont 150 100 10 1 true 2)
            [5; 6] 3 (1 # 10) (1 # 5) true example_matcher example_outputs
            [example_gt] None None None _ _ _).
  - left. simpl. lia.
  - vm_compute. reflexivity.
Defined.

(** ** The directory of the previous task *)

Lemma string_length_app (p s : string) :
  String.length (p +:+ s) = (String.length p + String.length s)%nat.
Proof. induction p as [|a p IH]; simpl; [done|]. by rewrite IH. Qed.

Lemma substring_prefix (p s : string) :
  String.substring 0 (String.length p) (p +:+ s) = p.
Proof.
  induction p as [|a p IH]; simpl.
  - by destruct s.
  - by rewrite IH.
Qed.

Lemma length_substring0 (s : string) : ∀ m,
  String.length (String.substring 0 m s) = (m `min` String.length s)%nat.
Proof.
  induction s as [|a s IH]; intros [|m]; simpl; try done.
  by rewrite IH.
Qed.

Lemma drop_last_app (p s : string) :
  drop_last (String.length s) (p +:+ s) = p.
Proof.
  unfold drop_last. rewrite string_length_app.
  replace (String.length p + String.length s - String.length s)%nat
    with (String.length p) by lia.
  apply substring_prefix.
Qed.

Lemma pretty_length_below_100 (t : Z) :
  0 ≤ t < 100 →
  String.length (pretty t) = if t <? 10 then 1%nat else 2%nat.
Proof.
  intros Ht.
  assert (Forall (λ t : Z, String.length (pretty t)
                           = if t <? 10 then 1%nat else 2%nat) (seqZ 0 100))
    as Hall by (apply (bool_decide_unpack _); vm_compute; reflexivity).
  rewrite Forall_forall in Hall. apply Hall, elem_of_seqZ. lia.
Qed.

(** X14. For a task between 1 and 99 whose output directory ends in the
    task number, the directory the model, the decoder and the trainer look
    in for the previous task's artefacts is the same path with the task
    number decreased by one. *)
Theorem previous_task_dir_decrements_suffix (stem : string) (task : Z) :
  1 ≤ task < 100 →
  previous_task_dir (stem +:+ pretty task) task = stem +:+ pretty (task - 1).
Proof.
  intros Ht. unfold previous_task_dir.
  pose proof (pretty_length_below_100 task) as Hlen.
  destruct (task <? 10); rewrite <- Hlen by lia; by rewrite drop_last_app.
Qed.

Lemma previous_task_dir_decrements_suffix_witness :
  previous_task_dir "output/ps/step10" 10 = "output/ps/step9".
Proof.
  apply (previous_task_dir_decrements_suffix "output/ps/step" 10). lia.
Defined.

(** X15. [Trainer.after_train] always cuts one character: for a task below
    10 its [old_root] is the previous task's directory, but from task 10 on
    it keeps the first digit of the task number and so differs from the
    directory the model derives. *)
Theorem after_train_old_root_cuts_one_character (stem : string) (task : Z) :
  1 ≤ task < 100 →
  (task < 10 →
   after_train_old_root (stem +:+ pretty task) task
     = stem +:+ pretty (task - 1)) ∧
  (10 ≤ task →
   after_train_old_root (stem +:+ pretty task) task
     ≠ previous_task_dir (stem +:+ pretty task) task).
Proof.
  intros Ht. split.
  - intros Hlt. unfold after_train_old_root.
    pose proof (pretty_length_below_100 task) as Hlen.
    destruct (task <? 10) eqn:H10; [|apply Z.ltb_ge in H10; lia].
    rewrite <- Hlen by lia. by rewrite drop_last_app.
  - intros Hge. rewrite previous_task_dir_decrements_suffix by done.
    unfold after_train_old_root, drop_last. intros Heq.
    apply (f_equal String.length) in Heq.
    rewrite !string_length_app in Heq.
    rewrite length_substring0 in Heq.
    rewrite string_length_app, (pretty_length_below_100 task) in Heq by lia.
    rewrite (pretty_length_below_100 (task - 1)) in Heq by lia.
    destruct (task <? 10) eqn:H10; [apply Z.ltb_lt in H10; lia|].
    destruct (task - 1 <? 10); lia.
Qed.

Lemma after_train_old_root_cuts_one_character_witness :
  after_train_old_root "output/ps/step3" 3 = "output/ps/step2" ∧
  after_train_old_root "output/ps/step10" 10 = "output/ps/step19".
Proof.
  destruct (after_train_old_root_cuts_one_character "output/ps/step" 3)
    as [Hlt _]; [lia|].
  split; [apply Hlt; lia|reflexivity].
Defined.

(** ** The histogram of pseudo labels *)

Lemma count_label_spec (psd_num psd_num1 : list Z) (i : Z) :
  0 ≤ i → count_label psd_num i = Some psd_num1 →
  (Z.to_nat i < length psd_num)%nat ∧
  length psd_num1 = length psd_num ∧
  ∀ c n, psd_num !! c = Some n →
    psd_num1 !! c = Some (n + occurrences c [i]).
Proof.
  intros Hi. unfold count_label. rewrite py_index_nonneg by done.
  destruct (psd_num !! Z.to_nat i) as [x|] eqn:Hx; simpl; [|done].
  intros [-> Hlt]%py_set_nonneg; [|done].
  split; [done|]. split; [by rewrite length_insert|].
  intros c n Hc. unfold occurrences.
  destruct (decide (i = Z.of_nat c)) as [->|Hne].
  - rewrite filter_cons_True by done. rewrite Nat2Z.id in *.
    rewrite list_lookup_insert_eq by done. simpl.
    f_equal. assert (x = n) as -> by congruence. lia.
  - rewrite filter_cons_False by done. simpl.
    rewrite list_lookup_insert_ne by lia. rewrite Hc. f_equal. lia.
Qed.

Lemma occurrences_app c (l1 l2 : list Z) :
  occurrences c (l1 ++ l2) = occurrences c l1 + occurrences c l2.
Proof. unfold occurrences. rewrite filter_app, length_app. lia. Qed.

Lemma count_labels_spec (ls : list Z) : ∀ psd_num psd_num1,
  Forall (λ l, 0 ≤ l) ls → count_labels psd_num ls = Some psd_num1 →
  Forall (λ l, l < Z.of_nat (length psd_num)) ls ∧
  length psd_num1 = length psd_num ∧
  ∀ c n, psd_num !! c = Some n →
    psd_num1 !! c = Some (n + occurrences c ls).
Proof.
  induction ls as [|i ls IH]; intros psd_num psd_num1 Hnn; simpl.
  - intros [= <-]. split; [done|]. split; [done|].
    intros c n Hc. rewrite Hc. f_equal. unfold occurrences. simpl. lia.
  - apply Forall_cons in Hnn as [Hi Hnn].
    destruct (count_label psd_num i) as [p1|] eqn:H1; simpl; [|done].
    intros Hrest.
    destruct (count_label_spec _ _ _ Hi H1) as (Hlt & Hlen1 & Hc1).
    destruct (IH _ _ Hnn Hrest) as (Hall & Hlen & Hc).
    rewrite Hlen1 in Hall, Hlen. split; [|split; [done|]].
    + apply Forall_cons. split; [lia|done].
    + intros c n Hn. rewrite (Hc c _ (Hc1 c n Hn)). f_equal.
      change (i :: ls) with ([i] ++ ls). rewrite occurrences_app. lia.
Qed.

(** X16. In collection mode, with non-negative pseudo labels, a step that
    does not raise leaves the histogram with its length and adds to the
    count of every class the number of pseudo labels of that class in the
    batch; it can only succeed when every pseudo label is below the length
    of the histogram. *)
Theorem collect_psd_num_counts_pseudo_labels
    (psd_targets : list target) : ∀ (psd_num psd_num1 : list Z),
  Forall (λ l, 0 ≤ l) (concat (labels <$> psd_targets)) →
  collect_psd_num psd_num psd_targets = Some psd_num1 →
  Forall (λ l, l < Z.of_nat (length psd_num))
         (concat (labels <$> psd_targets)) ∧
  length psd_num1 = length psd_num ∧
  ∀ c n, psd_num !! c = Some n →
    psd_num1 !! c
      = Some (n + occurrences c (concat (labels <$> psd_targets))).
Proof.
  induction psd_targets as [|t rest IH]; intros psd_num psd_num1 Hnn.
  - simpl. intros [= <-]. split; [done|]. split; [done|].
    intros c n Hc. rewrite Hc. f_equal. unfold occurrences. simpl. lia.
  - rewrite fmap_cons in *. cbn [concat] in *. cbn [collect_psd_num].
    apply Forall_app in Hnn as [Hnt Hnrest].
    destruct (count_labels psd_num (labels t)) as [p1|] eqn:H1; simpl; [|done].
    intros Hrest.
    destruct (count_labels_spec _ _ _ Hnt H1) as (Hall1 & Hlen1 & Hc1).
    destruct (IH _ _ Hnrest Hrest) as (Hall & Hlen & Hc).
    rewrite Hlen1 in Hall, Hlen. split; [|split; [done|]].
    + apply Forall_app. done.
    + intros c n Hn. rewrite (Hc c _ (Hc1 c n Hn)). f_equal.
      rewrite occurrences_app. lia.
Qed.

Lemma collect_psd_num_counts_pseudo_labels_witness :
  ∃ psd_num1,
    collect_psd_num [0; 4; 0; 0] [example_combined_psd; example_psd]
      = Some psd_num1 ∧
    psd_num1 !! 1%nat = Some (4 + 2).
Proof.
  destruct (collect_psd_num [0; 4; 0; 0] [example_combined_psd; example_psd])
    as [p1|] eqn:Hp; [|by vm_compute in Hp].
  exists p1. split; [reflexivity|].
  destruct (collect_psd_num_counts_pseudo_labels
              [example_combined_psd; example_psd] [0; 4; 0; 0] p1)
    as (_ & _ & Hc); [|exact Hp|].
  - repeat constructor; by vm_compute.
  - by rewrite (Hc 1%nat 4 eq_refl).
Defined.

(** ** Padding the ground-truth masks *)

Lemma pix_imap {A B} (f : nat → nat → A → B) (r : raster A) i j :
  pix (imap (λ i row, imap (f i) row) r) i j = f i j <$> pix r i j.
Proof.
  unfold pix. rewrite list_lookup_imap.
  destruct (r !! i) as [row|]; simpl; [|done].
  by rewrite list_lookup_imap.
Qed.

Lemma pix_pad_mask h_pad w_pad hw m i j :
  (i < h_pad)%nat → (j < w_pad)%nat →
  pix (pad_mask h_pad w_pad hw m) i j =
    Some (if (i <? hw.1)%nat && (j <? hw.2)%nat
          then default false (pix m i j) else false).
Proof.
  unfold pad_mask. intros Hi Hj.
  rewrite (pix_imap (λ i j z, if (i <? hw.1)%nat && (j <? hw.2)%nat
                              then default z (pix m i j) else z)).
  by rewrite pix_replicate.
Qed.

Lemma has_shape_pad_mask h_pad w_pad hw m :
  has_shape h_pad w_pad (pad_mask h_pad w_pad hw m).
Proof.
  unfold pad_mask. split.
  - by rewrite length_imap, length_replicate.
  - apply Forall_lookup. intros i row. rewrite list_lookup_imap.
    intros (zrow & [-> _]%lookup_replicate & ->)%fmap_Some.
    by rewrite length_imap, length_replicate.
Qed.

Lemma fits_iff (n n_pad : nat) :
  fits n n_pad = true ↔ (n ≤ n_pad)%nat ∨ (n = 1%nat ∧ n_pad = 0%nat).
Proof.
  unfold fits.
  rewrite orb_true_iff, andb_true_iff, Nat.leb_le, !Nat.eqb_eq. done.
Qed.

Lemma row_area_app (a b : list bool) :
  foldr (λ x n, bool_to_Z x + n) 0 (a ++ b)
  = foldr (λ x n, bool_to_Z x + n) 0 a + foldr (λ x n, bool_to_Z x + n) 0 b.
Proof. induction a as [|x a IH]; simpl; [done|]. rewrite IH. lia. Qed.

Lemma row_area_zeros (n : nat) :
  foldr (λ x k, bool_to_Z x + k) 0 (replicate n false) = 0.
Proof. induction n as [|n IH]; simpl; [done|]. by rewrite IH. Qed.

Lemma area_app (a b : raster bool) : area (a ++ b) = area a + area b.
Proof.
  induction a as [|row a IH]; [done|].
  change (area ((row :: a) ++ b))
    with (foldr (λ x n, bool_to_Z x + n) 0 row + area (a ++ b)).
  change (area (row :: a))
    with (foldr (λ x n, bool_to_Z x + n) 0 row + area a).
  rewrite IH. lia.
Qed.

Lemma area_zero_rows (n w : nat) : area (replicate n (replicate w false)) = 0.
Proof.
  induction n as [|n IH]; [done|].
  change (area (replicate (S n) (replicate w false)))
    with (foldr (λ x k, bool_to_Z x + k) 0 (replicate w false)
          + area (replicate n (replicate w false))).
  by rewrite IH, row_area_zeros.
Qed.

Lemma area_pad_columns (m : raster bool) (n : nat) :
  area ((λ row, row ++ replicate n false) <$> m) = area m.
Proof.
  induction m as [|row m IH]; [done|].
  rewrite fmap_cons.
  change (area ((row ++ replicate n false) ::
                ((λ row, row ++ replicate n false) <$> m)))
    with (foldr (λ x k, bool_to_Z x + k) 0 (row ++ replicate n false)
          + area ((λ row, row ++ replicate n false) <$> m)).
  change (area (row :: m))
    with (foldr (λ x k, bool_to_Z x + k) 0 row + area m).
  rewrite IH, row_area_app, row_area_zeros. lia.
Qed.

(** The padded mask, written out. *)
Lemma pad_mask_explicit h_pad w_pad h w m :
  has_shape h w m → (h ≤ h_pad)%nat → (w ≤ w_pad)%nat →
  pad_mask h_pad w_pad (h, w) m
  = ((λ row, row ++ replicate (w_pad - w) false) <$> m)
    ++ replicate (h_pad - h) (replicate w_pad false).
Proof.
  intros [Hh Hw] Hhp Hwp.
  set (p := pad_mask h_pad w_pad (h, w) m).
  pose proof (has_shape_pad_mask h_pad w_pad (h, w) m) as [Hph Hpw].
  fold p in Hph, Hpw.
  rewrite Forall_lookup in Hw. rewrite Forall_lookup in Hpw.
  apply list_eq. intros i.
  destruct (decide (i < h_pad)%nat) as [Hi|Hi].
  2:{ rewrite !lookup_ge_None_2; [done| |lia].
      rewrite length_app, length_fmap, length_replicate. lia. }
  destruct (lookup_lt_is_Some_2 p i) as [prow Hprow]; [lia|].
  rewrite Hprow. symmetry.
  assert (∀ j, (j < w_pad)%nat →
            prow !! j = Some (if (i <? h)%nat && (j <? w)%nat
                              then default false (pix m i j) else false))
    as Hcells.
  { intros j Hj.
    pose proof (pix_pad_mask h_pad w_pad (h, w) m i j Hi Hj) as Hpix.
    fold p in Hpix. unfold pix at 1 in Hpix. by rewrite Hprow in Hpix. }
  destruct (decide (i < h)%nat) as [Hih|Hih].
  - destruct (lookup_lt_is_Some_2 m i) as [row Hrow]; [lia|].
    rewrite lookup_app_l by (rewrite length_fmap; lia).
    rewrite list_lookup_fmap, Hrow. simpl. f_equal.
    apply list_eq. intros j.
    destruct (decide (j < w_pad)%nat) as [Hj|Hj].
    2:{ rewrite !lookup_ge_None_2; [done|rewrite (Hpw _ _ Hprow); lia|].
        rewrite length_app, length_replicate, (Hw _ _ Hrow). lia. }
    rewrite (Hcells j Hj).
    replace (i <? h)%nat with true by (symmetry; by apply Nat.ltb_lt).
    destruct (decide (j < w)%nat) as [Hjw|Hjw].
    + replace (j <? w)%nat with true by (symmetry; by apply Nat.ltb_lt).
      rewrite lookup_app_l by (rewrite (Hw _ _ Hrow); lia).
      destruct (lookup_lt_is_Some_2 row j) as [b Hb];
        [rewrite (Hw _ _ Hrow); lia|].
      rewrite Hb. unfold pix. by rewrite Hrow; simpl; rewrite Hb.
    + replace (j <? w)%nat with false by (symmetry; apply Nat.ltb_ge; lia).
      rewrite lookup_app_r by (rewrite (Hw _ _ Hrow); lia).
      simpl. apply lookup_replicate_2. rewrite (Hw _ _ Hrow). lia.
  - rewrite lookup_app_r by (rewrite length_fmap; lia).
    rewrite length_fmap, lookup_replicate_2 by lia. f_equal.
    apply list_eq. intros j.
    destruct (decide (j < w_pad)%nat) as [Hj|Hj].
    2:{ rewrite !lookup_ge_None_2; [done|rewrite (Hpw _ _ Hprow); lia|].
        rewrite length_replicate. lia. }
    rewrite (Hcells j Hj), lookup_replicate_2 by done.
    by replace (i <? h)%nat with false by (symmetry; apply Nat.ltb_ge; lia).
Qed.

Lemma area_pad_mask h_pad w_pad h w m :
  has_shape h w m → (h ≤ h_pad)%nat → (w ≤ w_pad)%nat →
  area (pad_mask h_pad w_pad (h, w) m) = area m.
Proof.
  intros Hm Hh Hw. rewrite (pad_mask_explicit _ _ _ _ _ Hm Hh Hw).
  by rewrite area_app, area_zero_rows, area_pad_columns, Z.add_0_r.
Qed.

Lemma prepare_target_Some box_fn h_pad w_pad x t :
  prepare_target box_fn h_pad w_pad x = Some t →
  fits (gt_masks_shape x).1 h_pad && fits (gt_masks_shape x).2 w_pad = true ∧
  t = {| labels := gt_classes x;
         masks := pad_mask h_pad w_pad (gt_masks_shape x) <$> gt_masks x;
         boxes := (λ b, normalise_box (image_size x) (box_fn b))
                    <$> gt_boxes x |}.
Proof.
  unfold prepare_target, padded_masks.
  destruct (fits _ _ && fits _ _); simpl; [|done]. by intros [= <-].
Qed.

Lemma prepare_targets_lookup box_fn h_pad w_pad insts ts k x t :
  prepare_targets box_fn h_pad w_pad insts = Some ts →
  insts !! k = Some x → ts !! k = Some t →
  fits (gt_masks_shape x).1 h_pad && fits (gt_masks_shape x).2 w_pad = true ∧
  t = {| labels := gt_classes x;
         masks := pad_mask h_pad w_pad (gt_masks_shape x) <$> gt_masks x;
         boxes := (λ b, normalise_box (image_size x) (box_fn b))
                    <$> gt_boxes x |}.
Proof.
  unfold prepare_targets. intros Hts%mapM_Some Hx Ht.
  destruct (Forall2_lookup_l _ _ _ _ _ Hts Hx) as (t' & Ht' & Hprep).
  assert (t' = t) as -> by congruence.
  by apply prepare_target_Some.
Qed.

(** X17. [prepare_targets] raises exactly when the mask tensor of some
    image does not fit the canvas: an extent of [gt_masks] exceeds the
    canvas (and is not a single row or column broadcast to an empty
    canvas).  Otherwise it returns one target per image with the classes
    unchanged and as many masks and boxes as the ground truth has; every
    mask has the canvas size, and on a non-empty canvas a mask keeps its
    pixels and its area (the padding is all zero). *)
Theorem prepare_targets_pads_masks_to_canvas
    (box_xyxy_to_cxcywh : box → box) (h_pad w_pad : nat)
    (insts : list instances) :
  (prepare_targets box_xyxy_to_cxcywh h_pad w_pad insts = None ↔
   ∃ x, x ∈ insts ∧
     ¬ (((gt_masks_shape x).1 ≤ h_pad ∨
         (gt_masks_shape x).1 = 1 ∧ h_pad = 0)%nat ∧
        ((gt_masks_shape x).2 ≤ w_pad ∨
         (gt_masks_shape x).2 = 1 ∧ w_pad = 0)%nat)) ∧
  ∀ ts, prepare_targets box_xyxy_to_cxcywh h_pad w_pad insts = Some ts →
    length ts = length insts ∧
    ∀ k x t, insts !! k = Some x → ts !! k = Some t →
      labels t = gt_classes x ∧
      length (masks t) = length (gt_masks x) ∧
      length (boxes t) = length (gt_boxes x) ∧
      Forall (has_shape h_pad w_pad) (masks t) ∧
      ∀ a m p, gt_masks x !! a = Some m → masks t !! a = Some p →
        has_shape (gt_masks_shape x).1 (gt_masks_shape x).2 m →
        (0 < h_pad)%nat → (0 < w_pad)%nat →
        area p = area m ∧ ∀ i j b, pix m i j = Some b → pix p i j = Some b.
Proof.
  split.
  { unfold prepare_targets. rewrite mapM_None, Exists_exists.
    split; intros (x & Hx & Hbad); exists x; (split; [done|]).
    - intros [H1%fits_iff H2%fits_iff].
      unfold prepare_target, padded_masks in Hbad.
      by rewrite H1, H2 in Hbad.
    - unfold prepare_target, padded_masks.
      destruct (fits (gt_masks_shape x).1 h_pad) eqn:H1;
        destruct (fits (gt_masks_shape x).2 w_pad) eqn:H2; simpl; try done.
      exfalso. apply Hbad. by split; apply fits_iff. }
  intros ts Hts. split.
  { unfold prepare_targets in Hts. symmetry. by eapply length_mapM. }
  intros k x t Hx Ht.
  destruct (prepare_targets_lookup _ _ _ _ _ _ _ _ Hts Hx Ht)
    as ([Hfh Hfw]%andb_true_iff & ->).
  cbn [labels masks boxes].
  split; [done|]. split; [by rewrite length_fmap|].
  split; [by rewrite length_fmap|]. split.
  - apply Forall_fmap, Forall_forall. intros m _.
    apply has_shape_pad_mask.
  - intros a m p Hm. rewrite list_lookup_fmap, Hm. intros [= <-].
    destruct (gt_masks_shape x) as [h w] eqn:Hsz. cbn [fst snd] in *.
    intros Hshape Hh Hw.
    apply fits_iff in Hfh as [Hfh|[_ ?]]; [|lia].
    apply fits_iff in Hfw as [Hfw|[_ ?]]; [|lia].
    split; [by apply area_pad_mask|].
    intros i j b Hb.
    assert (is_Some (pix m i j)) as Hin by eauto.
    apply (pix_is_Some_shape h w m i j Hshape) in Hin as [Hi Hj].
    rewrite pix_pad_mask by lia. cbn [fst snd].
    replace (i <? h)%nat with true by (symmetry; by apply Nat.ltb_lt).
    replace (j <? w)%nat with true by (symmetry; by apply Nat.ltb_lt).
    by rewrite Hb.
Qed.

Lemma prepare_targets_pads_masks_to_canvas_witness :
  ∃ ts t,
    prepare_targets (λ b, b) 2 3 [example_instances] = Some ts ∧
    ts !! 0%nat = Some t ∧
    masks t = [[[true; false; false]; [false; false; false]]] ∧
    Forall (has_shape 2 3) (masks t).
Proof.
  destruct (prepare_targets (λ b, b) 2 3 [example_instances]) as [ts|] eqn:Hts;
    [|by vm_compute in Hts].
  destruct (ts !! 0%nat) as [t|] eqn:Ht.
  2:{ vm_compute in Hts. injection Hts as <-. done. }
  exists ts, t. split; [done|]. split; [done|].
  destruct (prepare_targets_pads_masks_to_canvas (λ b, b) 2 3
              [example_instances]) as [_ Hsome].
  destruct (Hsome ts Hts) as [_ Hall].
  destruct (Hall 0%nat example_instances t eq_refl Ht)
    as (_ & _ & _ & Hshape & _).
  split; [|exact Hshape].
  vm_compute in Hts. injection Hts as <-. by injection Ht as <-.
Defined.

Lemma prepare_targets_shapes box_fn h_pad w_pad insts ts k t :
  prepare_targets box_fn h_pad w_pad insts = Some ts →
  ts !! k = Some t → Forall (has_shape h_pad w_pad) (masks t).
Proof.
  intros Hts Ht.
  pose proof Hts as Hall. unfold prepare_targets in Hall.
  apply mapM_Some in Hall.
  destruct (Forall2_lookup_r _ _ _ _ _ Hall Ht) as (x & Hx & _).
  destruct (prepare_targets_lookup _ _ _ _ _ _ _ _ Hts Hx Ht) as (_ & ->).
  cbn [masks]. apply Forall_fmap, Forall_forall. intros m _.
  apply has_shape_pad_mask.
Qed.

(** X18. Target preparation and pseudo-label generation together: with
    the targets [prepare_targets] builds on the batch canvas, no pseudo
    mask of an image shares a pixel with any ground-truth mask of that
    image. *)
Theorem pseudo_masks_avoid_prepared_ground_truth
    (box_xyxy_to_cxcywh : box → box) (h_pad w_pad : nat)
    (insts : list instances) (targets : list target)
    (psd_overlap_threshold : float) (combine_psdlabel : bool)
    (mask_boxes : list (raster bool) → nat * nat → list box)
    (old_preds : list prediction) (strict_mode : bool)
    (i : nat) (psd_target t : target) (m g : raster bool) :
  prepare_targets box_xyxy_to_cxcywh h_pad w_pad insts = Some targets →
  (generate_psd_targets h_pad w_pad psd_overlap_threshold combine_psdlabel
     mask_boxes targets old_preds (image_size <$> insts) strict_mode).1 !! i
    = Some psd_target →
  targets !! i = Some t →
  m ∈ masks psd_target → g ∈ masks t →
  area (logical_and m g) = 0.
Proof.
  intros Hprep Hp Ht Hm Hg.
  pose proof (prepare_targets_shapes _ _ _ _ _ _ _ Hprep Ht) as Hshape.
  apply generate_psd_targets_lookup in Hp as (t' & o & sz & Ht' & _ & ->).
  assert (t' = t) as -> by congruence.
  apply area_all_zero. intros a b Hab.
  apply pix_logical_and_true in Hab as [Hm1 Hg1].
  eapply generate_psd_image_masks_off_region in Hm1; [|done].
  by rewrite (gt_region_covers h_pad w_pad _ g a b Hshape Hg Hg1) in Hm1.
Qed.

Lemma pseudo_masks_avoid_prepared_ground_truth_witness :
  area (logical_and [[false; true; false]; [false; false; false]]
                    [[true; false; false]; [false; false; false]]) = 0.
Proof.
  apply (pseudo_masks_avoid_prepared_ground_truth (λ b, b) 2 3
           [example_instances]
           [ {| labels := [5];
                masks := [[[true; false; false]; [false; false; false]]];
                boxes := [(0 # 2, 0, 1 # 2, 1)%Q] |} ]
           (f64_ratio 2 5) false unit_boxes
           [ {| p_labels := [1];
                p_masks := [[[9 # 10; 9 # 10; 1 # 10];
                             [1 # 10; 1 # 10; 1 # 10]]%Q];
                p_scores := [(4 # 5)%Q]; p_boxes := [(0, 0, 0, 0)%Q] |} ]
           false 0
           {| labels := [1];
              masks := [[[false; true; false]; [false; false; false]]];
              boxes := [(0, 0, 0, 0)%Q] |}
           {| labels := [5];
              masks := [[[true; false; false]; [false; false; false]]];
              boxes := [(0 # 2, 0, 1 # 2, 1)%Q] |}).
  - vm_compute. reflexivity.
  - vm_compute. reflexivity.
  - reflexivity.
  - left.
  - left.
Defined.

(** ** Storing one feature *)

Lemma last_newest {A} (n : nat) (l : list A) (x : A) :
  (0 < n)%nat → last (newest n (l ++ [x])) = Some x.
Proof.
  intros Hn. unfold newest. rewrite length_app. simpl.
  rewrite drop_app_le by lia. apply last_snoc.
Qed.

(** X19. Storing the feature of a matched (query, target) pair: when the
    cache is bounded by a capacity [lib_size // world_size] of at least 1,
    the feature of the query becomes the newest entry of the buffer of the
    target's class and the buffers of all other classes are untouched; when
    that capacity is 0 (more workers than [lib_size]) the buffer of the
    class stays empty. *)
Theorem store_pair_puts_feature_last (lib_size world_size : nat)
    (target_labels : list Z) (med_row : list feature)
    (collect collect1 : gmap Z (deque feature)) (q l : Z) :
  bounded (lib_size / world_size) collect →
  store_pair lib_size world_size target_labels med_row collect (q, l)
    = Some collect1 →
  ∃ gt_class feat d,
    py_index target_labels l = Some gt_class ∧
    py_index med_row q = Some feat ∧
    collect1 !! gt_class = Some d ∧
    ((0 < lib_size / world_size)%nat → last (items d) = Some feat) ∧
    ((lib_size / world_size = 0)%nat → items d = []) ∧
    ∀ k, k ≠ gt_class → collect1 !! k = collect !! k.
Proof.
  intros Hb. unfold store_pair. cbn [fst snd].
  destruct (py_index target_labels l) as [gt_class|]; simpl; [|done].
  set (c1 := match collect !! gt_class with Some _ => collect | None => _ end).
  assert (bounded (lib_size / world_size) c1 ∧
          ∀ k, k ≠ gt_class → c1 !! k = collect !! k) as [Hb1 Hother].
  { subst c1. destruct (collect !! gt_class) eqn:Hg; [done|]. split.
    - intros k d. destruct (decide (k = gt_class)) as [->|Hne].
      + rewrite lookup_insert_eq. intros [= <-]. simpl. split; [done|lia].
      + rewrite lookup_insert_ne by done. apply Hb.
    - intros k Hne. by rewrite lookup_insert_ne. }
  destruct (py_index med_row q) as [feat|]; simpl; [|done].
  destruct (c1 !! gt_class) as [d|] eqn:Hd; simpl; [|done].
  intros [= <-]. exists gt_class, feat, (append feat d).
  destruct (Hb1 _ _ Hd) as [Hm Hl].
  split; [done|]. split; [done|].
  split; [by rewrite lookup_insert_eq|]. split; [|split].
  - intros Hpos. rewrite append_items by lia. apply last_newest. lia.
  - intros H0. rewrite append_items by lia. rewrite Hm, H0.
    unfold newest. by rewrite Nat.sub_0_r, drop_all.
  - intros k Hne. rewrite lookup_insert_ne by done. by apply Hother.
Qed.

Lemma store_pair_puts_feature_last_witness :
  ∃ collect1 d,
    store_pair 4 2 [7; 8] [[1 # 2]; [1 # 3]]%Q ∅ (1, 0) = Some collect1 ∧
    collect1 !! 7 = Some d ∧ last (items d) = Some [(1 # 3)%Q].
Proof.
  destruct (store_pair 4 2 [7; 8] [[1 # 2]; [1 # 3]]%Q ∅ (1, 0))
    as [collect1|] eqn:Hs; [|by vm_compute in Hs].
  destruct (store_pair_puts_feature_last 4 2 [7; 8] [[1 # 2]; [1 # 3]]%Q ∅
              collect1 1 0 (bounded_empty _) Hs)
    as (c & feat & d & Hc & Hf & Hd & Hlast & _).
  injection Hc as <-. injection Hf as <-.
  exists collect1, d. split; [reflexivity|]. split; [exact Hd|].
  apply Hlast. vm_compute. lia.
Defined.

(** ** Stripping twice *)

(** X20. [_remove_fake_query] keeps the keys of the dictionary, leaves no
    tensor with more than 100 query slots, and stripping a stripped
    dictionary changes nothing. *)
Theorem remove_fake_query_idempotent {slot : Type}
    (outputs : gmap string (list slot)) :
  dom (_remove_fake_query outputs) = dom outputs ∧
  (∀ k v, _remove_fake_query outputs !! k = Some v → (length v ≤ 100)%nat) ∧
  _remove_fake_query (_remove_fake_query outputs) = _remove_fake_query outputs.
Proof.
  split; [|split].
  - unfold _remove_fake_query. apply dom_fmap_L.
  - intros k v. rewrite remove_fake_query_lookup.
    intros (v0 & _ & ->)%fmap_Some. rewrite length_take. lia.
  - apply map_eq. intros k. rewrite !remove_fake_query_lookup.
    destruct (outputs !! k) as [v|]; simpl; [|done].
    f_equal. rewrite take_take. f_equal.
Qed.

(** ** Panoptic inference *)

Section PanopticFacts.
Import Panoptic.
Variable num_classes : Z.
Variables object_mask_threshold overlap_threshold : Q.
Variable thing : Z → bool.
Variable softmax_T : list Q → list Q.

Lemma pix_assign_cases mask v seg i j x :
  pix (assign mask v seg) i j = Some x → x = v ∨ pix seg i j = Some x.
Proof.
  unfold assign. rewrite pix_rzip.
  destruct (pix mask i j) as [m|]; simpl; [|done].
  destruct (pix seg i j) as [p|]; simpl; [|done].
  intros [= <-]. destruct m; auto.
Qed.

Lemma has_shape_assign h w mask v seg :
  has_shape h w mask → has_shape h w seg → has_shape h w (assign mask v seg).
Proof. apply has_shape_rzip. Qed.

Lemma pan_inv_initial h w :
  pan_inv thing
    {| panoptic_seg := zeros h w; segments_info := [];
       current_segment_id := 0; stuff_memory_list := ∅ |}.
Proof.
  unfold pan_inv. cbn [panoptic_seg segments_info current_segment_id
    stuff_memory_list length fmap list_fmap].
  split; [done|]. split; [done|].
  split; [by intros s Hs%elem_of_nil|].
  split; [intros c sid Hc; by rewrite lookup_empty in Hc|].
  split; [by intros s Hs%elem_of_nil|].
  split; [rewrite filter_nil; constructor|].
  intros i j v Hv. apply pix_zeros in Hv. lia.
Qed.

Lemma pan_inv_open mask pred_class memory st :
  pan_inv thing st →
  (∀ c sid, memory !! c = Some sid → 1 ≤ sid ≤ current_segment_id st + 1) →
  (∀ s, s ∈ segments_info st → seg_isthing s = false →
     is_Some (memory !! seg_category_id s)) →
  (thing pred_class = false →
     is_Some (memory !! pred_class) ∧
     ∀ s, s ∈ segments_info st → seg_isthing s = false →
       seg_category_id s ≠ pred_class) →
  pan_inv thing (open_segment thing mask pred_class memory st).
Proof.
  intros (Hcur & Hids & Hthing & Hmem & Hstuff & Hnd & Hpix) Ha Hb Hc.
  unfold pan_inv, open_segment.
  cbn [panoptic_seg segments_info current_segment_id stuff_memory_list].
  rewrite length_app. cbn [length].
  replace (length (segments_info st) + 1)%nat
    with (S (length (segments_info st))) by lia.
  split; [lia|]. split.
  { rewrite fmap_app, seqZ_S, Hids. cbn [fmap list_fmap seg_id].
    do 2 f_equal. lia. }
  split.
  { intros s [Hs| ->%list_elem_of_singleton]%elem_of_app; [by apply Hthing|].
    done. }
  split; [exact Ha|]. split.
  { intros s [Hs| ->%list_elem_of_singleton]%elem_of_app Hst.
    - by apply Hb.
    - cbn [seg_isthing seg_category_id] in *. by apply Hc. }
  split.
  { rewrite filter_app, fmap_app. apply NoDup_app. split; [exact Hnd|].
    split.
    - intros c Hin Hin2. rewrite filter_singleton in Hin2 by exact [].
      cbn [seg_isthing] in Hin2.
      destruct (decide (thing pred_class = false)) as [Hf|Hf];
        [|by apply elem_of_nil in Hin2].
      apply list_elem_of_singleton in Hin2. cbn [seg_category_id] in Hin2.
      subst c. apply list_elem_of_fmap in Hin as (s & Hcat & Hs).
      apply list_elem_of_filter in Hs as [Hst Hs].
      destruct (Hc Hf) as [_ Hne]. by apply (Hne s).
    - rewrite filter_singleton by exact []. cbn [seg_isthing].
      destruct (decide (thing pred_class = false)); cbn [fmap list_fmap].
      + apply NoDup_singleton.
      + constructor. }
  intros i j v [->|Hv]%pix_assign_cases; [lia|].
  apply (Hpix i j) in Hv. lia.
Qed.

Lemma pan_inv_step ids st k pred_class m :
  pan_inv thing st →
  pan_inv thing (panoptic_step overlap_threshold thing ids st k pred_class m).
Proof.
  intros Hinv. unfold panoptic_step.
  destruct (_ && _ && _); [|done].
  destruct (Qlt_bool _ _); [done|].
  pose proof Hinv as (Hcur & Hids & Hthing & Hmem & Hstuff & Hnd & Hpix).
  destruct (thing pred_class) eqn:Hth; cbn [negb].
  - apply pan_inv_open; [done| | |].
    + intros c sid Hc. apply Hmem in Hc. lia.
    + exact Hstuff.
    + by rewrite Hth.
  - destruct (stuff_memory_list st !! pred_class) as [sid|] eqn:Hsid.
    + unfold pan_inv.
      cbn [panoptic_seg segments_info current_segment_id stuff_memory_list].
      do 6 (split; [done|]).
      intros i j v [->|Hv]%pix_assign_cases; [|by apply (Hpix i j)].
      apply Hmem in Hsid. lia.
    + apply pan_inv_open; [done| | |].
      * intros c sid. destruct (decide (c = pred_class)) as [->|Hne].
        -- rewrite lookup_insert_eq. intros [= <-].
           rewrite Hcur. lia.
        -- rewrite lookup_insert_ne by done. intros Hc%Hmem. lia.
      * intros s Hs Hst.
        destruct (decide (seg_category_id s = pred_class)) as [->|Hne].
        -- rewrite lookup_insert_eq. by eexists.
        -- rewrite lookup_insert_ne by done. by apply Hstuff.
      * intros _. split; [rewrite lookup_insert_eq; by eexists|].
        intros s Hs Hst Heq. destruct (Hstuff s Hs Hst) as [x Hx].
        rewrite Heq in Hx. congruence.
Qed.

Lemma pan_inv_loop ids cur_classes : ∀ cur_masks st k,
  pan_inv thing st →
  pan_inv thing
    (panoptic_loop overlap_threshold thing ids st k cur_classes cur_masks).
Proof.
  induction cur_classes as [|c cs IH]; intros [|m ms] st k Hinv; try done.
  cbn [panoptic_loop]. apply IH. by apply pan_inv_step.
Qed.

Lemma panoptic_inference_inv h w queries :
  ∃ st,
    pan_inv thing st ∧
    panoptic_inference num_classes object_mask_threshold overlap_threshold
      thing softmax_T h w queries = (panoptic_seg st, segments_info st).
Proof.
  unfold panoptic_inference.
  destruct (select _ (MaskFormer.q_mask <$> queries)) as [|m ms] eqn:Hsel.
  - eexists. split; [apply (pan_inv_initial h w)|done].
  - eexists. split; [|reflexivity].
    apply pan_inv_loop, pan_inv_initial.
Qed.

Lemma has_shape_step h w ids st k pred_class m :
  has_shape h w ids → has_shape h w m →
  has_shape h w (panoptic_seg st) →
  has_shape h w
    (panoptic_seg
       (panoptic_step overlap_threshold thing ids st k pred_class m)).
Proof.
  intros Hids Hm Hseg. unfold panoptic_step.
  assert (has_shape h w
            (logical_and (rmap (λ id, id =? k)%nat ids) (binarize m))).
  { apply has_shape_rzip; by apply has_shape_rmap. }
  destruct (_ && _ && _); [|done].
  destruct (Qlt_bool _ _); [done|].
  destruct (negb (thing pred_class)).
  - destruct (stuff_memory_list st !! pred_class);
      cbn [panoptic_seg open_segment]; by apply has_shape_assign.
  - cbn [panoptic_seg open_segment]. by apply has_shape_assign.
Qed.

Lemma has_shape_loop h w ids cur_classes : ∀ cur_masks st k,
  has_shape h w ids → Forall (has_shape h w) cur_masks →
  has_shape h w (panoptic_seg st) →
  has_shape h w
    (panoptic_seg
       (panoptic_loop overlap_threshold thing ids st k cur_classes cur_masks)).
Proof.
  induction cur_classes as [|c cs IH]; intros [|m ms] st k Hids Hms Hseg;
    try done.
  cbn [panoptic_loop]. apply Forall_cons in Hms as [Hm Hms].
  apply IH; [done|done|]. by apply has_shape_step.
Qed.

(** X21. The segments reported by [panoptic_inference] are numbered
    1, 2, ..., n in the order they are listed, and each one's [isthing]
    flag is the membership of its category in the thing classes. *)
Theorem panoptic_segment_ids_consecutive (h w : nat)
    (queries : list MaskFormer.raw_query) :
  let info :=
    (panoptic_inference num_classes object_mask_threshold overlap_threshold
       thing softmax_T h w queries).2 in
  seg_id <$> info = seqZ 1 (Z.of_nat (length info)) ∧
  ∀ s, s ∈ info → seg_isthing s = thing (seg_category_id s).
Proof.
  destruct (panoptic_inference_inv h w queries) as (st & Hinv & ->).
  cbn [snd]. destruct Hinv as (_ & Hids & Hthing & _). by split.
Qed.

(** X22. For mask predictions of shape [h x w] the panoptic map is
    [h x w], and each of its pixels is 0 (void) or the id of a segment
    listed in [segments_info]. *)
Theorem panoptic_pixels_name_segments (h w : nat)
    (queries : list MaskFormer.raw_query) (i j : nat) :
  Forall (λ q, has_shape h w (MaskFormer.q_mask q)) queries →
  (i < h)%nat → (j < w)%nat →
  let out :=
    panoptic_inference num_classes object_mask_threshold overlap_threshold
      thing softmax_T h w queries in
  has_shape h w out.1 ∧
  ∃ v, pix out.1 i j = Some v ∧
       (v = 0 ∨ ∃ s, s ∈ out.2 ∧ seg_id s = v).
Proof.
  intros Hshape Hi Hj out.
  assert (has_shape h w out.1) as Hout.
  { subst out. unfold panoptic_inference.
    set (keep := panoptic_keep num_classes object_mask_threshold <$> queries).
    assert (Forall (has_shape h w) (select keep (MaskFormer.q_mask <$> queries)))
      as Hms.
    { apply Forall_select. by apply Forall_fmap. }
    destruct (select keep (MaskFormer.q_mask <$> queries)) as [|m ms] eqn:Hsel.
    - apply has_shape_zeros.
    - cbn [fst]. apply has_shape_loop; [|done|apply has_shape_zeros].
      apply has_shape_mask_ids; [done| |done].
      rewrite <- Hsel.
      apply length_select_same. by rewrite !length_fmap. }
  split; [done|].
  destruct (proj2 (pix_is_Some_shape h w out.1 i j Hout) (conj Hi Hj))
    as [v Hv].
  exists v. split; [done|].
  subst out. destruct (panoptic_inference_inv h w queries) as (st & Hinv & Heq).
  rewrite Heq in *. cbn [fst snd] in *.
  destruct Hinv as (Hcur & Hids & _ & _ & _ & _ & Hpix).
  apply (Hpix i j) in Hv. destruct (decide (v = 0)) as [->|Hne]; [by left|right].
  assert (v ∈ seg_id <$> segments_info st) as Hin.
  { rewrite Hids. apply elem_of_seqZ. lia. }
  apply list_elem_of_fmap in Hin as (s & -> & Hs). by exists s.
Qed.

(** X23. Stuff regions are merged: among the segments reported by
    [panoptic_inference] no two stuff segments (segments that are not
    things) have the same category. *)
Theorem panoptic_stuff_classes_merged (h w : nat)
    (queries : list MaskFormer.raw_query) :
  NoDup (seg_category_id <$>
           filter (λ s, seg_isthing s = false)
             (panoptic_inference num_classes object_mask_threshold
                overlap_threshold thing softmax_T h w queries).2).
Proof.
  destruct (panoptic_inference_inv h w queries) as (st & Hinv & ->).
  cbn [snd]. by destruct Hinv as (_ & _ & _ & _ & _ & Hnd & _).
Qed.

End PanopticFacts.

Lemma panoptic_pixels_name_segments_witness :
  has_shape 1 3
    (Panoptic.panoptic_inference 2 (1 # 5) (4 # 5) (λ c, c =? 0) id 1 3
       example_pan_queries).1 ∧
  ∃ v, pix (Panoptic.panoptic_inference 2 (1 # 5) (4 # 5) (λ c, c =? 0) id 1 3
              example_pan_queries).1 0 1 = Some v ∧
       (v = 0 ∨ ∃ s, s ∈ (Panoptic.panoptic_inference 2 (1 # 5) (4 # 5) (λ c, c =? 0)
                            id 1 3 example_pan_queries).2 ∧ Panoptic.seg_id s = v).
Proof.
  apply (panoptic_pixels_name_segments 2 (1 # 5) (4 # 5) (λ c, c =? 0) id 1 3
           example_pan_queries 0 1).
  - repeat constructor.
  - lia.
  - lia.
Defined.
